(** * SantaRouteOptimizer: a shallow embedding of [src/main.py]

    The planner of [main.py] is embedded as executable Rocq functions and
    the statements of the specification are proved about them.

    Modelling conventions.
    - Python and NumPy floating-point numbers are idealised as exact
      rationals ([Q]); the two non-finite values and NaN that the code can
      produce (a division by a zero catalogue cell, a missing cell after
      the left merge, the initial [float('inf')]) are kept as constructors
      of [pyfloat].  Rounding and overflow are not modelled here; the
      properties proved about these definitions are those that do not
      depend on them.  [Module Float64] embeds the numeric part of the code
      again over binary64 floats, for what does depend on rounding.
    - Python [int]s are [Z]; dictionaries keyed by article id are
      [gmap Z Z]; the sleigh specification dictionary is [gmap string Q].
    - Exceptions are values of [exn], threaded through the [result] monad.
    - The [while] loop is run with fuel; [None] means the fuel ran out.
    - A Python [set] is enumerated in an order fixed by the interpreter.
      That order is the parameter [set_order]; removing an element leaves
      the order of the others unchanged, so the unvisited set is carried
      as the list of its elements in enumeration order.
    - [geodesic] is the parameter [calculate_distance]. *)

From Stdlib Require Import QArith Qround Qabs Lqa.
From Stdlib Require PrimFloat FloatOps SpecFloat.
From stdpp Require Import gmap strings list sorting.

Local Open Scope Z_scope.

(** ** Exceptions and the error monad *)

Inductive exn : Set :=
  | IndexError | KeyError | ZeroDivisionError | OverflowError | ValueError.

Inductive result (A : Type) : Type :=
  | Ok (a : A)
  | Raise (e : exn).
Arguments Ok {A} a.
Arguments Raise {A} e.

#[global] Instance result_ret : MRet result := fun _ a => Ok a.
#[global] Instance result_bind : MBind result := fun _ _ f m =>
  match m with Ok a => f a | Raise e => Raise e end.

(** Monadic left fold: a [for] loop whose body may raise. *)
Fixpoint for_each {A St : Type} (body : St -> A -> result St)
    (s : St) (l : list A) : result St :=
  match l with
  | [] => Ok s
  | x :: l' => s' ← body s x; for_each body s' l'
  end.

(** ** Numbers *)

Inductive pyfloat : Set :=
  | Fin (q : Q)
  | PInf
  | NInf
  | NaN.

(** [x / y] where [y] is a NumPy scalar: a zero divisor gives an infinity
    or NaN (with a warning), never an exception. *)
Definition np_truediv (x y : Q) : pyfloat :=
  if Qeq_bool y 0 then
    if Qeq_bool x 0 then NaN
    else if Qle_bool 0 x then PInf else NInf
  else Fin (x / y)%Q.

(** [x / y] on two Python floats. *)
Definition py_truediv (x y : Q) : result Q :=
  if Qeq_bool y 0 then Raise ZeroDivisionError else Ok (x / y)%Q.

(** Truncation toward zero. *)
Definition Qtrunc (q : Q) : Z := Z.quot (Qnum q) (Zpos (Qden q)).

(** [int(f)]. *)
Definition py_int (f : pyfloat) : result Z :=
  match f with
  | Fin q => Ok (Qtrunc q)
  | PInf | NInf => Raise OverflowError
  | NaN => Raise ValueError
  end.

(** [f > q]; every comparison with NaN is false. *)
Definition float_gt (f : pyfloat) (q : Q) : bool :=
  match f with
  | Fin x => negb (Qle_bool x q)
  | PInf => true
  | NInf | NaN => false
  end.

(** [d < f] for a finite [d]. *)
Definition float_lt (d : Q) (f : pyfloat) : bool :=
  match f with
  | Fin x => negb (Qle_bool x d)
  | PInf => true
  | NInf | NaN => false
  end.

(** ** Tables *)

Definition coords : Type := Q * Q.

(** A row of the children CSV. *)
Record child_row : Type := {
  child : Z;
  latitude : Q;
  longitude : Q;
  naughty : Z;
  wish : Z
}.

(** A row of the articles CSV. *)
Record gift_row : Type := {
  article : Z;
  weight : Q;
  volume : Q
}.

(** A row of [children_df] after [assign_gifts]: the child's columns, the
    assigned article and the columns merged in from the articles table
    (NaN where the left merge found no article). *)
Record merged_row : Type := {
  row_child : child_row;
  assigned_article : Z;
  row_weight : pyfloat;
  row_volume : pyfloat
}.

Record optimizer : Type := {
  children_df : list child_row;
  gifts_df : list gift_row;
  sleigh_specs : gmap string Q;
  max_weight : Q;
  max_volume : Q;
  speed_kmh : Q;
  time_per_stop_min : Q;
  max_time_hours : Q
}.

Definition NORTH_POLE : coords := (90 # 1, 0 # 1)%Q.
Definition COAL_ARTICLE_ID : Z := 0.

(** [specs[key]] on a dictionary. *)
Definition dict_get {K V} `{Countable K} (d : gmap K V) (k : K) : result V :=
  match d !! k with Some v => Ok v | None => Raise KeyError end.

(** [_load_sleigh_specs]: later rows overwrite earlier ones. *)
Definition _load_sleigh_specs (rows : list (string * Q)) : gmap string Q :=
  foldl (fun specs r => <[r.1 := r.2]> specs) ∅ rows.

(** [__init__], on the three tables already read from their files. *)
Definition init (children : list child_row) (gifts : list gift_row)
    (specs_rows : list (string * Q)) : result optimizer :=
  let specs := _load_sleigh_specs specs_rows in
  mw ← dict_get specs "maximum weight"%string;
  mv ← dict_get specs "maximum volume"%string;
  sp ← dict_get specs "speed (km/h)"%string;
  ts ← dict_get specs "time per stop (min)"%string;
  Ok {| children_df := children; gifts_df := gifts; sleigh_specs := specs;
        max_weight := mw; max_volume := mv; speed_kmh := sp;
        time_per_stop_min := ts; max_time_hours := 7 # 1 |}.

(** [df[df[col] == key]]: the rows whose key column matches, in order. *)
Definition gifts_with (gifts : list gift_row) (a : Z) : list gift_row :=
  filter (fun g => article g = a) gifts.

Definition rows_with (df : list merged_row) (c : Z) : list merged_row :=
  filter (fun r => child (row_child r) = c) df.

(** [.iloc[0]] *)
Definition iloc0 {A} (rows : list A) : result A :=
  match rows with r :: _ => Ok r | [] => Raise IndexError end.

(** [assign_gifts]: naughty children get coal, then a left merge with the
    articles table on the assigned article. *)
Definition assign_article (c : child_row) : Z :=
  if decide (naughty c = 0) then wish c else COAL_ARTICLE_ID.

Definition merge_left (gifts : list gift_row) (c : child_row) : list merged_row :=
  let a := assign_article c in
  match gifts_with gifts a with
  | [] => [ {| row_child := c; assigned_article := a;
               row_weight := NaN; row_volume := NaN |} ]
  | gs => map (fun g => {| row_child := c; assigned_article := a;
                           row_weight := Fin (weight g);
                           row_volume := Fin (volume g) |}) gs
  end.

Definition assign_gifts (self : optimizer) : list merged_row :=
  flat_map (merge_left (gifts_df self)) (children_df self).

(** ** Route events and printed lines *)

Inductive event : Type :=
  | Delivery (child_id : Z)
  | Refuel (articles : gmap Z Z).

(** A printed line carries the values handed to its format string, before
    they are rendered ([:.2f] for the times, [:.0f] for the speed). *)
Inductive message : Type :=
  | Undeliverable (child_id : Z)
  | TimeExceeded (total limit : Q)
  | RequiredSpeed (kmh : Q)
  | Success (total : Q).

(** ** calculate_loading *)

(** Lexicographic order of Python tuples [(article_id, count)]. *)
Definition item_le (x y : Z * Z) : Prop :=
  x.1 < y.1 \/ (x.1 = y.1 /\ x.2 <= y.2).

#[global] Instance item_le_dec x y : Decision (item_le x y).
Proof. unfold item_le. apply _. Defined.

Definition tally (df : list merged_row) (needed : gmap Z Z) (child_id : Z)
    : result (gmap Z Z) :=
  row ← iloc0 (rows_with df child_id);
  let article_id := assigned_article row in
  Ok (<[article_id := default 0 (needed !! article_id) + 1]> needed).

(** The three locals of the second loop of [calculate_loading]. *)
Record hold : Type := {
  loaded_articles : gmap Z Z;
  current_weight : Q;
  current_volume : Q
}.

Definition load_item (self : optimizer) (h : hold) (item : Z * Z) : result hold :=
  let '(article_id, needed_count) := item in
  gift ← iloc0 (gifts_with (gifts_df self) article_id);
  max_by_weight ← py_int (np_truediv (max_weight self - current_weight h)%Q (weight gift));
  max_by_volume ← py_int (np_truediv (max_volume self - current_volume h)%Q (volume gift));
  let max_can_load := Z.min (Z.min max_by_weight max_by_volume) needed_count in
  if decide (0 < max_can_load) then
    Ok {| loaded_articles := <[article_id := max_can_load]> (loaded_articles h);
          current_weight := (current_weight h + inject_Z max_can_load * weight gift)%Q;
          current_volume := (current_volume h + inject_Z max_can_load * volume gift)%Q |}
  else Ok h.

Definition calculate_loading (self : optimizer) (df : list merged_row)
    (unvisited_children : list Z) : result (gmap Z Z) :=
  needed_articles ← for_each (tally df) ∅ unvisited_children;
  h ← for_each (load_item self)
        {| loaded_articles := ∅; current_weight := 0%Q; current_volume := 0%Q |}
        (merge_sort item_le (map_to_list needed_articles));
  Ok (loaded_articles h).

(** ** optimize_route *)

(** The locals of [optimize_route] that live across iterations, and the
    lines printed so far. *)
Record state : Type := {
  route : list event;
  unvisited : list Z;
  current_position : coords;
  current_cargo : gmap Z Z;
  total_time : Q;
  stdout : list message
}.

Inductive outcome : Type :=
  | Continue (st : state)
  | Break (st : state).

(** [s.remove(x)] on a set: [KeyError] when [x] is absent. *)
Definition set_remove (x : Z) (s : list Z) : result (list Z) :=
  if decide (x ∈ s) then Ok (filter (fun y => y ≠ x) s) else Raise KeyError.

Section Planner.

Variable calculate_distance : coords -> coords -> Q.

(** [article_id in current_cargo and current_cargo[article_id] > 0] *)
Definition can_deliver (cargo : gmap Z Z) (article_id : Z) : bool :=
  match cargo !! article_id with
  | Some n => bool_decide (0 < n)
  | None => false
  end.

Definition row_coords (r : merged_row) : coords :=
  (latitude (row_child r), longitude (row_child r)).

(** Body of the nearest-neighbour scan; the accumulator is
    [(best_child, best_distance)]. *)
Definition scan (df : list merged_row) (st : state)
    (best : option Z * pyfloat) (child_id : Z) : result (option Z * pyfloat) :=
  row ← iloc0 (rows_with df child_id);
  let child_coords := row_coords row in
  let article_id := assigned_article row in
  let distance_to_child := calculate_distance (current_position st) child_coords in
  if can_deliver (current_cargo st) article_id && float_lt distance_to_child best.2
  then Ok (Some child_id, Fin distance_to_child)
  else Ok best.

Definition nearest (df : list merged_row) (st : state) : result (option Z) :=
  best ← for_each (scan df st) (None, PInf) (unvisited st);
  Ok best.1.

(** Body of the classification loop; the accumulator is the list
    [undeliverable] and the lines printed. *)
Definition classify (self : optimizer) (df : list merged_row)
    (acc : list Z * list message) (child_id : Z) : result (list Z * list message) :=
  row ← iloc0 (rows_with df child_id);
  if float_gt (row_weight row) (max_weight self)
     || float_gt (row_volume row) (max_volume self)
  then Ok (acc.1 ++ [child_id], acc.2 ++ [Undeliverable child_id])
  else Ok acc.

(** The branch [best_child is None]. *)
Definition depot_return (self : optimizer) (df : list merged_row) (st : state)
    : result outcome :=
  acc ← for_each (classify self df) ([], stdout st) (unvisited st);
  let '(undeliverable, out) := acc in
  unvisited' ← for_each (fun s c => set_remove c s) (unvisited st) undeliverable;
  match unvisited' with
  | [] =>
      Ok (Break {| route := route st; unvisited := unvisited';
                   current_position := current_position st;
                   current_cargo := current_cargo st;
                   total_time := total_time st; stdout := out |})
  | _ =>
      let return_distance := calculate_distance (current_position st) NORTH_POLE in
      leg ← py_truediv return_distance (speed_kmh self);
      articles_to_load ← calculate_loading self df unvisited';
      Ok (Continue {| route := route st ++ [Refuel articles_to_load];
                      unvisited := unvisited';
                      current_position := NORTH_POLE;
                      current_cargo := articles_to_load;
                      total_time := (total_time st + leg)%Q; stdout := out |})
  end.

(** [current_cargo[article_id] -= 1], then [del] at zero. *)
Definition unload (cargo : gmap Z Z) (article_id : Z) : result (gmap Z Z) :=
  n ← dict_get cargo article_id;
  if decide (n - 1 = 0) then Ok (delete article_id cargo)
  else Ok (<[article_id := n - 1]> cargo).

(** The branch [best_child is not None]. *)
Definition deliver (self : optimizer) (df : list merged_row) (st : state)
    (best_child : Z) : result outcome :=
  row ← iloc0 (rows_with df best_child);
  let child_coords := row_coords row in
  let article_id := assigned_article row in
  unvisited' ← set_remove best_child (unvisited st);
  cargo' ← unload (current_cargo st) article_id;
  let travel_distance := calculate_distance (current_position st) child_coords in
  leg ← py_truediv travel_distance (speed_kmh self);
  Ok (Continue {| route := route st ++ [Delivery best_child];
                  unvisited := unvisited';
                  current_position := child_coords;
                  current_cargo := cargo';
                  total_time := (total_time st + leg + time_per_stop_min self / (60 # 1))%Q;
                  stdout := stdout st |}).

(** One iteration of [while unvisited]. *)
Definition loop_body (self : optimizer) (df : list merged_row) (st : state)
    : result outcome :=
  best_child ← nearest df st;
  match best_child with
  | None => depot_return self df st
  | Some c => deliver self df st c
  end.

Fixpoint while_unvisited (self : optimizer) (df : list merged_row)
    (fuel : nat) (st : state) : option (result state) :=
  match unvisited st with
  | [] => Some (Ok st)
  | _ =>
      match fuel with
      | O => None
      | S fuel' =>
          match loop_body self df st with
          | Raise e => Some (Raise e)
          | Ok (Break st') => Some (Ok st')
          | Ok (Continue st') => while_unvisited self df fuel' st'
          end
      end
  end.

(** The code after the loop. *)
Definition finish (self : optimizer) (st : state) : result state :=
  let final_return_distance := calculate_distance (current_position st) NORTH_POLE in
  leg ← py_truediv final_return_distance (speed_kmh self);
  let total := (total_time st + leg)%Q in
  let lines :=
    if float_gt (Fin total) (max_time_hours self)
    then [TimeExceeded total (max_time_hours self);
          RequiredSpeed (total / max_time_hours self * speed_kmh self)%Q]
    else [Success total] in
  Ok {| route := route st ++ [Refuel ∅]; unvisited := unvisited st;
        current_position := current_position st;
        current_cargo := current_cargo st;
        total_time := total; stdout := stdout st ++ lines |}.

Variable set_order : list Z -> list Z.

Definition initial_state (df : list merged_row) : state :=
  {| route := []; unvisited := set_order (map (fun r => child (row_child r)) df);
     current_position := NORTH_POLE; current_cargo := ∅;
     total_time := 0%Q; stdout := [] |}.

(** [optimize_route]: the returned route is [route] of the final state; the
    printed lines are its [stdout]. *)
Definition optimize_route (self : optimizer) (fuel : nat) : option (result state) :=
  let df := assign_gifts self in
  match while_unvisited self df fuel (initial_state df) with
  | None => None
  | Some (Raise e) => Some (Raise e)
  | Some (Ok st) => Some (finish self st)
  end.

End Planner.

(** ** Notions used in the statements *)

(** The recipients of the delivery events of a route, in order. *)
Definition deliveries (r : list event) : list Z :=
  omap (fun e => match e with Delivery c => Some c | Refuel _ => None end) r.

(** The recipients named by the warnings among the printed lines. *)
Definition warned (out : list message) : list Z :=
  omap (fun msg => match msg with Undeliverable c => Some c | _ => None end) out.

(** How often a recipient id occurs in a list. *)
Definition occurrences (c : Z) (l : list Z) : nat :=
  length (filter (fun x => x = c) l).

(** Per-unit footprint of an article as the loader reads it: the first
    catalogue row of that article. *)
Definition unit_weight (gifts : list gift_row) (a : Z) : Q :=
  match gifts_with gifts a with g :: _ => weight g | [] => 0%Q end.

Definition unit_volume (gifts : list gift_row) (a : Z) : Q :=
  match gifts_with gifts a with g :: _ => volume g | [] => 0%Q end.

(** Sum over a manifest of per-unit footprint times count. *)
Definition manifest_total (unit : Z -> Q) (m : gmap Z Z) : Q :=
  map_fold (fun a n acc => (acc + inject_Z n * unit a)%Q) 0%Q m.

Definition manifest_weight (self : optimizer) (m : gmap Z Z) : Q :=
  manifest_total (unit_weight (gifts_df self)) m.

Definition manifest_volume (self : optimizer) (m : gmap Z Z) : Q :=
  manifest_total (unit_volume (gifts_df self)) m.

Definition within_capacity (self : optimizer) (m : gmap Z Z) : Prop :=
  (manifest_weight self m <= max_weight self)%Q /\
  (manifest_volume self m <= max_volume self)%Q.

(** A manifest within capacity whose entries are positive counts of
    articles with a positive footprint. *)
Definition sound_manifest (self : optimizer) (m : gmap Z Z) : Prop :=
  within_capacity self m /\
  forall a n, m !! a = Some n ->
    0 < n /\ (0 < unit_weight (gifts_df self) a)%Q /\
    (0 < unit_volume (gifts_df self) a)%Q.

(** The loader's running totals are those of what it has loaded so far. *)
Definition sound_hold (self : optimizer) (h : hold) : Prop :=
  (manifest_weight self (loaded_articles h) == current_weight h)%Q /\
  (manifest_volume self (loaded_articles h) == current_volume h)%Q /\
  (current_weight h <= max_weight self)%Q /\
  (current_volume h <= max_volume self)%Q /\
  forall a n, loaded_articles h !! a = Some n ->
    0 < n /\ (0 < unit_weight (gifts_df self) a)%Q /\
    (0 < unit_volume (gifts_df self) a)%Q.

(** The first row of a child in the merged table, when there is one. *)
Definition first_row (df : list merged_row) (c : Z) : option merged_row :=
  head (rows_with df c).

(** The undeliverable test of [optimize_route]. *)
Definition too_big (self : optimizer) (r : merged_row) : bool :=
  float_gt (row_weight r) (max_weight self)
  || float_gt (row_volume r) (max_volume self).

(** The test on a recipient id: its first row is too big. *)
Definition is_too_big (self : optimizer) (df : list merged_row) (c : Z) : bool :=
  match first_row df c with
  | Some r => too_big self r
  | None => false
  end.

(** What is left of the unvisited set once the recipients that are too big
    have been removed. *)
Definition kept (self : optimizer) (df : list merged_row) (u : list Z) : list Z :=
  filter (fun c => is_too_big self df c <> true) u.

Section Moments.

Variable calculate_distance : coords -> coords -> Q.
Variable set_order : list Z -> list Z.
Variable self : optimizer.

(** The states of a run at the head of the loop: on entry, and after each
    iteration that continues. *)
Inductive in_loop : state -> Prop :=
  | loop_start :
      in_loop (initial_state set_order (assign_gifts self))
  | loop_continue st st' :
      in_loop st -> unvisited st <> [] ->
      loop_body calculate_distance self (assign_gifts self) st = Ok (Continue st') ->
      in_loop st'.

(** The states in which the loop is left: the unvisited set is empty at the
    head of the loop, or the body breaks. *)
Inductive loop_exit : state -> Prop :=
  | exit_condition st :
      in_loop st -> unvisited st = [] -> loop_exit st
  | exit_break st st' :
      in_loop st -> unvisited st <> [] ->
      loop_body calculate_distance self (assign_gifts self) st = Ok (Break st') ->
      loop_exit st'.

(** A recipient is deliverable from the cargo on board. *)
Definition deliverable (df : list merged_row) (st : state) (c : Z) : Prop :=
  exists row, first_row df c = Some row /\
    can_deliver (current_cargo st) (assigned_article row) = true.

(** Distance from the current position to a recipient. *)
Definition distance_to (df : list merged_row) (st : state) (c : Z) : Q :=
  match first_row df c with
  | Some row => calculate_distance (current_position st) (row_coords row)
  | None => 0%Q
  end.

(** [c] is the nearest deliverable recipient of the enumeration [u], and
    the first one met among those at the same distance. *)
Definition first_nearest (df : list merged_row) (st : state)
    (u : list Z) (c : Z) : Prop :=
  exists i, u !! i = Some c /\ deliverable df st c /\
    forall j c', u !! j = Some c' -> deliverable df st c' ->
      (distance_to df st c <= distance_to df st c')%Q /\
      ((j < i)%nat -> (distance_to df st c < distance_to df st c')%Q).

End Moments.

(** ** The reference loader of the specification *)

(** Written after section 4.2 of the specification: tally the demand per
    assigned item, take the items in ascending id order, load
    [min (floor (remaining_weight / weight)) (floor (remaining_volume /
    volume)) demand] units of each, decrement the remaining capacities, and
    leave out the items of which no unit fits.  The loader of the
    specification has no failure path and the specification lets an item
    weigh nothing: a dimension in which the footprint is zero puts no bound
    on the units.  The specification assumes that every assigned item is in
    the catalogue; where one is not, the reference has no value. *)
Module Reference.

Definition assigned_item (df : list merged_row) (c : Z) : option Z :=
  assigned_article <$> first_row df c.

Definition demand (df : list merged_row) (unserved : list Z) (a : Z) : Z :=
  Z.of_nat (length (filter (fun c => assigned_item df c = Some a) unserved)).

(** [floor(remaining / footprint)]; [None] is no bound. *)
Definition units_that_fit (remaining footprint : Q) : option Z :=
  if Qeq_bool footprint 0 then None else Some (Qfloor (remaining / footprint)).

Definition at_most (bound : option Z) (n : Z) : Z :=
  match bound with Some b => Z.min b n | None => n end.

Fixpoint bin_fill (gifts : list gift_row) (need : Z -> Z)
    (remaining_weight remaining_volume : Q) (items : list Z)
    : option (gmap Z Z) :=
  match items with
  | [] => Some ∅
  | a :: rest =>
      item ← head (gifts_with gifts a);
      let by_weight := units_that_fit remaining_weight (weight item) in
      let by_volume := units_that_fit remaining_volume (volume item) in
      let units := at_most by_weight (at_most by_volume (need a)) in
      if decide (0 < units) then
        m ← bin_fill gifts need
              (remaining_weight - inject_Z units * weight item)%Q
              (remaining_volume - inject_Z units * volume item)%Q rest;
        Some (<[a := units]> m)
      else bin_fill gifts need remaining_weight remaining_volume rest
  end.

Definition loading (self : optimizer) (df : list merged_row)
    (unserved : list Z) : option (gmap Z Z) :=
  items ← mapM (assigned_item df) unserved;
  bin_fill (gifts_df self) (demand df unserved)
    (max_weight self) (max_volume self)
    (merge_sort Z.le (remove_dups items)).

End Reference.

(** The unvisited set has no repetition and all its members are in the
    table. *)
Definition enumerated (self : optimizer) (st : state) : Prop :=
  NoDup (unvisited st) /\
  forall c, c ∈ unvisited st -> is_Some (first_row (assign_gifts self) c).

(** Every recipient's assigned article is in the catalogue, with a positive
    per-unit weight and volume. *)
Definition catalog_resolves_positive (self : optimizer) : Prop :=
  forall c, c ∈ children_df self ->
    exists g, head (gifts_with (gifts_df self) (assign_article c)) = Some g /\
      (0 < weight g)%Q /\ (0 < volume g)%Q.

(** Every recipient whose article fits the empty sleigh has a positive
    per-unit weight and volume. *)
Definition fitting_footprints_positive (self : optimizer) : Prop :=
  forall c g, c ∈ children_df self ->
    head (gifts_with (gifts_df self) (assign_article c)) = Some g ->
    (weight g <= max_weight self)%Q -> (volume g <= max_volume self)%Q ->
    (0 < weight g)%Q /\ (0 < volume g)%Q.

Definition result_value {A} (m : result A) : option A :=
  match m with Ok a => Some a | Raise _ => None end.

(** ** Concrete inputs *)

Module Sample.

(** A stand-in for the geodesic distance on concrete inputs. *)
Definition taxicab (p q : coords) : Q :=
  (Qabs (p.1 - q.1) + Qabs (p.2 - q.2))%Q.

Definition kid (c : Z) (lat lon : Q) (n w : Z) : child_row :=
  {| child := c; latitude := lat; longitude := lon; naughty := n; wish := w |}.

Definition gift (a : Z) (w v : Q) : gift_row :=
  {| article := a; weight := w; volume := v |}.

Definition sleigh (mw mv sp ts : Q) : list (string * Q) :=
  [("maximum weight"%string, mw); ("maximum volume"%string, mv);
   ("speed (km/h)"%string, sp); ("time per stop (min)"%string, ts)].

Definition make (children : list child_row) (gifts : list gift_row)
    (mw mv sp ts : Q) : optimizer :=
  {| children_df := children; gifts_df := gifts;
     sleigh_specs := _load_sleigh_specs (sleigh mw mv sp ts);
     max_weight := mw; max_volume := mv; speed_kmh := sp;
     time_per_stop_min := ts; max_time_hours := 7 # 1 |}.

(** Three children, two of them nice; one unit of article 1 fits per trip. *)
Definition three_children : optimizer :=
  make [kid 1 (80#1) 0 0 1; kid 2 (70#1) 0 0 1; kid 3 (60#1) 0 1 5]
       [gift 0 (1#2) 1; gift 1 6 1] 10 10 100 30.

(** One child whose gift is heavier than the sleigh can carry. *)
Definition heavy_gift : optimizer :=
  make [kid 1 (80#1) 0 0 1] [gift 0 (1#2) 1; gift 1 60 1] 10 10 100 30.

(** One naughty child; coal weighs nothing. *)
Definition weightless_coal : optimizer :=
  make [kid 1 (80#1) 0 1 1] [gift 0 0 0; gift 1 6 1] 10 10 100 30.

(** One child whose gift has a negative weight in the catalogue. *)
Definition negative_weight : optimizer :=
  make [kid 1 (80#1) 0 0 1] [gift 1 (-1) 1] 10 10 100 30.

(** A slow sleigh: the trip takes longer than the budget. *)
Definition slow_sleigh : optimizer :=
  make [kid 1 (80#1) 0 0 1] [gift 1 1 1] 10 10 1 30.

(** Two children at the same place who wish for the same article. *)
Definition twins : optimizer :=
  make [kid 1 (80#1) 0 0 1; kid 2 (80#1) 0 0 1] [gift 1 1 1] 10 10 100 30.

(** At the depot with two units of article 1 on board; the set of the
    unvisited enumerates child 2 before child 1. *)
Definition twins_loaded : state :=
  {| route := [Refuel {[ 1 := 2 ]}]; unvisited := [2; 1];
     current_position := NORTH_POLE; current_cargo := {[ 1 := 2 ]};
     total_time := 0%Q; stdout := [] |}.

(** A run on a concrete input: Manhattan distance, sets enumerated in the
    order of first insertion (for the small ascending ids of these inputs
    that is the order of CPython's sets as well), forty iterations of fuel. *)
Definition run (self : optimizer) : option (result state) :=
  optimize_route taxicab remove_dups self 40.

(** The state a run returns, when it returns. *)
Definition returned (self : optimizer) : option state :=
  r ← run self; result_value r.

End Sample.

(** ** export_route *)

(** A row of the exported table; an empty cell ([''] in the source) is
    [None]. *)
Record csv_row : Type := {
  csv_stop : Z;
  csv_article : option Z;
  csv_pieces : option Z
}.

(** The rows one stop contributes: a delivery gives one row with the child
    id, a reload with a non-empty dictionary one row per article in
    ascending order, an empty reload one row with empty cells. *)
Definition stop_rows (stop : event) : list csv_row :=
  match stop with
  | Delivery child_id =>
      [ {| csv_stop := child_id; csv_article := None; csv_pieces := None |} ]
  | Refuel articles =>
      if decide (articles = ∅) then
        [ {| csv_stop := 0; csv_article := None; csv_pieces := None |} ]
      else
        (fun item : Z * Z =>
           {| csv_stop := 0; csv_article := Some item.1; csv_pieces := Some item.2 |})
        <$> merge_sort item_le (map_to_list articles)
  end.

(** The loop of [export_route] that appends the rows stop by stop. *)
Definition export_rows (route : list event) : list csv_row :=
  foldl (fun rows stop => rows ++ stop_rows stop) [] route.

Definition is_delivery (stop : event) : bool :=
  match stop with Delivery _ => true | Refuel _ => false end.

(** [s['type'] == 'refuel' and s['articles']] *)
Definition is_loaded_refuel (stop : event) : bool :=
  match stop with
  | Delivery _ => false
  | Refuel articles => bool_decide (articles <> ∅)
  end.

(** What [export_route] hands to the CSV writer and what it prints: the
    number of rows, of children delivered to and of reload stops.  Creating
    the directory and writing the file are left out. *)
Record export_report : Type := {
  rows_written : list csv_row;
  rows_printed : nat;
  deliveries_printed : nat;
  refuels_printed : nat
}.

Definition export_route (route : list event) : export_report :=
  let rows := export_rows route in
  {| rows_written := rows;
     rows_printed := length rows;
     deliveries_printed := length (filter (fun s => is_delivery s = true) route);
     refuels_printed := length (filter (fun s => is_loaded_refuel s = true) route) |}.

(** ** print_statistics *)

(** The locals of the loop of [print_statistics]. *)
Record tour : Type := {
  total_distance : Q;
  current_pos : coords;
  nice_count : Z;
  naughty_count : Z;
  stop_count : Z;
  refuel_count : Z
}.

(** What [print_statistics] prints. *)
Record statistics : Type := {
  distance_printed : Q;
  stops_printed : Z;
  reloads_printed : Z;
  time_printed : Q;
  nice_printed : Z;
  naughty_printed : Z;
  limit_kept : bool
}.

Section Statistics.

Variable calculate_distance : coords -> coords -> Q.

(** Body of the loop over the route.  [df] is [self.children_df] at the
    time of the call: the merged table, since [assign_gifts] has replaced
    the children table by then. *)
Definition survey (df : list merged_row) (t : tour) (stop : event) : result tour :=
  match stop with
  | Refuel articles =>
      let distance := calculate_distance (current_pos t) NORTH_POLE in
      Ok {| total_distance := (total_distance t + distance)%Q;
            current_pos := NORTH_POLE;
            nice_count := nice_count t;
            naughty_count := naughty_count t;
            stop_count := stop_count t;
            refuel_count := if decide (articles = ∅) then refuel_count t
                            else refuel_count t + 1 |}
  | Delivery child_id =>
      row ← iloc0 (rows_with df child_id);
      let child_coords := row_coords row in
      let distance := calculate_distance (current_pos t) child_coords in
      Ok {| total_distance := (total_distance t + distance)%Q;
            current_pos := child_coords;
            nice_count := if decide (naughty (row_child row) = 0)
                          then nice_count t + 1 else nice_count t;
            naughty_count := if decide (naughty (row_child row) = 0)
                             then naughty_count t else naughty_count t + 1;
            stop_count := stop_count t + 1;
            refuel_count := refuel_count t |}
  end.

Definition tour_start : tour :=
  {| total_distance := 0%Q; current_pos := NORTH_POLE; nice_count := 0;
     naughty_count := 0; stop_count := 0; refuel_count := 0 |}.

Definition print_statistics (self : optimizer) (df : list merged_row)
    (route : list event) : result statistics :=
  t ← for_each (survey df) tour_start route;
  travel ← py_truediv (total_distance t) (speed_kmh self);
  let total_time :=
    (travel + inject_Z (stop_count t) * (time_per_stop_min self / (60 # 1)))%Q in
  Ok {| distance_printed := total_distance t;
        stops_printed := stop_count t;
        reloads_printed := refuel_count t;
        time_printed := total_time;
        nice_printed := nice_count t;
        naughty_printed := naughty_count t;
        limit_kept := Qle_bool total_time (max_time_hours self) |}.

End Statistics.

(** ** Further notions used in the statements *)

(** The keys of the sleigh specification that [__init__] reads. *)
Definition required_keys : list string :=
  ["maximum weight"; "maximum volume"; "speed (km/h)"; "time per stop (min)"]%string.

(** The row the left merge gives a child when the catalogue has at most one
    row per article. *)
Definition merged_row_of (gifts : list gift_row) (c : child_row) : merged_row :=
  {| row_child := c;
     assigned_article := assign_article c;
     row_weight := match head (gifts_with gifts (assign_article c)) with
                   | Some g => Fin (weight g) | None => NaN end;
     row_volume := match head (gifts_with gifts (assign_article c)) with
                   | Some g => Fin (volume g) | None => NaN end |}.

(** Carrying out one stop of a route with a given cargo on board: a reload
    needs an empty sleigh and puts its manifest on board, a delivery needs a
    unit of the recipient's article on board and takes it off. *)
Definition replay_stop (df : list merged_row) (cargo : gmap Z Z) (stop : event)
    : option (gmap Z Z) :=
  match stop with
  | Refuel articles => if decide (cargo = ∅) then Some articles else None
  | Delivery child_id =>
      row ← first_row df child_id;
      result_value (unload cargo (assigned_article row))
  end.

(** Carrying out a route from the depot with an empty sleigh; the result is
    the cargo left on board. *)
Definition replay (df : list merged_row) (route : list event) : option (gmap Z Z) :=
  foldl (fun cargo stop => cargo ≫= fun on_board => replay_stop df on_board stop)
    (Some ∅) route.

(** The next stop, if any, is not a reload with a manifest. *)
Definition no_loaded_refuel_next (route : list event) : bool :=
  match route with
  | stop :: _ => negb (is_loaded_refuel stop)
  | [] => true
  end.

(** Routes without a delivery to a child with id 0 and without a reload with
    a manifest directly after another one. *)
Fixpoint readable (route : list event) : bool :=
  match route with
  | [] => true
  | Delivery child_id :: rest => bool_decide (child_id <> 0) && readable rest
  | Refuel articles :: rest =>
      (bool_decide (articles = ∅) || no_loaded_refuel_next rest) && readable rest
  end.

(** What in the input makes a run raise the exception [e], in the
    idealised arithmetic. *)
Definition raise_cause (self : optimizer) (e : exn) : Prop :=
  match e with
  | ZeroDivisionError => (speed_kmh self == 0)%Q
  | IndexError =>
      exists c, c ∈ children_df self /\
        gifts_with (gifts_df self) (assign_article c) = []
  | OverflowError | ValueError =>
      exists c g, c ∈ children_df self /\
        head (gifts_with (gifts_df self) (assign_article c)) = Some g /\
        ((weight g == 0)%Q \/ (volume g == 0)%Q)
  | KeyError => False
  end.

(** One child and a sleigh with speed zero. *)
Definition stalled_sleigh : optimizer :=
  Sample.make [Sample.kid 1 (80#1) 0 0 1] [Sample.gift 1 1 1] 10 10 0 30.
(** * The same code in binary64 arithmetic

    The definitions above idealise floating-point numbers as rationals.
    Where what the code does depends on rounding or overflow, they are no
    guide: this module embeds the numeric part of [main.py] a second time,
    line for line, over Rocq's primitive binary64 floats, whose operations
    are those of the processor (round to nearest, ties to even; a quotient
    too large is an infinity).  Identifiers, manifests, route events, the
    error monad and the helpers that touch no float are shared with the
    definitions above. *)

Module Float64.

Definition float : Set := PrimFloat.float.

(** The conversion of a Python [int] to a float (round to nearest, ties to
    even), as in [max_can_load * gift['weight']]. *)
Definition of_int (z : Z) : float :=
  FloatOps.SF2Prim (SpecFloat.binary_normalize FloatOps.prec FloatOps.emax z 0 false).

(** [int(f)]: truncation toward zero; an infinity raises [OverflowError],
    NaN raises [ValueError]. *)
Definition py_int (f : float) : result Z :=
  match FloatOps.Prim2SF f with
  | SpecFloat.S754_zero _ => Ok 0
  | SpecFloat.S754_finite negative mantissa exponent =>
      let magnitude := Z.shiftl (Zpos mantissa) exponent in
      Ok (if negative then - magnitude else magnitude)
  | SpecFloat.S754_infinity _ => Raise OverflowError
  | SpecFloat.S754_nan => Raise ValueError
  end.

(** [x / y] where [y] is a NumPy scalar: the IEEE quotient, so a zero
    divisor gives an infinity or NaN (with a warning), never an exception. *)
Definition np_truediv (x y : float) : float := PrimFloat.div x y.

(** [x / y] on two Python floats. *)
Definition py_truediv (x y : float) : result float :=
  if PrimFloat.eqb y PrimFloat.zero then Raise ZeroDivisionError
  else Ok (PrimFloat.div x y).

(** [x > y]; every comparison with NaN is false. *)
Definition float_gt (x y : float) : bool := PrimFloat.ltb y x.

(** The rational a double stands for; only used on finite values. *)
Definition exact (f : float) : Q :=
  match FloatOps.Prim2SF f with
  | SpecFloat.S754_finite negative mantissa exponent =>
      let magnitude := (inject_Z (Zpos mantissa) * Qpower (2 # 1) exponent)%Q in
      if negative then (- magnitude)%Q else magnitude
  | _ => 0%Q
  end.

(** ** Tables *)

Definition coords : Type := float * float.

Record child_row : Type := {
  child : Z;
  latitude : float;
  longitude : float;
  naughty : Z;
  wish : Z
}.

Record gift_row : Type := {
  article : Z;
  weight : float;
  volume : float
}.

Record merged_row : Type := {
  row_child : child_row;
  assigned_article : Z;
  row_weight : float;
  row_volume : float
}.

Record optimizer : Type := {
  children_df : list child_row;
  gifts_df : list gift_row;
  max_weight : float;
  max_volume : float;
  speed_kmh : float;
  time_per_stop_min : float;
  max_time_hours : float
}.

Definition NORTH_POLE : coords := (of_int 90, of_int 0).

Definition gifts_with (gifts : list gift_row) (a : Z) : list gift_row :=
  filter (fun g => article g = a) gifts.

Definition rows_with (df : list merged_row) (c : Z) : list merged_row :=
  filter (fun r => child (row_child r) = c) df.

Definition assign_article (c : child_row) : Z :=
  if decide (naughty c = 0) then wish c else COAL_ARTICLE_ID.

Definition merge_left (gifts : list gift_row) (c : child_row) : list merged_row :=
  let a := assign_article c in
  match gifts_with gifts a with
  | [] => [ {| row_child := c; assigned_article := a;
               row_weight := PrimFloat.nan; row_volume := PrimFloat.nan |} ]
  | gs => map (fun g => {| row_child := c; assigned_article := a;
                           row_weight := weight g;
                           row_volume := volume g |}) gs
  end.

Definition assign_gifts (self : optimizer) : list merged_row :=
  flat_map (merge_left (gifts_df self)) (children_df self).

(** [int(child['assigned_article'])]: the row taken with [.iloc[0]] is a
    float64 series, so the id has passed through a double. *)
Definition article_of (row : merged_row) : result Z :=
  py_int (of_int (assigned_article row)).

Inductive message : Type :=
  | Undeliverable (child_id : Z)
  | TimeExceeded (total limit : float)
  | RequiredSpeed (kmh : float)
  | Success (total : float).

(** ** calculate_loading *)

Definition tally (df : list merged_row) (needed : gmap Z Z) (child_id : Z)
    : result (gmap Z Z) :=
  row ← iloc0 (rows_with df child_id);
  article_id ← article_of row;
  Ok (<[article_id := default 0 (needed !! article_id) + 1]> needed).

Record hold : Type := {
  loaded_articles : gmap Z Z;
  current_weight : float;
  current_volume : float
}.

Definition load_item (self : optimizer) (h : hold) (item : Z * Z) : result hold :=
  let '(article_id, needed_count) := item in
  gift ← iloc0 (gifts_with (gifts_df self) article_id);
  max_by_weight ←
    py_int (np_truediv (PrimFloat.sub (max_weight self) (current_weight h)) (weight gift));
  max_by_volume ←
    py_int (np_truediv (PrimFloat.sub (max_volume self) (current_volume h)) (volume gift));
  let max_can_load := Z.min (Z.min max_by_weight max_by_volume) needed_count in
  if decide (0 < max_can_load) then
    Ok {| loaded_articles := <[article_id := max_can_load]> (loaded_articles h);
          current_weight :=
            PrimFloat.add (current_weight h)
              (PrimFloat.mul (of_int max_can_load) (weight gift));
          current_volume :=
            PrimFloat.add (current_volume h)
              (PrimFloat.mul (of_int max_can_load) (volume gift)) |}
  else Ok h.

Definition calculate_loading (self : optimizer) (df : list merged_row)
    (unvisited_children : list Z) : result (gmap Z Z) :=
  needed_articles ← for_each (tally df) ∅ unvisited_children;
  h ← for_each (load_item self)
        {| loaded_articles := ∅; current_weight := PrimFloat.zero;
           current_volume := PrimFloat.zero |}
        (merge_sort item_le (map_to_list needed_articles));
  Ok (loaded_articles h).

(** ** optimize_route *)

Record state : Type := {
  route : list event;
  unvisited : list Z;
  current_position : coords;
  current_cargo : gmap Z Z;
  total_time : float;
  stdout : list message
}.

Inductive outcome : Type :=
  | Continue (st : state)
  | Break (st : state).

Section Planner.

Variable calculate_distance : coords -> coords -> float.

Definition row_coords (r : merged_row) : coords :=
  (latitude (row_child r), longitude (row_child r)).

Definition scan (df : list merged_row) (st : state)
    (best : option Z * float) (child_id : Z) : result (option Z * float) :=
  row ← iloc0 (rows_with df child_id);
  let child_coords := row_coords row in
  article_id ← article_of row;
  let distance_to_child := calculate_distance (current_position st) child_coords in
  if can_deliver (current_cargo st) article_id
     && PrimFloat.ltb distance_to_child best.2
  then Ok (Some child_id, distance_to_child)
  else Ok best.

Definition nearest (df : list merged_row) (st : state) : result (option Z) :=
  best ← for_each (scan df st) (None, PrimFloat.infinity) (unvisited st);
  Ok best.1.

Definition classify (self : optimizer) (df : list merged_row)
    (acc : list Z * list message) (child_id : Z) : result (list Z * list message) :=
  row ← iloc0 (rows_with df child_id);
  if float_gt (row_weight row) (max_weight self)
     || float_gt (row_volume row) (max_volume self)
  then Ok (acc.1 ++ [child_id], acc.2 ++ [Undeliverable child_id])
  else Ok acc.

Definition depot_return (self : optimizer) (df : list merged_row) (st : state)
    : result outcome :=
  acc ← for_each (classify self df) ([], stdout st) (unvisited st);
  let '(undeliverable, out) := acc in
  unvisited' ← for_each (fun s c => set_remove c s) (unvisited st) undeliverable;
  match unvisited' with
  | [] =>
      Ok (Break {| route := route st; unvisited := unvisited';
                   current_position := current_position st;
                   current_cargo := current_cargo st;
                   total_time := total_time st; stdout := out |})
  | _ =>
      let return_distance := calculate_distance (current_position st) NORTH_POLE in
      leg ← py_truediv return_distance (speed_kmh self);
      articles_to_load ← calculate_loading self df unvisited';
      Ok (Continue {| route := route st ++ [Refuel articles_to_load];
                      unvisited := unvisited';
                      current_position := NORTH_POLE;
                      current_cargo := articles_to_load;
                      total_time := PrimFloat.add (total_time st) leg;
                      stdout := out |})
  end.

Definition deliver (self : optimizer) (df : list merged_row) (st : state)
    (best_child : Z) : result outcome :=
  row ← iloc0 (rows_with df best_child);
  let child_coords := row_coords row in
  article_id ← article_of row;
  unvisited' ← set_remove best_child (unvisited st);
  cargo' ← unload (current_cargo st) article_id;
  let travel_distance := calculate_distance (current_position st) child_coords in
  leg ← py_truediv travel_distance (speed_kmh self);
  Ok (Continue {| route := route st ++ [Delivery best_child];
                  unvisited := unvisited';
                  current_position := child_coords;
                  current_cargo := cargo';
                  total_time :=
                    PrimFloat.add (PrimFloat.add (total_time st) leg)
                      (PrimFloat.div (time_per_stop_min self) (of_int 60));
                  stdout := stdout st |}).

Definition loop_body (self : optimizer) (df : list merged_row) (st : state)
    : result outcome :=
  best_child ← nearest df st;
  match best_child with
  | None => depot_return self df st
  | Some c => deliver self df st c
  end.

Fixpoint while_unvisited (self : optimizer) (df : list merged_row)
    (fuel : nat) (st : state) : option (result state) :=
  match unvisited st with
  | [] => Some (Ok st)
  | _ =>
      match fuel with
      | O => None
      | S fuel' =>
          match loop_body self df st with
          | Raise e => Some (Raise e)
          | Ok (Break st') => Some (Ok st')
          | Ok (Continue st') => while_unvisited self df fuel' st'
          end
      end
  end.

(** The code after the loop; the quotient by the budget is only taken for
    the advisory. *)
Definition finish (self : optimizer) (st : state) : result state :=
  let final_return_distance := calculate_distance (current_position st) NORTH_POLE in
  leg ← py_truediv final_return_distance (speed_kmh self);
  let total := PrimFloat.add (total_time st) leg in
  lines ←
    (if float_gt total (max_time_hours self)
     then
       ratio ← py_truediv total (max_time_hours self);
       Ok [TimeExceeded total (max_time_hours self);
           RequiredSpeed (PrimFloat.mul ratio (speed_kmh self))]
     else Ok [Success total]);
  Ok {| route := route st ++ [Refuel ∅]; unvisited := unvisited st;
        current_position := current_position st;
        current_cargo := current_cargo st;
        total_time := total; stdout := stdout st ++ lines |}.

Variable set_order : list Z -> list Z.

Definition initial_state (df : list merged_row) : state :=
  {| route := []; unvisited := set_order (map (fun r => child (row_child r)) df);
     current_position := NORTH_POLE; current_cargo := ∅;
     total_time := PrimFloat.zero; stdout := [] |}.

Definition optimize_route (self : optimizer) (fuel : nat) : option (result state) :=
  let df := assign_gifts self in
  match while_unvisited self df fuel (initial_state df) with
  | None => None
  | Some (Raise e) => Some (Raise e)
  | Some (Ok st) => Some (finish self st)
  end.

End Planner.

(** ** Concrete inputs *)

(** The quotient of two integers as doubles; for a cell with one decimal
    place, such as [1,7], this is the double the cell is read as. *)
Definition decimal (n : Z) (places : Z) : float :=
  PrimFloat.div (of_int n) (of_int (10 ^ places)).

Definition taxicab (p q : coords) : float :=
  PrimFloat.add (PrimFloat.abs (PrimFloat.sub p.1 q.1))
    (PrimFloat.abs (PrimFloat.sub p.2 q.2)).

Definition kid (c lat : Z) (n w : Z) : child_row :=
  {| child := c; latitude := of_int lat; longitude := of_int 0;
     naughty := n; wish := w |}.

Definition gift (a : Z) (w v : float) : gift_row :=
  {| article := a; weight := w; volume := v |}.

Definition make (children : list child_row) (gifts : list gift_row)
    (mw mv : float) : optimizer :=
  {| children_df := children; gifts_df := gifts;
     max_weight := mw; max_volume := mv; speed_kmh := of_int 100;
     time_per_stop_min := of_int 30; max_time_hours := of_int 7 |}.

(** Two nice children; articles of 0.6 kg and 1.1 kg, a sleigh for 1.7 kg. *)
Definition tight_fit : optimizer :=
  make [kid 1 80 0 1; kid 2 70 0 2]
       [gift 1 (decimal 6 1) (of_int 1); gift 2 (decimal 11 1) (of_int 1)]
       (decimal 17 1) (of_int 10).

(** Four nice children, three of them wishing for article 1; both articles
    weigh 0.1 kg, the sleigh carries 0.4 kg. *)
Definition tenths : optimizer :=
  make [kid 1 80 0 1; kid 2 70 0 1; kid 3 60 0 1; kid 4 50 0 2]
       [gift 1 (decimal 1 1) (of_int 1); gift 2 (decimal 1 1) (of_int 1)]
       (decimal 4 1) (of_int 10).

(** One nice child; an article of [2^-1000] kg, a sleigh for [2^1000] kg. *)
Definition featherweight : optimizer :=
  make [kid 1 80 0 1]
       [gift 1 (PrimFloat.div (of_int 1) (of_int (2 ^ 1000))) (of_int 1)]
       (of_int (2 ^ 1000)) (of_int 10).

Definition run (self : optimizer) : option (result state) :=
  optimize_route taxicab remove_dups self 40.

Definition returned (self : optimizer) : option state :=
  r ← run self; result_value r.

End Float64.

(** ** The same tables with every double replaced by the rational it
    stands for

    The dictionary of the sleigh specification, which the loader and the
    planner do not read, is left empty. *)

Definition exact_child (c : Float64.child_row) : child_row :=
  {| child := Float64.child c; latitude := Float64.exact (Float64.latitude c);
     longitude := Float64.exact (Float64.longitude c); naughty := Float64.naughty c;
     wish := Float64.wish c |}.

Definition exact_gift (g : Float64.gift_row) : gift_row :=
  {| article := Float64.article g; weight := Float64.exact (Float64.weight g);
     volume := Float64.exact (Float64.volume g) |}.

Definition exact_optimizer (self : Float64.optimizer) : optimizer :=
  {| children_df := exact_child <$> Float64.children_df self;
     gifts_df := exact_gift <$> Float64.gifts_df self;
     sleigh_specs := ∅;
     max_weight := Float64.exact (Float64.max_weight self);
     max_volume := Float64.exact (Float64.max_volume self);
     speed_kmh := Float64.exact (Float64.speed_kmh self);
     time_per_stop_min := Float64.exact (Float64.time_per_stop_min self);
     max_time_hours := Float64.exact (Float64.max_time_hours self) |}.

(** * Properties *)

(** ** The error monad and [for_each] *)

Lemma bind_Ok {A B} (m : result A) (f : A -> result B) b :
  (x ← m; f x) = Ok b -> exists a, m = Ok a /\ f a = Ok b.
Proof. destruct m as [a|e]; simpl; [eauto | discriminate]. Qed.

Ltac inv_bind H :=
  let x := fresh "x" in
  let Hx := fresh "Hx" in
  apply bind_Ok in H; destruct H as (x & Hx & H).

(** A property of the accumulator indexed by the part of the list already
    processed is carried through the loop. *)
Lemma for_each_ind {A St} (body : St -> A -> result St)
    (P : list A -> St -> Prop) l :
  (forall pre x s s', P pre s -> x ∈ l -> body s x = Ok s' -> P (pre ++ [x]) s') ->
  forall pre s s', P pre s -> for_each body s l = Ok s' -> P (pre ++ l) s'.
Proof.
  induction l as [|x l IH]; intros Hstep pre s s' HP Hrun; simpl in Hrun.
  - rewrite app_nil_r. congruence.
  - inv_bind Hrun. rewrite cons_middle, app_assoc.
    eapply IH; [| |exact Hrun].
    + intros pre' y t t' HP' Hy. apply Hstep; [done | by right].
    + eapply Hstep; [done | by left | done].
Qed.

(** A loop whose body cannot raise on the elements of the list returns. *)
Lemma for_each_returns {A St} (body : St -> A -> result St) (P : St -> Prop) l :
  (forall x s, x ∈ l -> P s -> exists s', body s x = Ok s' /\ P s') ->
  forall s, P s -> exists s', for_each body s l = Ok s' /\ P s'.
Proof.
  induction l as [|x l IH]; intros Hstep s HP; simpl; [eauto|].
  destruct (Hstep x s) as (s1 & -> & HP1); [by left | done |]. simpl.
  apply IH; [|done]. intros y t Hy. apply Hstep. by right.
Qed.

(** The body returned on every element of a loop that returned. *)
Lemma for_each_Ok_elem {A St} (body : St -> A -> result St) l : forall s s' x,
  for_each body s l = Ok s' -> x ∈ l -> exists s0 s1, body s0 x = Ok s1.
Proof.
  induction l as [|y l IH]; intros s s' x H Hx; [by apply not_elem_of_nil in Hx|].
  simpl in H. inv_bind H. apply elem_of_cons in Hx as [->|Hx]; [eauto|].
  by eapply IH.
Qed.

(** ** Arithmetic of the idealised floats *)

Lemma Qle_bool_false x y : Qle_bool x y = false <-> (y < x)%Q.
Proof.
  split.
  - intros H. apply Qnot_le_lt. intros Hle. apply Qle_bool_iff in Hle. congruence.
  - intros H. destruct (Qle_bool x y) eqn:E; [|done].
    apply Qle_bool_iff in E. lra.
Qed.

Lemma float_gt_Fin x q : float_gt (Fin x) q = true <-> (q < x)%Q.
Proof. simpl. rewrite negb_true_iff. apply Qle_bool_false. Qed.

Lemma float_lt_Fin d x : float_lt d (Fin x) = true <-> (d < x)%Q.
Proof. simpl. rewrite negb_true_iff. apply Qle_bool_false. Qed.

Lemma py_truediv_returns x y : ~ (y == 0)%Q -> py_truediv x y = Ok (x / y)%Q.
Proof.
  intros Hy. unfold py_truediv. destruct (Qeq_bool y 0) eqn:E; [|done].
  apply Qeq_bool_iff in E. contradiction.
Qed.

Lemma Qtrunc_nonneg n d : 0 <= n -> Qtrunc (n # d) = Qfloor (n # d).
Proof. intros Hn. unfold Qtrunc; simpl. apply Z.quot_div_nonneg; lia. Qed.

Lemma Qtrunc_neg n d : n < 0 -> Qtrunc (n # d) <= 0 /\ Qfloor (n # d) < 0.
Proof.
  intros Hn. unfold Qtrunc; simpl. split.
  - replace n with (- (- n)) by lia. rewrite Z.quot_opp_l by lia.
    pose proof (Z.quot_pos (- n) (Z.pos d)). lia.
  - apply Z.div_lt_upper_bound; lia.
Qed.

(** [int] and [floor] agree wherever the loader can tell them apart. *)
Lemma Qtrunc_floor_pos q : 0 < Qtrunc q \/ 0 < Qfloor q -> Qtrunc q = Qfloor q.
Proof.
  destruct q as [n d]. intros H. destruct (Z_lt_le_dec n 0) as [Hn|Hn].
  - pose proof (Qtrunc_neg n d Hn). lia.
  - by apply Qtrunc_nonneg.
Qed.

Lemma units_min_floor a b n :
  let t := Z.min (Z.min (Qtrunc a) (Qtrunc b)) n in
  let f := Z.min (Z.min (Qfloor a) (Qfloor b)) n in
  (0 < t <-> 0 < f) /\ (0 < t -> t = f).
Proof.
  simpl.
  assert (Ha := Qtrunc_floor_pos a). assert (Hb := Qtrunc_floor_pos b).
  lia.
Qed.

Lemma Qtrunc_le q : (0 <= q)%Q -> (inject_Z (Qtrunc q) <= q)%Q.
Proof.
  intros Hq. destruct q as [n d].
  rewrite Qtrunc_nonneg; [apply Qfloor_le|].
  unfold Qle in Hq; simpl in Hq. lia.
Qed.

Lemma Qtrunc_ge_1 q : (1 <= q)%Q -> 1 <= Qtrunc q.
Proof.
  intros Hq. destruct q as [n d].
  assert (0 <= n) by (unfold Qle in Hq; simpl in Hq; lia).
  rewrite Qtrunc_nonneg by done.
  change 1 with (Qfloor 1). by apply Qfloor_resp_le.
Qed.

Lemma Qtrunc_pos_inv q : 0 < Qtrunc q -> (1 <= q)%Q.
Proof.
  intros H. rewrite Qtrunc_floor_pos in H by auto.
  pose proof (Qfloor_le q) as Hle.
  assert (inject_Z 1 <= inject_Z (Qfloor q))%Q as H1.
  { rewrite <- Zle_Qle. lia. }
  change (inject_Z 1) with 1%Q in H1. lra.
Qed.

(** ** The constructor *)

Lemma dict_get_Ok {K V} `{Countable K} (d : gmap K V) k v :
  dict_get d k = Ok v <-> d !! k = Some v.
Proof. unfold dict_get. destruct (d !! k); split; congruence. Qed.

(** ** Table lookups and set removal *)

Lemma iloc0_Ok {A} (rows : list A) r : iloc0 rows = Ok r <-> head rows = Some r.
Proof. destruct rows; simpl; split; congruence. Qed.

Lemma first_row_is_Some df c :
  is_Some (first_row df c) <-> c ∈ map (fun r => child (row_child r)) df.
Proof.
  unfold first_row, rows_with. split.
  - intros [row H]. apply head_Some_elem_of, list_elem_of_filter in H as [<- ?].
    apply list_elem_of_fmap. eauto.
  - intros H. apply list_elem_of_fmap in H as (row & -> & Hrow).
    destruct (filter _ df) as [|r l] eqn:E; [|by eexists].
    assert (row ∈ filter (fun r => child (row_child r) = child (row_child row)) df) as Hin
      by (by apply list_elem_of_filter).
    rewrite E in Hin. by apply not_elem_of_nil in Hin.
Qed.

Lemma filter_ext_in {A} (P1 P2 : A -> Prop)
    `{!forall x, Decision (P1 x), !forall x, Decision (P2 x)} (l : list A) :
  (forall x, x ∈ l -> P1 x <-> P2 x) -> filter P1 l = filter P2 l.
Proof.
  induction l as [|x l IH]; intros Hext; [done|].
  rewrite !filter_cons. rewrite IH by (intros y Hy; apply Hext; by right).
  destruct (decide (P1 x)) as [H1|H1], (decide (P2 x)) as [H2|H2]; try done.
  - destruct H2. apply Hext; [by left | done].
  - destruct H1. apply Hext; [by left | done].
Qed.

Lemma set_remove_Ok x s s' :
  set_remove x s = Ok s' <-> x ∈ s /\ s' = filter (fun y => y ≠ x) s.
Proof.
  unfold set_remove. case_decide as Hin; split.
  - by intros [= <-].
  - by intros [_ ->].
  - discriminate.
  - by intros [? _].
Qed.

Lemma remove_all_Ok und : forall u u',
  for_each (fun s c => set_remove c s) u und = Ok u' ->
  u' = filter (fun y => y ∉ und) u.
Proof.
  induction und as [|c und IH]; intros u u' H; simpl in H.
  - injection H as <-. clear. induction u as [|y u IH]; [done|].
    rewrite filter_cons_True by apply not_elem_of_nil. by f_equal.
  - inv_bind H. apply set_remove_Ok in Hx as [_ ->].
    apply IH in H as ->. rewrite list_filter_filter.
    apply list_filter_iff. intros y. rewrite not_elem_of_cons. tauto.
Qed.

Lemma remove_all_returns und : forall u,
  NoDup und -> und ⊆ u ->
  exists u', for_each (fun s c => set_remove c s) u und = Ok u'.
Proof.
  induction und as [|c und IH]; intros u Hnd Hsub; simpl; [eauto|].
  apply NoDup_cons in Hnd as [Hc Hnd].
  destruct (set_remove c u) as [u1|e] eqn:E.
  - simpl. apply IH; [done|]. apply set_remove_Ok in E as [_ ->].
    intros y Hy. apply list_elem_of_filter. split; [|apply Hsub; by right].
    intros ->. done.
  - unfold set_remove in E. case_decide as Hin; [done|].
    destruct Hin. apply Hsub. by left.
Qed.

(** ** One iteration, case by case *)

Section Steps.

Variable calculate_distance : coords -> coords -> Q.
Variable self : optimizer.
Variable df : list merged_row.

(** The classification loop prints one line per recipient that is too big,
    in enumeration order, and collects these recipients. *)
Lemma classify_Ok u out und out' :
  for_each (classify self df) ([], out) u = Ok (und, out') ->
  und = filter (fun c => is_too_big self df c = true) u /\
  out' = out ++ map Undeliverable und /\
  forall c, c ∈ u -> is_Some (first_row df c).
Proof.
  intros H.
  pose (P := fun (pre : list Z) (acc : list Z * list message) =>
    acc.1 = filter (fun c => is_too_big self df c = true) pre /\
    acc.2 = out ++ map Undeliverable acc.1 /\
    forall c, c ∈ pre -> is_Some (first_row df c)).
  enough (P ([] ++ u) (und, out')) as (? & ? & ?) by done.
  eapply (for_each_ind _ P); [| |exact H].
  - intros pre x acc acc' (Hund & Hout & Hrows) _ Hstep.
    unfold classify in Hstep. inv_bind Hstep. rename x0 into row.
    apply iloc0_Ok in Hx.
    assert (is_too_big self df x = too_big self row) as Hbig.
    { unfold is_too_big, first_row. by rewrite Hx. }
    unfold P. rewrite filter_app.
    assert (forall c, c ∈ pre ++ [x] -> is_Some (first_row df c)) as Hrows'.
    { intros c [Hc|Hc]%elem_of_app; [by apply Hrows|].
      apply list_elem_of_singleton in Hc as ->. by exists row. }
    fold (too_big self row) in Hstep. destruct (too_big self row) eqn:E.
    + injection Hstep as <-. simpl.
      rewrite filter_cons_True, filter_nil by (by rewrite Hbig).
      rewrite Hund in *. rewrite Hout, map_app, app_assoc. done.
    + injection Hstep as <-.
      rewrite filter_cons_False, filter_nil, app_nil_r by (by rewrite Hbig).
      done.
  - unfold P. simpl. rewrite app_nil_r. split_and!; [done..|].
    intros c Hc. by apply not_elem_of_nil in Hc.
Qed.

Lemma classify_returns u out :
  (forall c, c ∈ u -> is_Some (first_row df c)) ->
  exists acc, for_each (classify self df) ([], out) u = Ok acc.
Proof.
  intros Hrows.
  destruct (for_each_returns (classify self df) (fun _ => True) u) with (s := ([] : list Z, out))
    as (acc & Hacc & _); [|done|by exists acc].
  intros x acc Hx _. destruct (Hrows x Hx) as [row Hrow].
  unfold classify. unfold first_row in Hrow.
  apply iloc0_Ok in Hrow. rewrite Hrow. simpl.
  destruct (_ || _); eauto.
Qed.

Lemma kept_alt u :
  filter (fun y => y ∉ filter (fun c => is_too_big self df c = true) u) u
  = kept self df u.
Proof.
  apply filter_ext_in. intros y Hy. rewrite list_elem_of_filter. tauto.
Qed.

(** The branch taken when nothing on board can be delivered. *)
Lemma depot_return_Ok st o :
  depot_return calculate_distance self df st = Ok o ->
  let u' := kept self df (unvisited st) in
  let out := stdout st ++
    map Undeliverable (filter (fun c => is_too_big self df c = true) (unvisited st)) in
  (forall c, c ∈ unvisited st -> is_Some (first_row df c)) /\
  ((u' = [] /\
    o = Break {| route := route st; unvisited := []; 
                 current_position := current_position st;
                 current_cargo := current_cargo st;
                 total_time := total_time st; stdout := out |}) \/
   (u' <> [] /\ exists leg m,
      py_truediv (calculate_distance (current_position st) NORTH_POLE) (speed_kmh self) = Ok leg /\
      calculate_loading self df u' = Ok m /\
      o = Continue {| route := route st ++ [Refuel m]; unvisited := u';
                      current_position := NORTH_POLE; current_cargo := m;
                      total_time := (total_time st + leg)%Q; stdout := out |})).
Proof.
  unfold depot_return. intros H. inv_bind H. destruct x as [und out'].
  apply classify_Ok in Hx as (-> & -> & Hrows).
  inv_bind H. apply remove_all_Ok in Hx. rewrite kept_alt in Hx. subst x.
  simpl. split; [done|].
  destruct (kept self df (unvisited st)) as [|c u'] eqn:E.
  - left. split; [done|]. by injection H as <-.
  - right. split; [done|]. inv_bind H. rename x into leg.
    inv_bind H. rename x into m. injection H as <-.
    exists leg, m. done.
Qed.

(** The nearest-neighbour scan. *)
Lemma scan_Ok st pre best x best' :
  scan calculate_distance df st best x = Ok best' ->
  match best.1 with
  | None => best.2 = PInf /\ forall c, c ∈ pre -> ~ deliverable df st c
  | Some c => best.2 = Fin (distance_to calculate_distance df st c) /\
              first_nearest calculate_distance df st pre c
  end ->
  is_Some (first_row df x) /\
  match best'.1 with
  | None => best'.2 = PInf /\ forall c, c ∈ pre ++ [x] -> ~ deliverable df st c
  | Some c => best'.2 = Fin (distance_to calculate_distance df st c) /\
              first_nearest calculate_distance df st (pre ++ [x]) c
  end.
Proof.
  unfold scan. intros H Hinv. inv_bind H. rename x0 into row.
  apply iloc0_Ok in Hx. fold (first_row df x) in Hx.
  split; [by exists row|].
  assert (distance_to calculate_distance df st x
          = calculate_distance (current_position st) (row_coords row)) as Hd.
  { unfold distance_to. by rewrite Hx. }
  rewrite <- Hd in H.
  assert (deliverable df st x <->
          can_deliver (current_cargo st) (assigned_article row) = true) as Hdel.
  { unfold deliverable. split; [|by exists row].
    intros (row' & Hrow' & Hcan). congruence. }
  assert (forall j c', (pre ++ [x]) !! j = Some c' ->
            (j < length pre)%nat /\ pre !! j = Some c' \/ j = length pre /\ c' = x)
    as Hsplit.
  { intros j c' Hj. destruct (decide (j < length pre)%nat) as [Hlt|Hge].
    - left. by rewrite lookup_app_l in Hj.
    - right. rewrite lookup_app_r in Hj by lia.
      apply list_lookup_singleton_Some in Hj as [? <-]. split; [lia|done]. }
  assert (forall i c, pre !! i = Some c -> (pre ++ [x]) !! i = Some c) as Hpre.
  { intros i c Hi. rewrite lookup_app_l; [done|]. by eapply lookup_lt_Some. }
  destruct best as [[c|] f]; simpl in Hinv; destruct Hinv as [-> Hinv].
  - destruct Hinv as (i & Hi & Hc & Hmin).
    destruct (can_deliver _ _ && float_lt _ _) eqn:E; injection H as <-; simpl.
    + apply andb_true_iff in E as [Hcan Hlt]. simpl in Hlt.
      apply float_lt_Fin in Hlt. split; [done|].
      exists (length pre). split; [by rewrite lookup_app_r, Nat.sub_diag by lia|].
      split; [by apply Hdel|].
      intros j c' Hj Hc'. apply Hsplit in Hj as [[Hlt' Hj]|[-> ->]].
      * destruct (Hmin j c' Hj Hc') as [Hle _]. split; [|intros _]; lra.
      * split; [lra | lia].
    + split; [done|]. exists i. split; [by apply Hpre|]. split; [done|].
      intros j c' Hj Hc'. apply Hsplit in Hj as [[Hlt' Hj]|[-> ->]].
      * by apply Hmin.
      * apply Hdel in Hc'. rewrite Hc' in E. simpl in E.
        apply negb_false_iff, Qle_bool_iff in E.
        apply lookup_lt_Some in Hi. split; [done | lia].
  - destruct (can_deliver _ _ && float_lt _ _) eqn:E; injection H as <-; simpl.
    + apply andb_true_iff in E as [Hcan _]. split; [done|].
      exists (length pre). split; [by rewrite lookup_app_r, Nat.sub_diag by lia|].
      split; [by apply Hdel|].
      intros j c' Hj Hc'. apply Hsplit in Hj as [[Hlt' Hj]|[-> ->]].
      * destruct (Hinv c'); [by eapply list_elem_of_lookup_2 | done].
      * split; [lra | lia].
    + split; [done|]. intros c [Hc| ->%list_elem_of_singleton]%elem_of_app.
      * by apply Hinv.
      * rewrite Hdel. simpl in E. rewrite andb_true_r in E. congruence.
Qed.

Lemma nearest_Ok st best_child :
  nearest calculate_distance df st = Ok best_child ->
  (forall c, c ∈ unvisited st -> is_Some (first_row df c)) /\
  match best_child with
  | None => forall c, c ∈ unvisited st -> ~ deliverable df st c
  | Some c => first_nearest calculate_distance df st (unvisited st) c
  end.
Proof.
  unfold nearest. intros H. inv_bind H. rename x into best. injection H as <-.
  pose (P := fun (pre : list Z) (b : option Z * pyfloat) =>
    (forall c, c ∈ pre -> is_Some (first_row df c)) /\
    match b.1 with
    | None => b.2 = PInf /\ forall c, c ∈ pre -> ~ deliverable df st c
    | Some c => b.2 = Fin (distance_to calculate_distance df st c) /\
                first_nearest calculate_distance df st pre c
    end).
  assert (P ([] ++ unvisited st) best) as [Hrows Hbest].
  { eapply (for_each_ind _ P); [| |exact Hx].
    - intros pre x b b' [Hrows Hb] _ Hstep.
      destruct (scan_Ok st pre b x b' Hstep Hb) as [Hrow Hb'].
      split; [|done].
      intros c [Hc| ->%list_elem_of_singleton]%elem_of_app; [by apply Hrows | done].
    - split; simpl; [|split; [done|]]; intros c Hc; by apply not_elem_of_nil in Hc. }
  simpl in Hrows, Hbest. split; [done|].
  destruct best as [[c|] f]; simpl in *; tauto.
Qed.

Lemma nearest_returns st :
  (forall c, c ∈ unvisited st -> is_Some (first_row df c)) ->
  exists best_child, nearest calculate_distance df st = Ok best_child.
Proof.
  intros Hrows. unfold nearest.
  destruct (for_each_returns (scan calculate_distance df st) (fun _ => True)
              (unvisited st)) with (s := (None : option Z, PInf))
    as (best & -> & _); [|done|by eexists].
  intros x b Hx _. destruct (Hrows x Hx) as [row Hrow].
  unfold scan. unfold first_row in Hrow. apply iloc0_Ok in Hrow. rewrite Hrow.
  simpl. destruct (_ && _); eauto.
Qed.

Lemma unload_Ok cargo a cargo' :
  unload cargo a = Ok cargo' <->
  exists n, cargo !! a = Some n /\
    cargo' = if decide (n - 1 = 0) then delete a cargo else <[a := n - 1]> cargo.
Proof.
  unfold unload, dict_get. destruct (cargo !! a) as [n|]; simpl.
  - split.
    + intros H. exists n. split; [done|]. by case_decide; injection H as <-.
    + intros (n' & [= <-] & ->). by case_decide.
  - split; [discriminate | by intros (? & ? & _)].
Qed.

(** The branch taken when a recipient has been selected. *)
Lemma deliver_Ok st c o :
  deliver calculate_distance self df st c = Ok o <->
  exists row cargo' leg,
    first_row df c = Some row /\ c ∈ unvisited st /\
    unload (current_cargo st) (assigned_article row) = Ok cargo' /\
    py_truediv (calculate_distance (current_position st) (row_coords row))
      (speed_kmh self) = Ok leg /\
    o = Continue {| route := route st ++ [Delivery c];
                    unvisited := filter (fun y => y ≠ c) (unvisited st);
                    current_position := row_coords row;
                    current_cargo := cargo';
                    total_time := (total_time st + leg
                                   + time_per_stop_min self / (60 # 1))%Q;
                    stdout := stdout st |}.
Proof.
  unfold deliver. split.
  - intros H. inv_bind H. rename x into row. apply iloc0_Ok in Hx.
    inv_bind H. apply set_remove_Ok in Hx0 as [Hc ->].
    inv_bind H. rename x into cargo'. inv_bind H. rename x into leg.
    injection H as <-. by exists row, cargo', leg.
  - intros (row & cargo' & leg & Hrow & Hc & Hun & Hleg & ->).
    unfold first_row in Hrow. apply iloc0_Ok in Hrow. rewrite Hrow. simpl.
    unfold set_remove. rewrite decide_True by done. simpl.
    rewrite Hun. simpl. rewrite Hleg. done.
Qed.

Lemma loop_body_Continue st st' :
  loop_body calculate_distance self df st = Ok (Continue st') ->
  (exists c row cargo' leg,
     first_nearest calculate_distance df st (unvisited st) c /\
     first_row df c = Some row /\ c ∈ unvisited st /\
     unload (current_cargo st) (assigned_article row) = Ok cargo' /\
     st' = {| route := route st ++ [Delivery c];
              unvisited := filter (fun y => y ≠ c) (unvisited st);
              current_position := row_coords row;
              current_cargo := cargo';
              total_time := (total_time st + leg
                             + time_per_stop_min self / (60 # 1))%Q;
              stdout := stdout st |}) \/
  ((forall c, c ∈ unvisited st -> ~ deliverable df st c) /\
   kept self df (unvisited st) <> [] /\
   exists leg m,
     calculate_loading self df (kept self df (unvisited st)) = Ok m /\
     st' = {| route := route st ++ [Refuel m];
              unvisited := kept self df (unvisited st);
              current_position := NORTH_POLE; current_cargo := m;
              total_time := (total_time st + leg)%Q;
              stdout := stdout st ++ map Undeliverable
                (filter (fun c => is_too_big self df c = true) (unvisited st)) |}).
Proof.
  unfold loop_body. intros H. inv_bind H. rename x into best.
  apply nearest_Ok in Hx as [_ Hbest]. destruct best as [c|].
  - left. apply deliver_Ok in H
      as (row & cargo' & leg & Hrow & Hc & Hun & _ & [= ->]).
    by exists c, row, cargo', leg.
  - right. apply depot_return_Ok in H as [_ [[_ [=]]|(Hne & leg & m & _ & Hm & [= ->])]].
    split; [done|]. split; [done|]. by exists leg, m.
Qed.

Lemma loop_body_Break st st' :
  loop_body calculate_distance self df st = Ok (Break st') ->
  (forall c, c ∈ unvisited st -> ~ deliverable df st c) /\
  kept self df (unvisited st) = [] /\
  st' = {| route := route st; unvisited := [];
           current_position := current_position st;
           current_cargo := current_cargo st;
           total_time := total_time st;
           stdout := stdout st ++ map Undeliverable
             (filter (fun c => is_too_big self df c = true) (unvisited st)) |}.
Proof.
  unfold loop_body. intros H. inv_bind H. rename x into best.
  apply nearest_Ok in Hx as [_ Hbest]. destruct best as [c|].
  - by apply deliver_Ok in H as (? & ? & ? & _ & _ & _ & _ & [=]).
  - apply depot_return_Ok in H as [_ [[He [= ->]]|(_ & ? & ? & _ & _ & [=])]].
    done.
Qed.

Lemma finish_Ok st final :
  finish calculate_distance self st = Ok final ->
  exists leg,
    py_truediv (calculate_distance (current_position st) NORTH_POLE)
      (speed_kmh self) = Ok leg /\
    route final = route st ++ [Refuel ∅] /\
    unvisited final = unvisited st /\
    current_cargo final = current_cargo st /\
    total_time final = (total_time st + leg)%Q /\
    stdout final = stdout st ++
      if float_gt (Fin (total_time final)) (max_time_hours self)
      then [TimeExceeded (total_time final) (max_time_hours self);
            RequiredSpeed (total_time final / max_time_hours self * speed_kmh self)%Q]
      else [Success (total_time final)].
Proof.
  unfold finish. intros H. inv_bind H. rename x into leg.
  injection H as <-. exists leg. simpl. done.
Qed.

End Steps.

(** ** Runs *)

Section Runs.

Variable calculate_distance : coords -> coords -> Q.
Variable set_order : list Z -> list Z.
Variable self : optimizer.

Lemma while_unvisited_exit fuel : forall st st',
  in_loop calculate_distance set_order self st ->
  while_unvisited calculate_distance self (assign_gifts self) fuel st = Some (Ok st') ->
  loop_exit calculate_distance set_order self st'.
Proof.
  induction fuel as [|fuel IH]; intros st st' Hin H; simpl in H.
  - destruct (unvisited st) eqn:E; [|done]. injection H as <-.
    by apply exit_condition.
  - destruct (unvisited st) as [|c u] eqn:E.
    { injection H as <-. by apply exit_condition. }
    assert (unvisited st <> []) as Hne by (by rewrite E).
    destruct (loop_body _ _ _ st) as [[st1|st1]|e] eqn:Hbody.
    + eapply IH; [|exact H]. by eapply loop_continue.
    + injection H as <-. by eapply exit_break.
    + discriminate.
Qed.

(** A run that returns went through the loop to an exit and then through
    the code after the loop. *)
Lemma optimize_route_Ok fuel final :
  optimize_route calculate_distance set_order self fuel = Some (Ok final) ->
  exists st,
    while_unvisited calculate_distance self (assign_gifts self) fuel
      (initial_state set_order (assign_gifts self)) = Some (Ok st) /\
    loop_exit calculate_distance set_order self st /\
    finish calculate_distance self st = Ok final.
Proof.
  unfold optimize_route. intros H.
  destruct (while_unvisited _ _ _ _ _) as [[st|e]|] eqn:Hloop; [|done..].
  exists st. split; [done|]. split; [|congruence].
  eapply while_unvisited_exit; [apply loop_start | exact Hloop].
Qed.

Lemma while_unvisited_step fuel st :
  unvisited st <> [] ->
  while_unvisited calculate_distance self (assign_gifts self) (S fuel) st
  = match loop_body calculate_distance self (assign_gifts self) st with
    | Raise e => Some (Raise e)
    | Ok (Break st') => Some (Ok st')
    | Ok (Continue st') =>
        while_unvisited calculate_distance self (assign_gifts self) fuel st'
    end.
Proof. intros Hne. simpl. by destruct (unvisited st). Qed.

(** More fuel does not change the result of a run that has one. *)
Lemma while_unvisited_more_fuel fuel : forall fuel' st r,
  (fuel <= fuel')%nat ->
  while_unvisited calculate_distance self (assign_gifts self) fuel st = Some r ->
  while_unvisited calculate_distance self (assign_gifts self) fuel' st = Some r.
Proof.
  induction fuel as [|fuel IH]; intros fuel' st r Hle H; simpl in H.
  - destruct (unvisited st) eqn:E; [|done].
    destruct fuel'; simpl; by rewrite E.
  - destruct fuel' as [|fuel']; [lia|]. simpl.
    destruct (unvisited st) eqn:E; [done|].
    destruct (loop_body _ _ _ st) as [[st1|st1]|e]; [|done..].
    apply IH; [lia | done].
Qed.

(** *** Deliveries *)

Lemma deliveries_app r1 r2 : deliveries (r1 ++ r2) = deliveries r1 ++ deliveries r2.
Proof. unfold deliveries. apply omap_app. Qed.

Lemma deliveries_once_in_loop st :
  in_loop calculate_distance set_order self st ->
  NoDup (deliveries (route st)) /\
  forall c, c ∈ deliveries (route st) -> c ∉ unvisited st.
Proof.
  induction 1 as [|st st' Hin [IHnd IHun] Hne Hbody].
  - simpl. split; [constructor|]. intros c Hc. by apply not_elem_of_nil in Hc.
  - apply loop_body_Continue in Hbody
      as [(c & row & cargo' & leg & _ & _ & Hc & _ & ->)
         |(_ & _ & leg & m & _ & ->)]; simpl.
    + rewrite deliveries_app. simpl. split.
      * apply NoDup_app. split; [done|]. split; [|apply NoDup_singleton].
        intros y Hy ->%list_elem_of_singleton. by apply (IHun c).
      * intros y [Hy| ->%list_elem_of_singleton]%elem_of_app
          [Hneq Hin']%list_elem_of_filter; [by apply (IHun y) | done].
    + rewrite deliveries_app. simpl. rewrite app_nil_r. split; [done|].
      intros y Hy [_ Hin']%list_elem_of_filter. by apply (IHun y).
Qed.

Lemma deliveries_once_at_exit st :
  loop_exit calculate_distance set_order self st ->
  NoDup (deliveries (route st)).
Proof.
  intros [st0 Hin _|st0 st' Hin _ Hbody].
  - by apply deliveries_once_in_loop.
  - apply loop_body_Break in Hbody as (_ & _ & ->). simpl.
    by apply deliveries_once_in_loop.
Qed.

(** *** Printed lines *)

Lemma stdout_in_loop st :
  in_loop calculate_distance set_order self st ->
  forall msg, msg ∈ stdout st -> exists c, msg = Undeliverable c.
Proof.
  induction 1 as [|st st' Hin IH Hne Hbody]; intros msg Hmsg.
  - by apply not_elem_of_nil in Hmsg.
  - apply loop_body_Continue in Hbody
      as [(c & row & cargo' & leg & _ & _ & Hc & _ & ->)
         |(_ & _ & leg & m & _ & ->)]; simpl in Hmsg.
    + by apply IH.
    + apply elem_of_app in Hmsg as [Hmsg|Hmsg]; [by apply IH|].
      apply list_elem_of_fmap in Hmsg as (c & -> & _). by exists c.
Qed.

Lemma stdout_at_exit st :
  loop_exit calculate_distance set_order self st ->
  forall msg, msg ∈ stdout st -> exists c, msg = Undeliverable c.
Proof.
  intros [st0 Hin _|st0 st' Hin _ Hbody] msg Hmsg.
  - by eapply stdout_in_loop.
  - apply loop_body_Break in Hbody as (_ & _ & ->). simpl in Hmsg.
    apply elem_of_app in Hmsg as [Hmsg|Hmsg]; [by eapply stdout_in_loop|].
    apply list_elem_of_fmap in Hmsg as (c & -> & _). by exists c.
Qed.

Lemma optimize_route_more_fuel fuel fuel' r :
  (fuel <= fuel')%nat ->
  optimize_route calculate_distance set_order self fuel = Some r ->
  optimize_route calculate_distance set_order self fuel' = Some r.
Proof.
  unfold optimize_route. intros Hle H.
  destruct (while_unvisited _ _ _ fuel _) as [res|] eqn:E; [|done].
  by rewrite (while_unvisited_more_fuel fuel fuel' _ res Hle E).
Qed.

End Runs.

(** ** Manifest totals *)

Section Totals.

Variable unit : Z -> Q.

Lemma manifest_total_empty : manifest_total unit ∅ = 0%Q.
Proof. unfold manifest_total. apply map_fold_empty. Qed.

Lemma manifest_total_insert m a n :
  m !! a = None ->
  (manifest_total unit (<[a := n]> m) == manifest_total unit m + inject_Z n * unit a)%Q.
Proof.
  intros Hfresh. unfold manifest_total.
  apply (map_fold_insert Qeq (fun a n acc => (acc + inject_Z n * unit a)%Q)); [| |done].
  - intros j z x y Hxy. by rewrite Hxy.
  - intros. ring.
Qed.

Lemma manifest_total_delete m a n :
  m !! a = Some n ->
  (manifest_total unit m == manifest_total unit (delete a m) + inject_Z n * unit a)%Q.
Proof.
  intros Ha. rewrite <- (insert_delete_id m a n) at 1 by done.
  apply manifest_total_insert, lookup_delete_eq.
Qed.

(** Taking one unit off the manifest lowers the total by one unit's worth. *)
Lemma manifest_total_unload m a m' :
  unload m a = Ok m' ->
  (manifest_total unit m == manifest_total unit m' + unit a)%Q.
Proof.
  intros (n & Ha & ->)%unload_Ok.
  rewrite (manifest_total_delete m a n Ha). case_decide as Hn.
  - replace n with 1 by lia. ring.
  - rewrite <- insert_delete_eq.
    rewrite manifest_total_insert by apply lookup_delete_eq.
    unfold Z.sub. rewrite inject_Z_plus, inject_Z_opp.
    change (inject_Z 1) with 1%Q. ring.
Qed.

End Totals.

(** ** The loader *)

Lemma py_int_np_truediv_Ok x y z :
  py_int (np_truediv x y) = Ok z <-> ~ (y == 0)%Q /\ z = Qtrunc (x / y).
Proof.
  unfold np_truediv. destruct (Qeq_bool y 0) eqn:E.
  - apply Qeq_bool_iff in E.
    destruct (Qeq_bool x 0); [|destruct (Qle_bool 0 x)]; simpl;
      (split; [discriminate | by intros [? _]]).
  - simpl. split.
    + intros [= <-]. split; [|done]. intros H. apply Qeq_bool_iff in H. congruence.
    + by intros [_ ->].
Qed.

Lemma py_int_np_truediv_returns x y :
  ~ (y == 0)%Q -> py_int (np_truediv x y) = Ok (Qtrunc (x / y)).
Proof. intros Hy. by apply py_int_np_truediv_Ok. Qed.

(** How many units one division allows: a quotient of at least one needs
    a positive footprint and stays within what remains. *)
Lemma units_fit room footprint units :
  (0 <= room)%Q -> ~ (footprint == 0)%Q ->
  0 < units -> units <= Qtrunc (room / footprint) ->
  (0 < footprint)%Q /\ (inject_Z units * footprint <= room)%Q.
Proof.
  intros Hroom Hne Hpos Hle.
  assert (room / footprint * footprint == room)%Q as Hq by (by field).
  assert (1 <= room / footprint)%Q as H1 by (apply Qtrunc_pos_inv; lia).
  assert (inject_Z units <= room / footprint)%Q as Hu.
  { apply Qle_trans with (inject_Z (Qtrunc (room / footprint)));
      [by rewrite <- Zle_Qle | apply Qtrunc_le; lra]. }
  assert (0 < footprint)%Q as Hfoot.
  { destruct (Qlt_le_dec 0 footprint) as [|Hneg]; [done|]. exfalso.
    assert (footprint < 0)%Q by (apply Qle_lteq in Hneg as [|]; [done|contradiction]).
    nra. }
  split; [done|]. nra.
Qed.

Section Loader.

Variable self : optimizer.
Variable df : list merged_row.

Lemma load_item_Ok h a n h' :
  load_item self h (a, n) = Ok h' <->
  exists g, head (gifts_with (gifts_df self) a) = Some g /\
    ~ (weight g == 0)%Q /\ ~ (volume g == 0)%Q /\
    h' = let units :=
           Z.min (Z.min (Qtrunc ((max_weight self - current_weight h) / weight g))
                        (Qtrunc ((max_volume self - current_volume h) / volume g))) n in
         if decide (0 < units) then
           {| loaded_articles := <[a := units]> (loaded_articles h);
              current_weight := (current_weight h + inject_Z units * weight g)%Q;
              current_volume := (current_volume h + inject_Z units * volume g)%Q |}
         else h.
Proof.
  unfold load_item. split.
  - intros H. inv_bind H. rename x into g. apply iloc0_Ok in Hx.
    inv_bind H. apply py_int_np_truediv_Ok in Hx0 as [Hw ->].
    inv_bind H. apply py_int_np_truediv_Ok in Hx0 as [Hv ->].
    exists g. split_and!; [done..|]. simpl. by case_decide; injection H as <-.
  - intros (g & Hg & Hw & Hv & ->). apply iloc0_Ok in Hg. rewrite Hg. simpl.
    rewrite !py_int_np_truediv_returns by done. simpl. by case_decide.
Qed.

Lemma unit_weight_head a g :
  head (gifts_with (gifts_df self) a) = Some g ->
  unit_weight (gifts_df self) a = weight g /\ unit_volume (gifts_df self) a = volume g.
Proof.
  unfold unit_weight, unit_volume. by destruct (gifts_with _ a); intros [= ->].
Qed.

Lemma load_item_sound h a n h' :
  loaded_articles h !! a = None ->
  sound_hold self h -> load_item self h (a, n) = Ok h' -> sound_hold self h'.
Proof.
  intros Hfresh (Hw & Hv & Hcw & Hcv & Hpos) (g & Hg & Hwne & Hvne & ->)%load_item_Ok.
  simpl. case_decide as Hunits; [|done].
  set (units := Z.min _ n) in *.
  destruct (unit_weight_head a g Hg) as [Huw Huv].
  destruct (units_fit (max_weight self - current_weight h) (weight g) units)
    as [Hwpos Hwfit]; [lra | done | done | lia |].
  destruct (units_fit (max_volume self - current_volume h) (volume g) units)
    as [Hvpos Hvfit]; [lra | done | done | lia |].
  unfold sound_hold, manifest_weight, manifest_volume in *. simpl.
  rewrite !manifest_total_insert by done. rewrite Huw, Huv, Hw, Hv.
  split_and!; [reflexivity | reflexivity | lra | lra |].
  intros b k Hb. destruct (decide (a = b)) as [<-|Hab].
  - rewrite lookup_insert_eq in Hb. injection Hb as <-.
    rewrite Huw, Huv. done.
  - rewrite lookup_insert_ne in Hb by done. by apply Hpos.
Qed.

Lemma load_items_positive items : forall h h',
  (forall a n, loaded_articles h !! a = Some n -> 0 < n) ->
  for_each (load_item self) h items = Ok h' ->
  forall a n, loaded_articles h' !! a = Some n -> 0 < n.
Proof.
  induction items as [|[b k] items IH]; intros h h' Hpos H; simpl in H.
  - by injection H as <-.
  - inv_bind H. rename x into h1. apply (IH h1 h'); [|done].
    apply load_item_Ok in Hx as (g & _ & _ & _ & ->). simpl.
    case_decide as Hunits; [|done]. simpl. intros a n.
    destruct (decide (b = a)) as [->|Hne].
    + rewrite lookup_insert_eq. by intros [= <-].
    + rewrite lookup_insert_ne by done. apply Hpos.
Qed.

Lemma load_item_domain h a n h' b :
  load_item self h (a, n) = Ok h' -> b ≠ a ->
  loaded_articles h' !! b = loaded_articles h !! b.
Proof.
  intros (g & _ & _ & _ & ->)%load_item_Ok Hb. simpl.
  case_decide; [|done]. simpl. by rewrite lookup_insert_ne.
Qed.

Lemma load_items_sound items : forall h h',
  NoDup items.*1 ->
  (forall a, a ∈ items.*1 -> loaded_articles h !! a = None) ->
  sound_hold self h ->
  for_each (load_item self) h items = Ok h' -> sound_hold self h'.
Proof.
  induction items as [|[a n] items IH]; intros h h' Hnd Hfresh Hh H; simpl in H.
  - congruence.
  - inv_bind H. rename x into h1. apply NoDup_cons in Hnd as [Ha Hnd].
    eapply (IH h1); [done| | |done].
    + intros b Hb. rewrite (load_item_domain h a n h1 b Hx).
      * apply Hfresh. by right.
      * intros ->. done.
    + eapply load_item_sound; [|done..]. apply Hfresh. by left.
Qed.

End Loader.

(** *** The merged table *)

Lemma rows_with_merge_left gifts (x : child_row) c :
  rows_with (merge_left gifts x) c
  = if decide (child x = c) then merge_left gifts x else [].
Proof.
  unfold rows_with.
  assert (Forall (fun r => row_child r = x) (merge_left gifts x)) as Hall.
  { unfold merge_left. destruct (gifts_with gifts _); [by repeat constructor|].
    apply Forall_fmap, Forall_true. done. }
  induction Hall as [|r l Hr _ IH]; [by case_decide|].
  rewrite filter_cons, IH, Hr. by case_decide.
Qed.

(** The first row of a recipient carries the recipient's assigned article and
    the footprint of that article's first catalogue row (NaN when the
    catalogue has none). *)
Lemma first_row_assign_gifts self c row :
  first_row (assign_gifts self) c = Some row ->
  row_child row ∈ children_df self /\
  assigned_article row = assign_article (row_child row) /\
  match head (gifts_with (gifts_df self) (assigned_article row)) with
  | Some g => row_weight row = Fin (weight g) /\ row_volume row = Fin (volume g)
  | None => row_weight row = NaN /\ row_volume row = NaN
  end.
Proof.
  unfold first_row, assign_gifts.
  induction (children_df self) as [|x l IH]; [done|]. simpl.
  unfold rows_with at 1. rewrite filter_app. fold (rows_with (merge_left (gifts_df self) x) c).
  rewrite rows_with_merge_left. case_decide as Hx; simpl.
  - intros H. split; [|clear IH]; revert H; unfold merge_left;
      destruct (gifts_with (gifts_df self) (assign_article x)) as [|g gs] eqn:E;
      simpl; intros [= <-]; simpl; [left | left | by rewrite E | by rewrite E].
  - intros H. destruct (IH H) as (? & ? & ?). split; [by right | done].
Qed.

Lemma elem_of_assign_gifts_child self (x : child_row) :
  x ∈ children_df self ->
  child x ∈ map (fun r => child (row_child r)) (assign_gifts self).
Proof.
  intros Hx. apply list_elem_of_fmap. unfold assign_gifts.
  setoid_rewrite list_elem_of_In. setoid_rewrite in_flat_map.
  setoid_rewrite <- list_elem_of_In.
  unfold merge_left. destruct (gifts_with (gifts_df self) (assign_article x)) as [|g gs] eqn:E.
  - eexists. split; [|exists x; split; [done|]; rewrite E; by left]. done.
  - eexists. split; [|exists x; split; [done|]; rewrite E; by left]. done.
Qed.

(** *** The demand tally *)

Section Tally.

Variable df : list merged_row.

Lemma demand_snoc pre x a :
  Reference.demand df (pre ++ [x]) a
  = Reference.demand df pre a
    + (if decide (Reference.assigned_item df x = Some a) then 1 else 0).
Proof.
  unfold Reference.demand. rewrite filter_app, length_app, filter_cons, filter_nil.
  case_decide; simpl; lia.
Qed.

Lemma demand_nonneg u a : 0 <= Reference.demand df u a.
Proof. unfold Reference.demand. lia. Qed.

Lemma demand_pos u a :
  0 < Reference.demand df u a <->
  exists c, c ∈ u /\ Reference.assigned_item df c = Some a.
Proof.
  unfold Reference.demand. split.
  - intros H. destruct (filter _ u) as [|c l] eqn:E; [simpl in H; lia|].
    assert (c ∈ filter (fun c => Reference.assigned_item df c = Some a) u) as Hc
      by (rewrite E; left).
    apply list_elem_of_filter in Hc as [? ?]. by exists c.
  - intros (c & Hc & Ha).
    assert (c ∈ filter (fun c => Reference.assigned_item df c = Some a) u) as Hin
      by (by apply list_elem_of_filter).
    destruct (filter _ u); [by apply not_elem_of_nil in Hin | simpl; lia].
Qed.

(** The dictionary the first loop of the loader builds: each demanded
    article with the number of recipients that need it. *)
Lemma tally_Ok u needed :
  for_each (tally df) ∅ u = Ok needed ->
  (forall c, c ∈ u -> is_Some (first_row df c)) /\
  forall a, needed !! a =
    if decide (0 < Reference.demand df u a) then Some (Reference.demand df u a)
    else None.
Proof.
  intros H.
  pose (P := fun (pre : list Z) (nd : gmap Z Z) =>
    (forall c, c ∈ pre -> is_Some (first_row df c)) /\
    forall a, nd !! a =
      if decide (0 < Reference.demand df pre a)
      then Some (Reference.demand df pre a) else None).
  change (P ([] ++ u) needed). eapply (for_each_ind _ P); [| |exact H].
  - intros pre x nd nd' [Hrows Hnd] _ Hstep. unfold tally in Hstep.
    inv_bind Hstep. rename x0 into row. apply iloc0_Ok in Hx.
    fold (first_row df x) in Hx. injection Hstep as <-. split.
    + intros c [Hc| ->%list_elem_of_singleton]%elem_of_app; [by apply Hrows | by exists row].
    + assert (Reference.assigned_item df x = Some (assigned_article row)) as Hai.
      { unfold Reference.assigned_item. by rewrite Hx. }
      intros a. rewrite demand_snoc, Hai. pose proof (demand_nonneg pre a).
      destruct (decide (assigned_article row = a)) as [<-|Hne].
      * rewrite lookup_insert_eq, Hnd.
        rewrite (decide_True (P := Some _ = Some _)) by done.
        repeat case_decide; simpl; try lia; f_equal; lia.
      * rewrite lookup_insert_ne, Hnd by done.
        rewrite (decide_False (P := Some _ = Some _)) by congruence.
        by rewrite Z.add_0_r.
  - split; [intros c Hc; by apply not_elem_of_nil in Hc|].
    intros a. by rewrite lookup_empty.
Qed.

Lemma tally_returns u :
  (forall c, c ∈ u -> is_Some (first_row df c)) ->
  exists needed, for_each (tally df) ∅ u = Ok needed.
Proof.
  intros Hrows.
  destruct (for_each_returns (tally df) (fun _ => True) u) with (s := (∅ : gmap Z Z))
    as (nd & -> & _); [|done|by eexists].
  intros x nd Hx _. destruct (Hrows x Hx) as [row Hrow].
  unfold tally. unfold first_row in Hrow. apply iloc0_Ok in Hrow. rewrite Hrow.
  simpl. eauto.
Qed.

End Tally.

(** *** calculate_loading *)

Section Loading.

Variable self : optimizer.
Variable df : list merged_row.

(** The items in the order in which the second loop of the loader takes
    them. *)
Lemma calculate_loading_Ok u m :
  calculate_loading self df u = Ok m <->
  exists needed h,
    for_each (tally df) ∅ u = Ok needed /\
    for_each (load_item self)
      {| loaded_articles := ∅; current_weight := 0; current_volume := 0 |}
      (merge_sort item_le (map_to_list needed)) = Ok h /\
    m = loaded_articles h.
Proof.
  unfold calculate_loading. split.
  - intros H. inv_bind H. rename x into needed. inv_bind H. rename x into h.
    injection H as <-. by exists needed, h.
  - intros (needed & h & -> & Hh & ->). simpl. by rewrite Hh.
Qed.

Lemma sorted_items_NoDup (needed : gmap Z Z) :
  NoDup (merge_sort item_le (map_to_list needed)).*1.
Proof.
  rewrite merge_sort_Permutation. apply NoDup_fst_map_to_list.
Qed.

Lemma sound_hold_empty :
  (0 <= max_weight self)%Q -> (0 <= max_volume self)%Q ->
  sound_hold self {| loaded_articles := ∅; current_weight := 0; current_volume := 0 |}.
Proof.
  intros Hw Hv. unfold sound_hold, manifest_weight, manifest_volume. simpl.
  rewrite !manifest_total_empty. split_and!; [reflexivity | reflexivity | done | done |].
  intros a n Ha. by rewrite lookup_empty in Ha.
Qed.

Lemma sound_hold_manifest h :
  sound_hold self h -> sound_manifest self (loaded_articles h).
Proof.
  intros (Hw & Hv & Hcw & Hcv & Hpos). split; [|done]. split; lra.
Qed.

(** What the loader returns is within capacity. *)
Lemma calculate_loading_sound u m :
  (0 <= max_weight self)%Q -> (0 <= max_volume self)%Q ->
  calculate_loading self df u = Ok m -> sound_manifest self m.
Proof.
  intros Hw Hv (needed & h & _ & Hh & ->)%calculate_loading_Ok.
  apply sound_hold_manifest.
  eapply load_items_sound; [apply sorted_items_NoDup| |by apply sound_hold_empty|exact Hh].
  intros a _. apply lookup_empty.
Qed.

(** A demanded article whose first catalogue row has a zero weight or a zero
    volume makes the loader raise. *)
Lemma zero_footprint_raises u c row g :
  c ∈ u -> first_row df c = Some row ->
  head (gifts_with (gifts_df self) (assigned_article row)) = Some g ->
  (weight g == 0)%Q \/ (volume g == 0)%Q ->
  exists e, calculate_loading self df u = Raise e.
Proof.
  intros Hc Hrow Hg Hzero.
  destruct (calculate_loading self df u) as [m|e] eqn:Hm; [exfalso|by exists e].
  apply calculate_loading_Ok in Hm as (needed & h & Htally & Hload & _).
  apply tally_Ok in Htally as [_ Hneeded].
  assert (0 < Reference.demand df u (assigned_article row)) as Hd.
  { apply demand_pos. exists c. split; [done|].
    unfold Reference.assigned_item. by rewrite Hrow. }
  specialize (Hneeded (assigned_article row)). rewrite decide_True in Hneeded by done.
  apply elem_of_map_to_list in Hneeded.
  rewrite <- (merge_sort_Permutation item_le) in Hneeded.
  destruct (for_each_Ok_elem _ _ _ _ _ Hload Hneeded) as (h0 & h1 & Hstep).
  apply load_item_Ok in Hstep as (g' & Hg' & Hw & Hv & _).
  assert (g' = g) as -> by congruence. tauto.
Qed.

End Loading.

(** ** Capacity along a run *)

Section Capacity.

Variable calculate_distance : coords -> coords -> Q.
Variable set_order : list Z -> list Z.
Variable self : optimizer.
Hypothesis max_weight_nonneg : (0 <= max_weight self)%Q.
Hypothesis max_volume_nonneg : (0 <= max_volume self)%Q.

Lemma sound_manifest_empty : sound_manifest self ∅.
Proof.
  split; [split|].
  - unfold manifest_weight. by rewrite manifest_total_empty.
  - unfold manifest_volume. by rewrite manifest_total_empty.
  - intros a n Ha. by rewrite lookup_empty in Ha.
Qed.

Lemma sound_manifest_unload m a m' :
  sound_manifest self m -> unload m a = Ok m' -> sound_manifest self m'.
Proof.
  intros [[Hw Hv] Hpos] Hun.
  pose proof (manifest_total_unload (unit_weight (gifts_df self)) _ _ _ Hun) as Htw.
  pose proof (manifest_total_unload (unit_volume (gifts_df self)) _ _ _ Hun) as Htv.
  apply unload_Ok in Hun as (n & Ha & ->).
  destruct (Hpos a n Ha) as (Hn & Huw & Huv).
  unfold sound_manifest, within_capacity, manifest_weight, manifest_volume in *.
  split; [split; lra|].
  intros b k Hb. case_decide as Hz.
  - apply lookup_delete_Some in Hb as [_ Hb]. by apply Hpos.
  - destruct (decide (a = b)) as [<-|Hab].
    + rewrite lookup_insert_eq in Hb. injection Hb as <-. split; [lia|done].
    + rewrite lookup_insert_ne in Hb by done. by apply Hpos.
Qed.

Lemma capacity_in_loop st :
  in_loop calculate_distance set_order self st ->
  sound_manifest self (current_cargo st) /\
  forall m, Refuel m ∈ route st -> within_capacity self m.
Proof.
  induction 1 as [|st st' Hin [IHc IHr] Hne Hbody].
  - simpl. split; [apply sound_manifest_empty|].
    intros m Hm. by apply not_elem_of_nil in Hm.
  - apply loop_body_Continue in Hbody
      as [(c & row & cargo' & leg & _ & _ & _ & Hun & ->)
         |(_ & _ & leg & m & Hm & ->)]; simpl.
    + split; [by eapply sound_manifest_unload|].
      intros m [Hm|[=]%list_elem_of_singleton]%elem_of_app. by apply IHr.
    + apply calculate_loading_sound in Hm; [|done..]. split; [done|].
      intros m' [Hm'|[= ->]%list_elem_of_singleton]%elem_of_app;
        [by apply IHr | apply Hm].
Qed.

Lemma capacity_at_exit st :
  loop_exit calculate_distance set_order self st ->
  sound_manifest self (current_cargo st) /\
  forall m, Refuel m ∈ route st -> within_capacity self m.
Proof.
  intros [st0 Hin _|st0 st' Hin _ Hbody].
  - by apply capacity_in_loop.
  - apply loop_body_Break in Hbody as (_ & _ & ->). simpl.
    by apply capacity_in_loop.
Qed.

End Capacity.

(** ** Recipients that are too big *)

Lemma warned_app out1 out2 : warned (out1 ++ out2) = warned out1 ++ warned out2.
Proof. unfold warned. apply omap_app. Qed.

Lemma warned_Undeliverable l : warned (map Undeliverable l) = l.
Proof. induction l as [|c l IH]; [done|]. unfold warned in *. simpl. by f_equal. Qed.

Lemma occurrences_app c l1 l2 :
  occurrences c (l1 ++ l2) = (occurrences c l1 + occurrences c l2)%nat.
Proof. unfold occurrences. by rewrite filter_app, length_app. Qed.

Lemma occurrences_not_elem c l : c ∉ l -> occurrences c l = 0%nat.
Proof.
  intros Hc. unfold occurrences.
  destruct (filter _ l) as [|x l'] eqn:E; [done|].
  assert (x ∈ filter (fun x => x = c) l) as [-> Hx]%list_elem_of_filter
    by (rewrite E; left).
  done.
Qed.

Lemma occurrences_NoDup c l : NoDup l -> c ∈ l -> occurrences c l = 1%nat.
Proof.
  induction 1 as [|x l Hx Hnd IH]; intros Hc; [by apply not_elem_of_nil in Hc|].
  change (x :: l) with ([x] ++ l). rewrite occurrences_app.
  apply elem_of_cons in Hc as [->|Hc].
  - rewrite (occurrences_not_elem x l) by done. unfold occurrences.
    by rewrite filter_cons_True.
  - rewrite IH by done. unfold occurrences.
    rewrite filter_cons_False; [done|]. intros ->. done.
Qed.

Lemma can_deliver_lookup cargo a :
  can_deliver cargo a = true <-> exists n, cargo !! a = Some n /\ 0 < n.
Proof.
  unfold can_deliver. destruct (cargo !! a) as [n|].
  - rewrite bool_decide_eq_true. split; [by exists n | by intros (? & [= <-] & ?)].
  - split; [done | by intros (? & ? & _)].
Qed.

Section TooBig.

Variable calculate_distance : coords -> coords -> Q.
Variable set_order : list Z -> list Z.
Variable self : optimizer.
Hypothesis set_order_NoDup :
  NoDup (set_order (map (fun r => child (row_child r)) (assign_gifts self))).

Variable c : Z.
Hypothesis c_enumerated :
  c ∈ set_order (map (fun r => child (row_child r)) (assign_gifts self)).
Hypothesis c_too_big : is_too_big self (assign_gifts self) c = true.

(** Until the first classification the recipient is unvisited, nothing is on
    board and nothing has been printed about it; from then on it is out of
    the unvisited set with one warning printed.  It is never delivered to. *)
Lemma too_big_in_loop st :
  in_loop calculate_distance set_order self st ->
  NoDup (unvisited st) /\
  (Delivery c ∉ route st) /\
  ((c ∈ unvisited st /\ current_cargo st = ∅ /\
    occurrences c (warned (stdout st)) = 0%nat) \/
   ((c ∉ unvisited st) /\ occurrences c (warned (stdout st)) = 1%nat)).
Proof.
  induction 1 as [|st st' Hin (IHnd & IHr & IH) Hne Hbody].
  - simpl. split; [done|]. split; [apply not_elem_of_nil|]. left. done.
  - apply loop_body_Continue in Hbody
      as [(c' & row & cargo' & leg & Hnear & Hrow & Hc' & Hun & ->)
         |(_ & _ & leg & m & Hm & ->)]; simpl.
    + split; [by apply NoDup_filter|].
      destruct IH as [(Hc & Hcargo & _)|[Hc Hocc]].
      { apply unload_Ok in Hun as (n & Hn & _).
        rewrite Hcargo, lookup_empty in Hn. done. }
      split.
      * intros [Hd|[= ->]%list_elem_of_singleton]%elem_of_app; done.
      * right. split; [|done]. by intros [_ ?]%list_elem_of_filter.
    + split; [by apply NoDup_filter|]. split.
      * intros [Hd|[=]%list_elem_of_singleton]%elem_of_app; done.
      * right. split.
        { intros [Hbig _]%list_elem_of_filter. done. }
        rewrite warned_app, warned_Undeliverable, occurrences_app.
        destruct IH as [(Hc & _ & ->)|[Hc ->]].
        -- rewrite occurrences_NoDup; [done|by apply NoDup_filter|].
           by apply list_elem_of_filter.
        -- rewrite occurrences_not_elem; [done|].
           by intros [_ ?]%list_elem_of_filter.
Qed.

Lemma too_big_at_exit st :
  loop_exit calculate_distance set_order self st ->
  (Delivery c ∉ route st) /\ occurrences c (warned (stdout st)) = 1%nat.
Proof.
  intros [st0 Hin Hempty|st0 st' Hin Hne Hbody].
  - destruct (too_big_in_loop st0 Hin) as (_ & Hr & [(Hc & _)|[_ Hocc]]); [|done].
    rewrite Hempty in Hc. by apply not_elem_of_nil in Hc.
  - destruct (too_big_in_loop st0 Hin) as (Hnd & Hr & IH).
    apply loop_body_Break in Hbody as (_ & _ & ->). simpl. split; [done|].
    rewrite warned_app, warned_Undeliverable, occurrences_app.
    destruct IH as [(Hc & _ & ->)|[Hc ->]].
    + rewrite occurrences_NoDup; [done|by apply NoDup_filter|].
      by apply list_elem_of_filter.
    + rewrite occurrences_not_elem; [done|].
      by intros [_ ?]%list_elem_of_filter.
Qed.

End TooBig.

(** ** A reload puts something deliverable on board *)

Section Feeding.

Variable self : optimizer.

Lemma load_items_keep a items : forall h h',
  for_each (load_item self) h items = Ok h' ->
  (exists k, loaded_articles h !! a = Some k /\ 0 < k) ->
  exists k, loaded_articles h' !! a = Some k /\ 0 < k.
Proof.
  induction items as [|[b n] items IH]; intros h h' H Hk; simpl in H.
  - by injection H as <-.
  - inv_bind H. rename x into h1. apply (IH h1 h' H).
    apply load_item_Ok in Hx as (g & _ & _ & _ & ->). simpl.
    case_decide as Hunits; [|done]. simpl.
    destruct (decide (b = a)) as [->|Hne].
    + rewrite lookup_insert_eq. eauto.
    + by rewrite lookup_insert_ne.
Qed.

Lemma not_too_big_fits c row g :
  first_row (assign_gifts self) c = Some row ->
  is_too_big self (assign_gifts self) c <> true ->
  head (gifts_with (gifts_df self) (assigned_article row)) = Some g ->
  (weight g <= max_weight self)%Q /\ (volume g <= max_volume self)%Q.
Proof.
  intros Hrow Hbig Hg. unfold is_too_big in Hbig. rewrite Hrow in Hbig.
  apply first_row_assign_gifts in Hrow as (_ & _ & Hfoot).
  rewrite Hg in Hfoot. destruct Hfoot as [Hw Hv].
  unfold too_big in Hbig. rewrite Hw, Hv in Hbig.
  apply not_true_is_false, orb_false_iff in Hbig as [Hbw Hbv].
  simpl in Hbw, Hbv. apply negb_false_iff in Hbw, Hbv.
  by apply Qle_bool_iff in Hbw, Hbv.
Qed.

Lemma first_units_positive room footprint :
  (0 < footprint)%Q -> (footprint <= room)%Q ->
  1 <= Qtrunc ((room - 0) / footprint).
Proof.
  intros Hpos Hle. apply Qtrunc_ge_1, Qle_shift_div_l; [done|]. lra.
Qed.

Lemma calculate_loading_feeds u m :
  fitting_footprints_positive self -> u <> [] ->
  (forall c, c ∈ u -> is_too_big self (assign_gifts self) c <> true) ->
  calculate_loading self (assign_gifts self) u = Ok m ->
  exists c row n, c ∈ u /\ first_row (assign_gifts self) c = Some row /\
    m !! assigned_article row = Some n /\ 0 < n.
Proof.
  intros Hfit Hne Hsmall (needed & h & Htally & Hload & ->)%calculate_loading_Ok.
  apply tally_Ok in Htally as [Hrows Hneeded].
  destruct (merge_sort item_le (map_to_list needed)) as [|[a n] rest] eqn:Hsorted.
  { exfalso. destruct u as [|c0 u]; [done|].
    destruct (Hrows c0) as [row0 Hrow0]; [by left|].
    assert (0 < Reference.demand (assign_gifts self) (c0 :: u) (assigned_article row0)) as Hd.
    { apply demand_pos. exists c0. split; [by left|].
      unfold Reference.assigned_item. by rewrite Hrow0. }
    specialize (Hneeded (assigned_article row0)). rewrite decide_True in Hneeded by done.
    apply elem_of_map_to_list in Hneeded.
    rewrite <- (merge_sort_Permutation item_le), Hsorted in Hneeded.
    by apply not_elem_of_nil in Hneeded. }
  assert (needed !! a = Some n) as Han.
  { apply elem_of_map_to_list. rewrite <- (merge_sort_Permutation item_le), Hsorted. left. }
  rewrite Hneeded in Han. case_decide as Hd; [|done]. injection Han as Hn.
  apply demand_pos in Hd as Hc. destruct Hc as (c & Hc & Hai).
  unfold Reference.assigned_item in Hai.
  destruct (first_row (assign_gifts self) c) as [row|] eqn:Hrow; [|done].
  injection Hai as <-. exists c, row.
  cbn [for_each] in Hload. inv_bind Hload. rename x into h1.
  enough (exists k, loaded_articles h !! assigned_article row = Some k /\ 0 < k)
    as (k & Hk & Hkpos) by (by exists k).
  apply (load_items_keep _ rest h1 h Hload).
  apply load_item_Ok in Hx as (g & Hg & _ & _ & ->). simpl.
  destruct (not_too_big_fits c row g Hrow (Hsmall c Hc) Hg) as [Hwfit Hvfit].
  pose proof (first_row_assign_gifts self c row Hrow) as (Hchild & Hassign & _).
  rewrite Hassign in Hg.
  destruct (Hfit (row_child row) g Hchild Hg Hwfit Hvfit) as [Hwpos Hvpos].
  pose proof (first_units_positive (max_weight self) (weight g) Hwpos Hwfit).
  pose proof (first_units_positive (max_volume self) (volume g) Hvpos Hvfit).
  rewrite decide_True by lia. simpl. rewrite lookup_insert_eq.
  eexists. split; [done|]. lia.
Qed.

End Feeding.

(** ** Reload events along a run *)

Section Reloads.

Variable calculate_distance : coords -> coords -> Q.
Variable set_order : list Z -> list Z.
Variable self : optimizer.
Hypothesis footprints : fitting_footprints_positive self.

Lemma lookup_snoc_Some {A} (l : list A) x i y :
  (l ++ [x]) !! i = Some y ->
  ((i < length l)%nat /\ l !! i = Some y) \/ (i = length l /\ y = x).
Proof.
  intros H. destruct (decide (i < length l)%nat) as [Hlt|Hge].
  - left. by rewrite lookup_app_l in H.
  - right. rewrite lookup_app_r in H by lia.
    apply list_lookup_singleton_Some in H as [? <-]. split; [lia|done].
Qed.

Lemma last_Refuel_lookup (r : list event) i m :
  r !! i = Some (Refuel m) -> S i = length r -> last r = Some (Refuel m).
Proof. intros Hi Hlen. rewrite last_lookup, <- Hlen. done. Qed.

(** Every reload event on the route loaded something; it is followed by a
    delivery unless it is the last event, and then something on board is
    deliverable. *)
Lemma reloads_in_loop st :
  in_loop calculate_distance set_order self st ->
  (forall i m, route st !! i = Some (Refuel m) ->
     (exists a n, m !! a = Some n /\ 0 < n) /\
     ((S i < length (route st))%nat ->
      exists c, route st !! S i = Some (Delivery c))) /\
  (forall m, last (route st) = Some (Refuel m) ->
     exists c, c ∈ unvisited st /\ deliverable (assign_gifts self) st c).
Proof.
  induction 1 as [|st st' Hin [IHr IHlast] Hne Hbody].
  - simpl. split; [intros i m Hi; by rewrite lookup_nil in Hi | done].
  - apply loop_body_Continue in Hbody
      as [(c & row & cargo' & leg & _ & _ & _ & _ & ->)
         |(Hnone & Hkept & leg & m & Hm & ->)]; simpl.
    + split; [|intros m; by rewrite last_snoc].
      intros i m [[Hlt Hi]|[_ [=]]]%lookup_snoc_Some.
      destruct (IHr i m Hi) as [Hpos Hnext]. split; [done|].
      intros _. destruct (decide (S i < length (route st))%nat) as [Hlt'|Hge].
      * destruct (Hnext Hlt') as [c' Hc']. exists c'.
        by rewrite lookup_app_l.
      * exists c. rewrite lookup_app_r by lia.
        by replace (S i - length (route st))%nat with 0%nat by lia.
    + destruct (calculate_loading_feeds self _ m footprints Hkept) as
        (c & row & n & Hc & Hrow & Hn & Hnpos); [|done|].
      { intros c [? _]%list_elem_of_filter. done. }
      split.
      * intros i m' [[Hlt Hi]|[-> [= ->]]]%lookup_snoc_Some.
        -- destruct (IHr i m' Hi) as [Hpos Hnext]. split; [done|].
           rewrite length_app. simpl. intros Hlt'.
           destruct (decide (S i < length (route st))%nat) as [Hlt2|Hge].
           ++ destruct (Hnext Hlt2) as [c' Hc']. exists c'. by rewrite lookup_app_l.
           ++ exfalso. destruct (IHlast m') as (c' & Hc' & Hdel).
              { apply (last_Refuel_lookup _ i); [done | lia]. }
              by apply (Hnone c').
        -- split; [by exists (assigned_article row), n|].
           rewrite length_app. simpl. lia.
      * intros m'. rewrite last_snoc. intros [= <-].
        exists c. split; [done|]. exists row. split; [done|]. simpl.
        apply can_deliver_lookup. by exists n.
Qed.

Lemma reloads_at_exit st :
  loop_exit calculate_distance set_order self st ->
  forall i m, route st !! i = Some (Refuel m) ->
    (exists a n, m !! a = Some n /\ 0 < n) /\
    exists c, route st !! S i = Some (Delivery c).
Proof.
  assert (forall st0 r,
    in_loop calculate_distance set_order self st0 -> r = route st0 ->
    (forall c, c ∈ unvisited st0 -> ~ deliverable (assign_gifts self) st0 c) ->
    forall i m, r !! i = Some (Refuel m) ->
      (exists a n, m !! a = Some n /\ 0 < n) /\
      exists c, r !! S i = Some (Delivery c)) as Hgen.
  { intros st0 r Hin -> Hnone i m Hi.
    destruct (reloads_in_loop st0 Hin) as [IHr IHlast].
    destruct (IHr i m Hi) as [Hpos Hnext]. split; [done|]. apply Hnext.
    apply lookup_lt_Some in Hi as Hlt.
    destruct (decide (S i < length (route st0))%nat) as [|Hge]; [done|].
    exfalso. destruct (IHlast m) as (c & Hc & Hdel).
    { apply (last_Refuel_lookup _ i); [done | lia]. }
    by apply (Hnone c). }
  intros [st0 Hin Hempty|st0 st' Hin Hne Hbody].
  - apply (Hgen st0); [done..|]. rewrite Hempty. intros c Hc.
    by apply not_elem_of_nil in Hc.
  - apply loop_body_Break in Hbody as (Hnone & _ & ->). simpl.
    by apply (Hgen st0).
Qed.

End Reloads.

(** ** Progress of the loop *)

(** When something on board is deliverable the scan selects a recipient. *)
Lemma nearest_selects calculate_distance df st :
  (forall c, c ∈ unvisited st -> is_Some (first_row df c)) ->
  (exists c, c ∈ unvisited st /\ deliverable df st c) ->
  exists c, nearest calculate_distance df st = Ok (Some c).
Proof.
  intros Hrows (c0 & Hc0 & Hdel0).
  destruct (nearest_returns calculate_distance df st Hrows) as [[c|] Hbest];
    [by exists c|].
  apply nearest_Ok in Hbest as [_ Hnone]. by destruct (Hnone c0 Hc0).
Qed.

(** The delivery to a deliverable unvisited recipient returns when the speed
    is not zero. *)
Lemma deliver_returns calculate_distance self df st c :
  c ∈ unvisited st -> deliverable df st c -> ~ (speed_kmh self == 0)%Q ->
  exists st', deliver calculate_distance self df st c = Ok (Continue st') /\
    route st' = route st ++ [Delivery c] /\
    unvisited st' = filter (fun y => y ≠ c) (unvisited st).
Proof.
  intros Hc (row & Hrow & (n & Hn & _)%can_deliver_lookup) Hspeed.
  eexists. split.
  - apply deliver_Ok. exists row. eexists. eexists.
    split; [done|]. split; [done|].
    split; [apply unload_Ok; by exists n|].
    split; [by apply py_truediv_returns | done].
  - done.
Qed.

Section Progress.

Variable calculate_distance : coords -> coords -> Q.
Variable self : optimizer.
Hypothesis catalog : catalog_resolves_positive self.
Hypothesis speed_nonzero : ~ (speed_kmh self == 0)%Q.

Lemma catalog_fitting : fitting_footprints_positive self.
Proof.
  intros c g Hc Hg _ _. destruct (catalog c Hc) as (g' & Hg' & Hpos).
  congruence.
Qed.

Lemma calculate_loading_returns u :
  (forall c, c ∈ u -> is_Some (first_row (assign_gifts self) c)) ->
  exists m, calculate_loading self (assign_gifts self) u = Ok m.
Proof.
  intros Hrows. destruct (tally_returns _ u Hrows) as [needed Hneeded].
  pose proof (tally_Ok _ _ _ Hneeded) as [_ Hspec].
  destruct (for_each_returns (load_item self) (fun _ => True)
              (merge_sort item_le (map_to_list needed)))
    with (s := {| loaded_articles := ∅; current_weight := 0%Q; current_volume := 0%Q |})
    as (h & Hh & _); [|done|].
  - intros [a n] h Han _.
    rewrite merge_sort_Permutation in Han. apply elem_of_map_to_list in Han.
    rewrite Hspec in Han. case_decide as Hd; [|done].
    apply demand_pos in Hd as (c & Hc & Hai). unfold Reference.assigned_item in Hai.
    destruct (first_row (assign_gifts self) c) as [row|] eqn:Hrow; [|done].
    injection Hai as <-.
    apply first_row_assign_gifts in Hrow as (Hchild & Hassign & _).
    destruct (catalog _ Hchild) as (g & Hg & Hw & Hv). rewrite <- Hassign in Hg.
    eexists. split; [|done]. apply load_item_Ok. exists g.
    split; [done|]. split; [lra|]. split; [lra|]. done.
  - exists (loaded_articles h). apply calculate_loading_Ok. by exists needed, h.
Qed.

(** The iteration taken when nothing on board is deliverable: the loop
    ends, or it continues from the depot with something deliverable. *)
Lemma loop_body_reloads st :
  enumerated self st ->
  nearest calculate_distance (assign_gifts self) st = Ok None ->
  (exists st', loop_body calculate_distance self (assign_gifts self) st = Ok (Break st')) \/
  (exists st', loop_body calculate_distance self (assign_gifts self) st = Ok (Continue st') /\
     unvisited st' = kept self (assign_gifts self) (unvisited st) /\
     exists c, c ∈ unvisited st' /\ deliverable (assign_gifts self) st' c).
Proof.
  intros [Hnd Hrows] Hnone. unfold loop_body. rewrite Hnone. simpl.
  unfold depot_return.
  destruct (classify_returns self (assign_gifts self) (unvisited st) (stdout st) Hrows)
    as [[und out] Hclass].
  rewrite Hclass. simpl. apply classify_Ok in Hclass as (-> & -> & _).
  destruct (remove_all_returns
              (filter (fun c => is_too_big self (assign_gifts self) c = true) (unvisited st))
              (unvisited st)) as [u' Hu'].
  { by apply NoDup_filter. }
  { intros c [_ ?]%list_elem_of_filter. done. }
  rewrite Hu'. simpl. apply remove_all_Ok in Hu'. rewrite kept_alt in Hu'. subst u'.
  destruct (kept self (assign_gifts self) (unvisited st)) as [|c0 u'] eqn:Hkept.
  { left. by eexists. }
  right. rewrite py_truediv_returns by done. simpl.
  destruct (calculate_loading_returns (c0 :: u')) as [m Hm].
  { intros c Hc. apply Hrows. rewrite <- Hkept in Hc.
    by apply list_elem_of_filter in Hc as [_ ?]. }
  rewrite Hm. simpl. eexists. split; [done|]. simpl. split; [done|].
  destruct (calculate_loading_feeds self (c0 :: u') m catalog_fitting)
    as (c & row & n & Hc & Hrow & Hn & Hnpos); [done| |done|].
  { intros c Hc. rewrite <- Hkept in Hc. by apply list_elem_of_filter in Hc as [? _]. }
  exists c. split; [done|]. exists row. split; [done|]. simpl.
  apply can_deliver_lookup. by exists n.
Qed.

Lemma enumerated_filter st st' (P : Z -> Prop) `{!forall x, Decision (P x)} :
  enumerated self st -> unvisited st' = filter P (unvisited st) -> enumerated self st'.
Proof.
  intros [Hnd Hrows] Hun. unfold enumerated. rewrite Hun.
  split; [by apply NoDup_filter|].
  intros c [_ Hc]%list_elem_of_filter. by apply Hrows.
Qed.

(** Fuel enough for a state with at most [n] unvisited recipients: [2 n + 1]
    iterations, and [2 n] when something on board is deliverable. *)
Lemma while_unvisited_returns n :
  (forall st, enumerated self st -> (length (unvisited st) <= n)%nat ->
     exists st', while_unvisited calculate_distance self (assign_gifts self)
                   (2 * n + 1) st = Some (Ok st')) /\
  (forall st, enumerated self st -> (length (unvisited st) <= n)%nat ->
     (exists c, c ∈ unvisited st /\ deliverable (assign_gifts self) st c) ->
     exists st', while_unvisited calculate_distance self (assign_gifts self)
                   (2 * n) st = Some (Ok st')).
Proof.
  induction n as [|n [IHany IHdel]].
  - split; intros st _ Hlen; intros; exists st;
      (destruct (unvisited st) eqn:E; [by simpl; rewrite E | simpl in Hlen; lia]).
  - assert (forall st, enumerated self st -> (length (unvisited st) <= S n)%nat ->
       (exists c, c ∈ unvisited st /\ deliverable (assign_gifts self) st c) ->
       exists st', while_unvisited calculate_distance self (assign_gifts self)
                     (2 * S n) st = Some (Ok st')) as Hdel.
    { intros st Hen Hlen Hex.
      destruct (nearest_selects calculate_distance (assign_gifts self) st
                  (proj2 Hen) Hex) as [c Hbest].
      pose proof (nearest_Ok _ _ _ _ Hbest) as [_ (i & Hi & Hdeliv & _)].
      destruct (deliver_returns calculate_distance self (assign_gifts self) st c)
        as (st' & Hbody & _ & Hun); [by eapply list_elem_of_lookup_2|done..|].
      assert (loop_body calculate_distance self (assign_gifts self) st
              = Ok (Continue st')) as Hbody'.
      { unfold loop_body. by rewrite Hbest. }
      clear Hbody. rename Hbody' into Hbody.
      destruct (IHany st') as [st2 Hst2].
      { by eapply enumerated_filter. }
      { rewrite Hun.
        pose proof (length_filter_lt (fun y => y ≠ c) (unvisited st) c) as Hlt.
        apply list_elem_of_lookup_2 in Hi. specialize (Hlt Hi). lia. }
      exists st2. replace (2 * S n)%nat with (S (2 * n + 1)) by lia.
      rewrite while_unvisited_step, Hbody; [done|].
      intros E. by rewrite E, lookup_nil in Hi. }
    split; [|done].
    intros st Hen Hlen. replace (2 * S n + 1)%nat with (S (2 * S n)) by lia.
    destruct (decide (unvisited st = [])) as [E|E].
    { exists st. simpl. by rewrite E. }
    destruct (nearest_returns calculate_distance (assign_gifts self) st (proj2 Hen))
      as [best Hbest].
    destruct best as [c|].
    + pose proof (nearest_Ok _ _ _ _ Hbest) as [_ (i & Hi & Hdeliv & _)].
      destruct (Hdel st Hen Hlen) as [st' Hst'].
      { exists c. split; [by eapply list_elem_of_lookup_2 | done]. }
      exists st'. eapply while_unvisited_more_fuel; [|exact Hst']. lia.
    + destruct (loop_body_reloads st Hen Hbest)
        as [[st' Hbody]|(st' & Hbody & Hun & Hex)].
      * exists st'. by rewrite while_unvisited_step, Hbody.
      * destruct (Hdel st') as [st2 Hst2]; [by eapply enumerated_filter| |done|].
        { rewrite Hun. unfold kept. etrans; [apply length_filter|done]. }
        exists st2. by rewrite while_unvisited_step, Hbody.
Qed.

End Progress.

(** ** Every recipient is accounted for *)

Section Accounted.

Variable calculate_distance : coords -> coords -> Q.
Variable set_order : list Z -> list Z.
Variable self : optimizer.

Lemma accounted_in_loop st :
  in_loop calculate_distance set_order self st ->
  forall c, c ∈ unvisited (initial_state set_order (assign_gifts self)) ->
    c ∈ unvisited st \/ Delivery c ∈ route st \/ Undeliverable c ∈ stdout st.
Proof.
  induction 1 as [|st st' Hin IH Hne Hbody]; intros c Hc; [by left|].
  specialize (IH c Hc).
  apply loop_body_Continue in Hbody
    as [(c' & row & cargo' & leg & _ & _ & _ & _ & ->)
       |(_ & _ & leg & m & _ & ->)]; simpl.
  - destruct IH as [Hu|[Hd|Hw]].
    + destruct (decide (c = c')) as [->|Hneq].
      * right. left. apply elem_of_app. right. left.
      * left. by apply list_elem_of_filter.
    + right. left. apply elem_of_app. by left.
    + by right; right.
  - destruct IH as [Hu|[Hd|Hw]].
    + destruct (decide (is_too_big self (assign_gifts self) c = true)) as [Hbig|Hsmall].
      * right. right. apply elem_of_app. right.
        apply list_elem_of_fmap. exists c. split; [done|].
        by apply list_elem_of_filter.
      * left. by apply list_elem_of_filter.
    + right. left. apply elem_of_app. by left.
    + right. right. apply elem_of_app. by left.
Qed.

Lemma accounted_at_exit st :
  loop_exit calculate_distance set_order self st ->
  forall c, c ∈ unvisited (initial_state set_order (assign_gifts self)) ->
    Delivery c ∈ route st \/ Undeliverable c ∈ stdout st.
Proof.
  intros [st0 Hin Hempty|st0 st' Hin Hne Hbody] c Hc.
  - destruct (accounted_in_loop st0 Hin c Hc) as [Hu|[Hd|Hw]]; [|by left|by right].
    rewrite Hempty in Hu. by apply not_elem_of_nil in Hu.
  - apply loop_body_Break in Hbody as (_ & Hkept & ->). simpl.
    destruct (accounted_in_loop st0 Hin c Hc) as [Hu|[Hd|Hw]].
    + right. apply elem_of_app. right. apply list_elem_of_fmap.
      exists c. split; [done|]. apply list_elem_of_filter. split; [|done].
      destruct (decide (is_too_big self (assign_gifts self) c = true)) as [|Hsmall];
        [done|].
      assert (c ∈ kept self (assign_gifts self) (unvisited st0)) as Hin'
        by (by apply list_elem_of_filter).
      rewrite Hkept in Hin'. by apply not_elem_of_nil in Hin'.
    + by left.
    + right. apply elem_of_app. by left.
Qed.

End Accounted.

(** ** The loader against the reference of the specification *)

#[global] Instance item_le_transitive : Transitive item_le.
Proof. intros [a1 n1] [a2 n2] [a3 n3]. unfold item_le. simpl. lia. Qed.

#[global] Instance item_le_antisymm : AntiSymm (=) item_le.
Proof.
  intros [a1 n1] [a2 n2]. unfold item_le. simpl. intros H1 H2.
  f_equal; lia.
Qed.

#[global] Instance item_le_total : Total item_le.
Proof. intros [a1 n1] [a2 n2]. unfold item_le. simpl. lia. Qed.

Lemma StronglySorted_le_lt (l : list Z) :
  StronglySorted Z.le l -> NoDup l -> StronglySorted Z.lt l.
Proof.
  induction 1 as [|x l Hl IH Hx]; intros Hnd; constructor.
  - apply IH. by apply NoDup_cons in Hnd as [_ ?].
  - apply NoDup_cons in Hnd as [Hnotin _].
    rewrite Forall_forall in Hx |- *. intros y Hy.
    specialize (Hx y Hy). assert (x <> y) by (intros ->; done). lia.
Qed.

Section Refinement.

Variable self : optimizer.
Variable df : list merged_row.

Lemma mapM_assigned_item u items :
  mapM (Reference.assigned_item df) u = Some items ->
  (forall c, c ∈ u -> is_Some (first_row df c)) /\
  forall a, a ∈ items <-> 0 < Reference.demand df u a.
Proof.
  intros H%mapM_Some. split.
  - intros c Hc. apply list_elem_of_lookup in Hc as [i Hi].
    destruct (Forall2_lookup_l _ _ _ i c H Hi) as (a & _ & Ha).
    unfold Reference.assigned_item in Ha.
    destruct (first_row df c); [by eexists | done].
  - intros a. rewrite demand_pos. split.
    + intros [i Hi]%list_elem_of_lookup.
      destruct (Forall2_lookup_r _ _ _ i a H Hi) as (c & Hc & Ha).
      exists c. split; [by eapply list_elem_of_lookup_2 | done].
    + intros (c & [i Hi]%list_elem_of_lookup & Ha).
      destruct (Forall2_lookup_l _ _ _ i c H Hi) as (a' & Ha' & Hca).
      assert (a' = a) as -> by congruence. by eapply list_elem_of_lookup_2.
Qed.

(** The items of the loader's second loop are the demanded articles in
    ascending order, each with its demand. *)
Lemma sorted_items_reference u needed items :
  for_each (tally df) ∅ u = Ok needed ->
  mapM (Reference.assigned_item df) u = Some items ->
  merge_sort item_le (map_to_list needed)
  = (fun a => (a, Reference.demand df u a)) <$> merge_sort Z.le (remove_dups items).
Proof.
  intros [_ Hneeded]%tally_Ok [_ Hitems]%mapM_assigned_item.
  apply (StronglySorted_unique item_le).
  - apply StronglySorted_merge_sort; apply _.
  - apply (StronglySorted_fmap _ Z.lt).
    + intros x y Hxy. left. done.
    + apply StronglySorted_le_lt.
      * apply StronglySorted_merge_sort; apply _.
      * rewrite merge_sort_Permutation. apply NoDup_remove_dups.
  - rewrite merge_sort_Permutation. apply NoDup_Permutation.
    + apply NoDup_map_to_list.
    + apply NoDup_fmap_2; [by intros x y [= ->]|].
      rewrite merge_sort_Permutation. apply NoDup_remove_dups.
    + intros [a n]. rewrite elem_of_map_to_list, Hneeded, list_elem_of_fmap.
      setoid_rewrite merge_sort_Permutation.
      setoid_rewrite elem_of_remove_dups. setoid_rewrite Hitems. split.
      * case_decide; [|done]. intros [= <-]. by exists a.
      * intros (a' & [= -> ->] & Hd). by rewrite decide_True.
Qed.

Lemma units_that_fit_Some room footprint :
  ~ (footprint == 0)%Q ->
  Reference.units_that_fit room footprint = Some (Qfloor (room / footprint)).
Proof.
  intros H. unfold Reference.units_that_fit.
  destruct (Qeq_bool footprint 0) eqn:E; [|done].
  by apply Qeq_bool_iff in E.
Qed.

Lemma bin_fill_cons need rw rv a rest g :
  head (gifts_with (gifts_df self) a) = Some g ->
  ~ (weight g == 0)%Q -> ~ (volume g == 0)%Q ->
  Reference.bin_fill (gifts_df self) need rw rv (a :: rest)
  = let units := Z.min (Z.min (Qfloor (rw / weight g)) (Qfloor (rv / volume g)))
                   (need a) in
    if decide (0 < units) then
      m ← Reference.bin_fill (gifts_df self) need
            (rw - inject_Z units * weight g)%Q
            (rv - inject_Z units * volume g)%Q rest;
      Some (<[a := units]> m)
    else Reference.bin_fill (gifts_df self) need rw rv rest.
Proof.
  intros Hg Hw Hv. cbn [Reference.bin_fill]. rewrite Hg. cbn [mbind option_bind].
  rewrite (units_that_fit_Some rw), (units_that_fit_Some rv) by done.
  cbn [Reference.at_most]. cbv zeta. by rewrite Z.min_assoc.
Qed.

(** The second loop of the loader, started with the running totals of [h],
    against the reference run on what remains of the capacity: in exact
    arithmetic, what the loop loads is what the reference loads. *)
Lemma load_items_reference need items : forall h h' rw rv,
  NoDup items ->
  (forall a, a ∈ items -> loaded_articles h !! a = None) ->
  (rw == max_weight self - current_weight h)%Q ->
  (rv == max_volume self - current_volume h)%Q ->
  for_each (load_item self) h ((fun a => (a, need a)) <$> items) = Ok h' ->
  exists m, Reference.bin_fill (gifts_df self) need rw rv items = Some m /\
    loaded_articles h' = m ∪ loaded_articles h /\
    forall a, a ∉ items -> m !! a = None.
Proof.
  induction items as [|a items IH]; intros h h' rw rv Hnd Hfresh Hrw Hrv Hrun.
  { simpl in Hrun. injection Hrun as <-.
    exists ∅. split; [done|]. split; [by rewrite (left_id_L ∅ (∪))|].
    intros a _. apply lookup_empty. }
  apply NoDup_cons in Hnd as [Ha Hnd]. cbn [fmap list_fmap for_each] in Hrun.
  inv_bind Hrun. rename x into h1, Hx into Hstep.
  apply load_item_Ok in Hstep as (g & Hg & Hw & Hv & Hh1). cbv zeta in Hh1.
  rewrite (bin_fill_cons need rw rv a items g Hg Hw Hv). cbv zeta.
  assert (Qfloor (rw / weight g)
          = Qfloor ((max_weight self - current_weight h) / weight g)) as ->
    by (apply Qfloor_comp; by rewrite Hrw).
  assert (Qfloor (rv / volume g)
          = Qfloor ((max_volume self - current_volume h) / volume g)) as ->
    by (apply Qfloor_comp; by rewrite Hrv).
  destruct (units_min_floor ((max_weight self - current_weight h) / weight g)
              ((max_volume self - current_volume h) / volume g) (need a))
    as [Hiff Heq].
  cbv zeta in Hiff, Heq.
  set (t := Z.min (Z.min (Qtrunc _) (Qtrunc _)) (need a)) in *.
  set (f := Z.min (Z.min (Qfloor _) (Qfloor _)) (need a)) in *.
  destruct (decide (0 < t)) as [Ht|Ht].
  - rewrite decide_True by (by apply Hiff). rewrite <- (Heq Ht).
    assert (forall b, b ∈ items -> loaded_articles h1 !! b = None) as Hfresh1.
    { intros b Hb. subst h1. simpl.
      rewrite lookup_insert_ne by (intros ->; done). apply Hfresh. by right. }
    assert (rw - inject_Z t * weight g == max_weight self - current_weight h1)%Q
      as Hrw1 by (subst h1; simpl; rewrite Hrw; ring).
    assert (rv - inject_Z t * volume g == max_volume self - current_volume h1)%Q
      as Hrv1 by (subst h1; simpl; rewrite Hrv; ring).
    destruct (IH h1 h' _ _ Hnd Hfresh1 Hrw1 Hrv1 Hrun) as (m & -> & Hm & Hdom).
    exists (<[a := t]> m). split; [done|]. split.
    + rewrite Hm. subst h1. simpl.
      rewrite <- insert_union_l, insert_union_r; [done|]. by apply Hdom.
    + intros b Hb. apply not_elem_of_cons in Hb as [Hba Hb].
      rewrite lookup_insert_ne by done. by apply Hdom.
  - rewrite decide_False by (by rewrite <- Hiff). subst h1.
    destruct (IH h h' rw rv Hnd) as (m & -> & Hm & Hdom); [|done..|].
    { intros b Hb. apply Hfresh. by right. }
    exists m. split; [done|]. split; [done|].
    intros b Hb. apply not_elem_of_cons in Hb as [_ Hb]. by apply Hdom.
Qed.

(** In exact arithmetic a manifest the loader returns is the manifest of
    the reference: where the code returns another one, it does so by
    rounding. *)
Lemma exact_loader_is_reference unserved m :
  calculate_loading self df unserved = Ok m ->
  Reference.loading self df unserved = Some m.
Proof.
  intros Hm. pose proof Hm as (needed & h & Hneeded & Hload & ->)%calculate_loading_Ok.
  pose proof Hneeded as [Hrows _]%tally_Ok.
  unfold Reference.loading.
  destruct (mapM (Reference.assigned_item df) unserved) as [items|] eqn:Hitems.
  2:{ apply mapM_None in Hitems. apply Exists_exists in Hitems as (c & Hc & Hnone).
      destruct (Hrows c Hc) as [row Hrow].
      unfold Reference.assigned_item in Hnone. by rewrite Hrow in Hnone. }
  cbn [mbind option_bind].
  rewrite (sorted_items_reference unserved needed items Hneeded Hitems) in Hload.
  destruct (load_items_reference (Reference.demand df unserved)
              (merge_sort Z.le (remove_dups items))
              {| loaded_articles := ∅; current_weight := 0%Q; current_volume := 0%Q |}
              h (max_weight self) (max_volume self)) as (m & -> & Hm' & _);
    [| |simpl; ring|simpl; ring|exact Hload|].
  - rewrite merge_sort_Permutation. apply NoDup_remove_dups.
  - intros a _. apply lookup_empty.
  - simpl in Hm'. by rewrite Hm', (right_id_L ∅ (∪)).
Qed.

End Refinement.

(** ** The claims of the specification *)

(** C1 (as the code has it).  The four fields maximum weight, maximum
    volume, speed and time per stop are read from the sleigh specification;
    the trip time budget is not: every optimizer the constructor builds has
    the budget 7 hours, whatever the specification table contains. *)
Theorem init_budget_is_constant children gifts rows self :
  init children gifts rows = Ok self ->
  max_time_hours self = (7 # 1)%Q /\
  sleigh_specs self !! "maximum weight"%string = Some (max_weight self) /\
  sleigh_specs self !! "maximum volume"%string = Some (max_volume self) /\
  sleigh_specs self !! "speed (km/h)"%string = Some (speed_kmh self) /\
  sleigh_specs self !! "time per stop (min)"%string = Some (time_per_stop_min self).
Proof.
  unfold init. intros H.
  inv_bind H. rename x into mw, Hx into Hmw.
  inv_bind H. rename x into mv, Hx into Hmv.
  inv_bind H. rename x into sp, Hx into Hsp.
  inv_bind H. rename x into ts, Hx into Hts.
  injection H as <-. simpl.
  apply dict_get_Ok in Hmw, Hmv, Hsp, Hts. done.
Qed.

Lemma init_budget_is_constant_witness :
  max_time_hours Sample.three_children = (7 # 1)%Q /\
  sleigh_specs Sample.three_children !! "maximum weight"%string
    = Some (max_weight Sample.three_children).
Proof.
  pose proof (init_budget_is_constant
    (children_df Sample.three_children) (gifts_df Sample.three_children)
    (Sample.sleigh 10 10 100 30) Sample.three_children eq_refl) as H.
  split; apply H.
Defined.

(** C1 (as the specification has it) fails: no field of the sleigh
    specification holds the budget.  A table whose every entry is 1 still
    gives the budget 7. *)
Lemma budget_not_read_from_profile :
  ~ (exists key : string, forall children gifts rows self,
       init children gifts rows = Ok self ->
       exists v, _load_sleigh_specs rows !! key = Some v /\
                 (v == max_time_hours self)%Q).
Proof.
  intros [key Hkey].
  destruct (Hkey [] [] (Sample.sleigh 1 1 1 1) (Sample.make [] [] 1 1 1 1) eq_refl)
    as (v & Hv & Heq).
  simpl in Heq.
  assert (v = 1%Q) as ->.
  { unfold _load_sleigh_specs, Sample.sleigh in Hv. simpl in Hv.
    repeat (rewrite lookup_insert in Hv; case_decide; [congruence|]).
    by rewrite lookup_empty in Hv. }
  discriminate Heq.
Qed.

(** C2 (the code at a catalogue whose coal weighs nothing).  The loader
    divides the remaining weight by the per-unit weight; for coal of weight
    zero the quotient is infinite and [int] raises [OverflowError], which
    ends the run. *)
Theorem weightless_coal_raises :
  calculate_loading Sample.weightless_coal
    (assign_gifts Sample.weightless_coal) [1] = Raise OverflowError /\
  Sample.run Sample.weightless_coal = Some (Raise OverflowError).
Proof. split; vm_compute; reflexivity. Qed.



(** On the catalogue with a negative weight the loader loads nothing, so the
    run goes back to the depot again and again. *)
Lemma negative_weight_iteration r p t :
  exists t',
    loop_body Sample.taxicab Sample.negative_weight
      (assign_gifts Sample.negative_weight)
      {| route := r; unvisited := [1]; current_position := p;
         current_cargo := ∅; total_time := t; stdout := [] |}
    = Ok (Continue {| route := r ++ [Refuel ∅]; unvisited := [1];
                      current_position := NORTH_POLE; current_cargo := ∅;
                      total_time := t'; stdout := [] |}).
Proof. eexists. reflexivity. Qed.

Lemma negative_weight_never_returns fuel : forall r p t,
  while_unvisited Sample.taxicab Sample.negative_weight
    (assign_gifts Sample.negative_weight) fuel
    {| route := r; unvisited := [1]; current_position := p;
       current_cargo := ∅; total_time := t; stdout := [] |} = None.
Proof.
  induction fuel as [|fuel IH]; intros r p t; [done|].
  rewrite while_unvisited_step by done.
  destruct (negative_weight_iteration r p t) as [t' ->]. apply IH.
Qed.


(** C4 (the code at a sleigh for 1.7 kg and two articles of 0.6 kg and
    1.1 kg).  In binary64 the loader finds room for one unit of each (1.7 -
    0.6 is 1.1, and 1.1 / 1.1 is 1), so the first reload event of the route
    returned, which is the cargo from then on, holds both; they weigh more
    than the maximum weight, as the exact sum of the two doubles and as the
    running total the loader itself has accumulated. *)
Theorem reload_exceeds_maximum_weight :
  Float64.route <$> Float64.returned Float64.tight_fit
  = Some [Refuel {[ 1 := 1; 2 := 1 ]}; Delivery 1; Delivery 2; Refuel ∅] /\
  ~ within_capacity (exact_optimizer Float64.tight_fit) {[ 1 := 1; 2 := 1 ]} /\
  exists h,
    for_each (Float64.load_item Float64.tight_fit)
      {| Float64.loaded_articles := ∅; Float64.current_weight := PrimFloat.zero;
         Float64.current_volume := PrimFloat.zero |} [(1, 1); (2, 1)] = Ok h /\
    Float64.loaded_articles h = {[ 1 := 1; 2 := 1 ]} /\
    Float64.float_gt (Float64.current_weight h)
      (Float64.max_weight Float64.tight_fit) = true.
Proof.
  split; [vm_compute; reflexivity|]. split.
  - intros [Hweight _]. revert Hweight. vm_compute. intros H. by apply H.
  - eexists. split; [vm_compute; reflexivity|]. split; vm_compute; reflexivity.
Qed.

(** C5.  In the route a run returns, no recipient is delivered to twice. *)
Theorem delivered_at_most_once calculate_distance set_order self fuel final :
  optimize_route calculate_distance set_order self fuel = Some (Ok final) ->
  NoDup (deliveries (route final)).
Proof.
  intros H. apply optimize_route_Ok in H as (st & _ & Hexit & Hfin).
  apply finish_Ok in Hfin as (leg & _ & -> & _).
  rewrite deliveries_app. simpl. rewrite app_nil_r.
  by eapply deliveries_once_at_exit.
Qed.

Lemma delivered_at_most_once_witness :
  match Sample.run Sample.three_children with
  | Some (Ok final) =>
      deliveries (route final) = [1; 3; 2] /\ NoDup (deliveries (route final))
  | _ => False
  end.
Proof.
  destruct (Sample.run Sample.three_children) as [[final|e]|] eqn:E.
  - split; [|exact (delivered_at_most_once _ _ _ _ _ E)].
    vm_compute in E. injection E as <-. reflexivity.
  - vm_compute in E. discriminate E.
  - vm_compute in E. discriminate E.
Defined.

(** C6.  When every unvisited recipient has a row in the table and at least
    one of them is deliverable from the cargo, the scan selects a deliverable
    recipient at minimal distance from the current position, the first one in
    the enumeration order of the unvisited set among those at that distance;
    the iteration is the delivery to that recipient, and with a non-zero
    speed it appends that delivery to the route and removes the recipient
    from the unvisited set.  The selection is a function of the state, so
    equal inputs give equal routes. *)
Theorem nearest_deliverable_selected calculate_distance self df st :
  (forall c, c ∈ unvisited st -> is_Some (first_row df c)) ->
  (exists c, c ∈ unvisited st /\ deliverable df st c) ->
  exists c,
    nearest calculate_distance df st = Ok (Some c) /\
    first_nearest calculate_distance df st (unvisited st) c /\
    loop_body calculate_distance self df st
      = deliver calculate_distance self df st c /\
    (~ (speed_kmh self == 0)%Q ->
     exists st', loop_body calculate_distance self df st = Ok (Continue st') /\
       route st' = route st ++ [Delivery c] /\
       unvisited st' = filter (fun y => y ≠ c) (unvisited st)).
Proof.
  intros Hrows Hex.
  destruct (nearest_selects calculate_distance df st Hrows Hex) as [c Hbest].
  pose proof (nearest_Ok _ _ _ _ Hbest) as [_ Hnear].
  assert (loop_body calculate_distance self df st
          = deliver calculate_distance self df st c) as Hbody.
  { unfold loop_body. by rewrite Hbest. }
  exists c. split; [done|]. split; [done|]. split; [done|].
  intros Hspeed. rewrite Hbody.
  destruct Hnear as (i & Hi & Hdeliv & _).
  apply deliver_returns; [by eapply list_elem_of_lookup_2 | done..].
Qed.

Lemma nearest_deliverable_selected_witness :
  nearest Sample.taxicab (assign_gifts Sample.twins) Sample.twins_loaded
    = Ok (Some 2) /\
  first_nearest Sample.taxicab (assign_gifts Sample.twins) Sample.twins_loaded
    [2; 1] 2.
Proof.
  destruct (nearest_deliverable_selected Sample.taxicab Sample.twins
              (assign_gifts Sample.twins) Sample.twins_loaded)
    as (c & Hc & Hfirst & _).
  - intros c Hc. apply list_elem_of_In in Hc. simpl in Hc.
    destruct Hc as [<-|[<-|[]]]; eexists; vm_compute; reflexivity.
  - exists 2. split; [left|]. eexists. split; vm_compute; reflexivity.
  - assert (c = 2) as -> by (vm_compute in Hc; congruence).
    split; [exact Hc | exact Hfirst].
Defined.

(** C7 (the code at a sleigh for 0.4 kg, three recipients of one article of
    0.1 kg and one recipient of another article of 0.1 kg).  The four units
    weigh exactly the maximum weight, and the reference of the
    specification, run on the rationals the four doubles stand for, loads
    them all.  In binary64 the loader accumulates 0.30000000000000004 for
    the first three units, is left with less than 0.1, and loads no unit of
    the second article. *)
Theorem loader_leaves_fitting_unit :
  Float64.calculate_loading Float64.tenths (Float64.assign_gifts Float64.tenths)
    [1; 2; 3; 4] = Ok {[ 1 := 3 ]} /\
  Reference.loading (exact_optimizer Float64.tenths)
    (assign_gifts (exact_optimizer Float64.tenths)) [1; 2; 3; 4]
  = Some {[ 1 := 3; 2 := 1 ]} /\
  within_capacity (exact_optimizer Float64.tenths) {[ 1 := 3; 2 := 1 ]}.
Proof.
  split; [vm_compute; reflexivity|]. split; [vm_compute; reflexivity|].
  split; vm_compute; discriminate.
Qed.

(** C8.  A recipient whose resolved weight exceeds the maximum weight, or
    whose resolved volume exceeds the maximum volume, has no delivery event
    and at most one warning at any moment of the loop, is out of the
    unvisited set after every iteration that continues the loop, and in the
    run that returns it has no delivery event and exactly one warning among
    the printed lines. *)
Theorem too_big_never_delivered calculate_distance set_order self c :
  NoDup (set_order (map (fun r => child (row_child r)) (assign_gifts self))) ->
  c ∈ set_order (map (fun r => child (row_child r)) (assign_gifts self)) ->
  is_too_big self (assign_gifts self) c = true ->
  (forall st,
     in_loop calculate_distance set_order self st ->
     (Delivery c ∉ route st) /\
     (occurrences c (warned (stdout st)) <= 1)%nat) /\
  (forall st st',
     in_loop calculate_distance set_order self st -> unvisited st <> [] ->
     loop_body calculate_distance self (assign_gifts self) st = Ok (Continue st') ->
     c ∉ unvisited st') /\
  (forall fuel final,
     optimize_route calculate_distance set_order self fuel = Some (Ok final) ->
     (Delivery c ∉ route final) /\
     occurrences c (warned (stdout final)) = 1%nat).
Proof.
  intros Hnd Hc Hbig. split; [|split].
  - intros st Hin.
    destruct (too_big_in_loop _ _ _ Hnd c Hc Hbig st Hin)
      as (_ & Hr & [(_ & _ & ->)|[_ ->]]); split; (done || lia).
  - intros st st' Hin Hne Hbody.
    destruct (too_big_in_loop _ _ _ Hnd c Hc Hbig st Hin) as (_ & _ & IH).
    apply loop_body_Continue in Hbody
      as [(c' & row & cargo' & leg & Hnear & Hrow & Hc' & Hun & ->)
         |(_ & Hkept & leg & m & Hm & ->)]; simpl.
    + destruct IH as [(Hcu & Hcargo & _)|[Hcu _]].
      * apply unload_Ok in Hun as (n & Hn & _).
        rewrite Hcargo, lookup_empty in Hn. done.
      * by intros [_ ?]%list_elem_of_filter.
    + intros [? _]%list_elem_of_filter. done.
  - intros fuel final (st & _ & Hexit & Hfin)%optimize_route_Ok.
    destruct (too_big_at_exit _ _ _ Hnd c Hc Hbig st Hexit) as [Hr Hocc].
    apply finish_Ok in Hfin as (leg & _ & -> & _ & _ & _ & ->). split.
    + intros [Hd|[=]%list_elem_of_singleton]%elem_of_app. done.
    + rewrite warned_app, occurrences_app, Hocc. by destruct (float_gt _ _).
Qed.

Lemma too_big_never_delivered_witness :
  match Sample.run Sample.heavy_gift with
  | Some (Ok final) =>
      route final = [Refuel ∅] /\
      (Delivery 1 ∉ route final) /\
      occurrences 1 (warned (stdout final)) = 1%nat
  | _ => False
  end.
Proof.
  destruct (Sample.run Sample.heavy_gift) as [[final|e]|] eqn:E.
  - split; [vm_compute in E; injection E as <-; reflexivity|].
    refine (proj2 (proj2 (too_big_never_delivered Sample.taxicab remove_dups
                            Sample.heavy_gift 1 _ _ _)) 40%nat final E).
    + apply NoDup_remove_dups.
    + vm_compute. left.
    + vm_compute. reflexivity.
  - vm_compute in E. discriminate E.
  - vm_compute in E. discriminate E.
Defined.

(** C9.  Once the loop is over, and with a speed that is not zero, the
    code after the loop returns, whether or not the budget is exceeded: it
    hands back the route built by the loop with the closing reload
    appended.  The required-speed advisory is printed exactly when the
    elapsed time exceeds the budget, and the speed it reports is elapsed
    time / budget * speed. *)
Theorem budget_advisory calculate_distance set_order self fuel st :
  while_unvisited calculate_distance self (assign_gifts self) fuel
    (initial_state set_order (assign_gifts self)) = Some (Ok st) ->
  ~ (speed_kmh self == 0)%Q ->
  exists final,
    optimize_route calculate_distance set_order self fuel = Some (Ok final) /\
    route final = route st ++ [Refuel ∅] /\
    forall kmh,
      RequiredSpeed kmh ∈ stdout final <->
      (max_time_hours self < total_time final)%Q /\
      kmh = (total_time final / max_time_hours self * speed_kmh self)%Q.
Proof.
  intros Hloop Hnz.
  assert (loop_exit calculate_distance set_order self st) as Hexit.
  { eapply while_unvisited_exit; [apply loop_start | exact Hloop]. }
  unfold optimize_route. rewrite Hloop.
  destruct (finish calculate_distance self st) as [final|e] eqn:Hfin.
  2:{ unfold finish in Hfin. rewrite py_truediv_returns in Hfin by done.
      discriminate Hfin. }
  exists final. split; [done|].
  apply finish_Ok in Hfin as (leg & _ & Hroute & _ & _ & _ & Hout).
  split; [done|]. intros kmh. rewrite Hout, elem_of_app.
  destruct (float_gt _ _) eqn:E.
  - apply float_gt_Fin in E. split.
    + intros [Hin|Hin].
      * apply (stdout_at_exit _ _ _ _ Hexit) in Hin as [c [=]].
      * apply elem_of_cons in Hin as [[=]|Hin].
        apply list_elem_of_singleton in Hin as [= ->]. done.
    + intros [_ ->]. right. right. left.
  - assert (~ (max_time_hours self < total_time final)%Q) as Hnot.
    { intros Hlt. apply float_gt_Fin in Hlt. congruence. }
    split; [|tauto].
    intros [Hin|Hin].
    + apply (stdout_at_exit _ _ _ _ Hexit) in Hin as [c [=]].
    + apply list_elem_of_singleton in Hin as [=].
Qed.

Lemma budget_advisory_witness :
  exists final,
    Sample.run Sample.slow_sleigh = Some (Ok final) /\
    (max_time_hours Sample.slow_sleigh < total_time final)%Q /\
    route final = [Refuel {[ 1 := 1 ]}; Delivery 1; Refuel ∅] /\
    RequiredSpeed (total_time final / (7 # 1) * 1)%Q ∈ stdout final.
Proof.
  destruct (while_unvisited Sample.taxicab Sample.slow_sleigh
              (assign_gifts Sample.slow_sleigh) 40
              (initial_state remove_dups (assign_gifts Sample.slow_sleigh)))
    as [[st|e]|] eqn:E; [|vm_compute in E; discriminate E..].
  destruct (budget_advisory Sample.taxicab remove_dups Sample.slow_sleigh 40 st E)
    as (final & Hrun & Hroute & Hadv).
  - vm_compute. discriminate.
  - exists final. split; [exact Hrun|].
    assert (max_time_hours Sample.slow_sleigh < total_time final)%Q as Hlt.
    { unfold Sample.run in Hrun. vm_compute in Hrun. injection Hrun as <-.
      reflexivity. }
    split; [exact Hlt|]. split.
    + rewrite Hroute. vm_compute in E. injection E as <-. reflexivity.
    + apply Hadv. split; [exact Hlt | reflexivity].
Defined.

(** C10.  The route a run returns ends with one reload event with an empty
    manifest, appended after the loop.  When every recipient whose article
    fits the empty sleigh has a positive per-unit weight and volume, every
    reload event before it has a manifest with at least one unit of some
    article, and the event that follows it is a delivery. *)
Theorem closing_reload_and_mid_route_reloads
    calculate_distance set_order self fuel final :
  optimize_route calculate_distance set_order self fuel = Some (Ok final) ->
  exists r,
    route final = r ++ [Refuel ∅] /\
    (fitting_footprints_positive self ->
     forall i m, r !! i = Some (Refuel m) ->
       m <> ∅ /\ (exists a n, m !! a = Some n /\ 0 < n) /\
       exists c, r !! S i = Some (Delivery c)).
Proof.
  intros (st & _ & Hexit & Hfin)%optimize_route_Ok.
  apply finish_Ok in Hfin as (leg & _ & -> & _).
  exists (route st). split; [done|]. intros Hfit i m Hi.
  destruct (reloads_at_exit _ _ _ Hfit st Hexit i m Hi) as [(a & n & Han & Hn) Hnext].
  split; [|split; [by exists a, n | done]].
  intros ->. by rewrite lookup_empty in Han.
Qed.

Lemma closing_reload_and_mid_route_reloads_witness :
  match Sample.run Sample.three_children with
  | Some (Ok final) =>
      exists r, route final = r ++ [Refuel ∅] /\
        forall i m, r !! i = Some (Refuel m) ->
          m <> ∅ /\ exists c, r !! S i = Some (Delivery c)
  | _ => False
  end.
Proof.
  destruct (Sample.run Sample.three_children) as [[final|e]|] eqn:E.
  - destruct (closing_reload_and_mid_route_reloads _ _ _ _ _ E) as (r & Hr & Hmid).
    exists r. split; [exact Hr|]. intros i m Hi.
    destruct (Hmid) with (i := i) (m := m) as (Hne & _ & Hnext); [|exact Hi|by split].
    intros c g Hc Hg _ _. apply list_elem_of_In in Hc. simpl in Hc.
    destruct Hc as [<-|[<-|[<-|[]]]]; vm_compute in Hg; injection Hg as <-;
      split; reflexivity.
  - vm_compute in E. discriminate E.
  - vm_compute in E. discriminate E.
Defined.

(** ** Concrete runs *)

Example three_children_first_reload :
  calculate_loading Sample.three_children (assign_gifts Sample.three_children) [1; 2; 3]
  = Ok {[ 0 := 1; 1 := 1 ]}.
Proof. vm_compute. reflexivity. Qed.

Example three_children_reference :
  Reference.loading Sample.three_children (assign_gifts Sample.three_children) [1; 2; 3]
  = Some {[ 0 := 1; 1 := 1 ]}.
Proof. vm_compute. reflexivity. Qed.

Example weightless_coal_reference :
  Reference.loading Sample.weightless_coal (assign_gifts Sample.weightless_coal) [1]
  = Some {[ 0 := 1 ]}.
Proof. vm_compute. reflexivity. Qed.

Example three_children_route :
  route <$> Sample.returned Sample.three_children
  = Some [Refuel {[ 0 := 1; 1 := 1 ]}; Delivery 1; Delivery 3;
          Refuel {[ 1 := 1 ]}; Delivery 2; Refuel ∅].
Proof. vm_compute. reflexivity. Qed.

Example heavy_gift_run :
  (fun st => (route st, warned (stdout st))) <$> Sample.returned Sample.heavy_gift
  = Some ([Refuel ∅], [1]).
Proof. vm_compute. reflexivity. Qed.

(** In binary64 the quotient of a large maximum weight by a small positive
    weight is an infinity, and [int()] raises. *)
Example featherweight_overflows :
  Float64.run Float64.featherweight = Some (Raise OverflowError).
Proof. vm_compute. reflexivity. Qed.

(** The run of C7 in full: the unit left behind costs a second trip. *)
Example tenths_route :
  Float64.route <$> Float64.returned Float64.tenths
  = Some [Refuel {[ 1 := 3 ]}; Delivery 1; Delivery 2; Delivery 3;
          Refuel {[ 2 := 1 ]}; Delivery 4; Refuel ∅].
Proof. vm_compute. reflexivity. Qed.

(** * Further properties of the code *)

(** ** The sleigh specification and the constructor *)

Lemma load_sleigh_specs_snoc rows r :
  _load_sleigh_specs (rows ++ [r]) = <[r.1 := r.2]> (_load_sleigh_specs rows).
Proof. unfold _load_sleigh_specs. by rewrite foldl_app. Qed.

(** X1.  The dictionary built from the rows of the sleigh specification maps
    a key to the value of the last row with that key, and has no entry for a
    key that no row has. *)
Theorem load_sleigh_specs_last_wins rows key :
  _load_sleigh_specs rows !! key
  = snd <$> last (filter (fun r : string * Q => r.1 = key) rows).
Proof.
  induction rows as [|r rows IH] using rev_ind; [done|].
  rewrite load_sleigh_specs_snoc, filter_app, filter_cons, filter_nil.
  destruct (decide (r.1 = key)) as [<-|Hne].
  - by rewrite lookup_insert_eq, last_snoc.
  - by rewrite lookup_insert_ne, app_nil_r.
Qed.

Lemma load_sleigh_specs_is_Some rows key :
  is_Some (_load_sleigh_specs rows !! key) <-> key ∈ rows.*1.
Proof.
  rewrite load_sleigh_specs_last_wins, fmap_is_Some. split.
  - intros [r Hr]. apply last_Some_elem_of, list_elem_of_filter in Hr as [<- Hr].
    apply list_elem_of_fmap. by exists r.
  - intros (r & -> & Hr)%list_elem_of_fmap.
    destruct (last (filter (fun r0 : string * Q => r0.1 = r.1) rows)) eqn:E; [done|].
    apply last_None in E.
    assert (r ∈ filter (fun r0 : string * Q => r0.1 = r.1) rows) as Hin
      by (by apply list_elem_of_filter).
    rewrite E in Hin. by apply not_elem_of_nil in Hin.
Qed.

Lemma dict_get_Raise {K V} `{Countable K} (d : gmap K V) k e :
  dict_get d k = Raise e <-> d !! k = None /\ e = KeyError.
Proof.
  unfold dict_get. destruct (d !! k); split.
  - discriminate.
  - by intros [? _].
  - by intros [= <-].
  - by intros [_ ->].
Qed.

(** X2.  The constructor returns exactly when the four keys it reads all
    occur in the sleigh specification; when one is missing it raises
    [KeyError], and no other exception. *)
Theorem init_returns_or_KeyError children gifts rows :
  match init children gifts rows with
  | Ok self => Forall (fun key => key ∈ rows.*1) required_keys
  | Raise e => e = KeyError /\ Exists (fun key => key ∉ rows.*1) required_keys
  end.
Proof.
  unfold init, required_keys.
  repeat match goal with
  | |- context [dict_get (_load_sleigh_specs rows) ?k] =>
      let E := fresh "E" in
      destruct (dict_get (_load_sleigh_specs rows) k) as [?|?] eqn:E;
      [apply dict_get_Ok in E;
       assert (k ∈ rows.*1) by (apply load_sleigh_specs_is_Some; by eexists)
      |apply dict_get_Raise in E as [E ->];
       assert (k ∉ rows.*1)
         by (rewrite <- load_sleigh_specs_is_Some, E; by intros [? ?])];
      cbn [mbind result_bind]
  end;
  repeat first [done | split | constructor 1; done | constructor 2].
Qed.

(** ** assign_gifts *)

Lemma gifts_with_unique gifts a :
  NoDup (article <$> gifts) -> (length (gifts_with gifts a) <= 1)%nat.
Proof.
  unfold gifts_with. induction gifts as [|g gifts IH]; intros Hnd; [simpl; lia|].
  apply NoDup_cons in Hnd as [Hg Hnd]. rewrite filter_cons.
  destruct (decide (article g = a)) as [<-|Hne]; [|by apply IH].
  assert (filter (fun g0 => article g0 = article g) gifts = []) as ->.
  { destruct (filter _ gifts) as [|g' l] eqn:E; [done|]. exfalso. apply Hg.
    assert (g' ∈ filter (fun g0 => article g0 = article g) gifts) as Hin
      by (rewrite E; left).
    apply list_elem_of_filter in Hin as [<- Hin]. apply list_elem_of_fmap. eauto. }
  simpl. lia.
Qed.

Lemma merge_left_unique gifts c :
  NoDup (article <$> gifts) -> merge_left gifts c = [merged_row_of gifts c].
Proof.
  intros Hnd. pose proof (gifts_with_unique gifts (assign_article c) Hnd) as Hlen.
  unfold merge_left, merged_row_of.
  destruct (gifts_with gifts (assign_article c)) as [|g [|g' l]]; simpl in *;
    [done | done | lia].
Qed.

(** X3.  When no article id occurs twice in the catalogue, [assign_gifts]
    keeps the children table row for row and in order: each child gets one
    row, with coal for a naughty child and the wish otherwise, and with the
    weight and volume of that article (NaN when the catalogue does not have
    it). *)
Theorem assign_gifts_row_for_row self :
  NoDup (article <$> gifts_df self) ->
  assign_gifts self = merged_row_of (gifts_df self) <$> children_df self.
Proof.
  intros Hnd. unfold assign_gifts.
  induction (children_df self) as [|c l IH]; [done|].
  simpl. by rewrite merge_left_unique, IH.
Qed.

Lemma assign_gifts_row_for_row_witness :
  row_child <$> assign_gifts Sample.three_children
  = children_df Sample.three_children /\
  assigned_article <$> assign_gifts Sample.three_children = [1; 1; 0].
Proof.
  rewrite (assign_gifts_row_for_row Sample.three_children).
  - split; reflexivity.
  - apply (bool_decide_unpack _). vm_compute. exact I.
Defined.

(** ** The loader: what it loads at most *)

Section LoaderBounds.

Variable self : optimizer.
Variable df : list merged_row.

Lemma load_items_bounded items : forall h h',
  for_each (load_item self) h items = Ok h' ->
  forall a n, loaded_articles h' !! a = Some n ->
    loaded_articles h !! a = Some n \/ exists k, (a, k) ∈ items /\ 0 < n <= k.
Proof.
  induction items as [|[b k] items IH]; intros h h' H a n Ha; simpl in H.
  - injection H as <-. by left.
  - inv_bind H. rename x into h1.
    destruct (IH h1 h' H a n Ha) as [Hh1|(k' & Hk' & Hn)].
    2:{ right. exists k'. split; [by right | done]. }
    apply load_item_Ok in Hx as (g & _ & _ & _ & ->). simpl in Hh1.
    case_decide as Hunits; [|by left]. simpl in Hh1.
    destruct (decide (b = a)) as [->|Hne].
    + rewrite lookup_insert_eq in Hh1. injection Hh1 as <-.
      right. exists k. split; [left | lia].
    + rewrite lookup_insert_ne in Hh1 by done. by left.
Qed.

(** The loader loads of no article more units than recipients need it. *)
Lemma calculate_loading_bounded u m a n :
  calculate_loading self df u = Ok m -> m !! a = Some n ->
  0 < n <= Reference.demand df u a.
Proof.
  intros (needed & h & Htally & Hload & ->)%calculate_loading_Ok Ha.
  apply tally_Ok in Htally as [_ Hneeded].
  destruct (load_items_bounded _ _ _ Hload a n Ha) as [Hempty|(k & Hk & Hn)].
  { simpl in Hempty. by rewrite lookup_empty in Hempty. }
  rewrite merge_sort_Permutation in Hk. apply elem_of_map_to_list in Hk.
  rewrite Hneeded in Hk. case_decide as Hd; [|done]. by injection Hk as <-.
Qed.

(** X4.  The manifest the loader returns holds only articles that some
    unvisited recipient needs, and of each no more units than recipients
    that need it. *)
Theorem loader_loads_at_most_demand u m a n :
  calculate_loading self df u = Ok m -> m !! a = Some n ->
  0 < n <= Reference.demand df u a /\
  exists c row, c ∈ u /\ first_row df c = Some row /\ assigned_article row = a.
Proof.
  intros Hm Ha. pose proof (calculate_loading_bounded u m a n Hm Ha) as Hn.
  split; [done|].
  assert (0 < Reference.demand df u a) as Hd by lia.
  apply demand_pos in Hd as (c & Hc & Hai).
  unfold Reference.assigned_item in Hai.
  destruct (first_row df c) as [row|] eqn:Hrow; [|done].
  injection Hai as <-. by exists c, row.
Qed.

End LoaderBounds.

Lemma loader_loads_at_most_demand_witness :
  0 < 1 <= Reference.demand (assign_gifts Sample.three_children) [1; 2; 3] 1.
Proof.
  refine (proj1 (loader_loads_at_most_demand Sample.three_children
                   (assign_gifts Sample.three_children) [1; 2; 3]
                   {[ 0 := 1; 1 := 1 ]} 1 1 _ _)).
  - vm_compute. reflexivity.
  - vm_compute. reflexivity.
Defined.

(** ** The cargo along a run *)

Section OnBoard.

Variable calculate_distance : coords -> coords -> Q.
Variable set_order : list Z -> list Z.
Variable self : optimizer.

Lemma cargo_positive_in_loop st :
  in_loop calculate_distance set_order self st ->
  forall a n, current_cargo st !! a = Some n -> 0 < n.
Proof.
  induction 1 as [|st st' Hin IH Hne Hbody]; intros a n Ha.
  - simpl in Ha. by rewrite lookup_empty in Ha.
  - apply loop_body_Continue in Hbody
      as [(c & row & cargo' & leg & _ & _ & _ & Hun & ->)
         |(_ & _ & leg & m & Hm & ->)]; simpl in Ha.
    + apply unload_Ok in Hun as (k & Hk & ->). pose proof (IH _ _ Hk) as Hkpos.
      case_decide.
      * apply lookup_delete_Some in Ha as [_ Ha]. by eapply IH.
      * destruct (decide (assigned_article row = a)) as [<-|Hneq].
        -- rewrite lookup_insert_eq in Ha. injection Ha as <-. lia.
        -- rewrite lookup_insert_ne in Ha by done. by eapply IH.
    + apply calculate_loading_Ok in Hm as (needed & h & _ & Hload & ->).
      eapply load_items_positive; [|exact Hload|exact Ha].
      intros b k Hb. simpl in Hb. by rewrite lookup_empty in Hb.
Qed.

Hypothesis set_order_NoDup :
  NoDup (set_order (map (fun r => child (row_child r)) (assign_gifts self))).
Hypothesis set_order_sub : forall c,
  c ∈ set_order (map (fun r => child (row_child r)) (assign_gifts self)) ->
  c ∈ map (fun r => child (row_child r)) (assign_gifts self).

Lemma enumerated_in_loop st :
  in_loop calculate_distance set_order self st -> enumerated self st.
Proof.
  induction 1 as [|st st' Hin IH Hne Hbody].
  - split; [done|]. intros c Hc. apply first_row_is_Some. by apply set_order_sub.
  - apply loop_body_Continue in Hbody
      as [(c & row & cargo' & leg & _ & _ & _ & _ & ->)
         |(_ & _ & leg & m & _ & ->)]; by eapply enumerated_filter.
Qed.

Lemma length_filter_remove (P : Z -> Prop) `{!forall x, Decision (P x)} u c :
  NoDup u -> c ∈ u ->
  length (filter P u)
  = (length (filter P (filter (fun y => y ≠ c) u))
     + (if decide (P c) then 1 else 0))%nat.
Proof.
  induction 1 as [|x u Hx Hnd IH]; intros Hc; [by apply not_elem_of_nil in Hc|].
  apply elem_of_cons in Hc as [->|Hc].
  - rewrite (filter_cons_False (fun y => y ≠ x)) by (intros Hxx; by apply Hxx).
    assert (filter (fun y => y ≠ x) u = u) as ->.
    { clear IH Hnd. induction u as [|y u IH]; [done|].
      apply not_elem_of_cons in Hx as [Hxy Hx].
      rewrite filter_cons_True by done. by rewrite IH. }
    rewrite filter_cons. destruct (decide (P x)); cbn [length]; lia.
  - rewrite (filter_cons_True (fun y => y ≠ c)) by (intros ->; done).
    rewrite !filter_cons. destruct (decide (P x)); cbn [length]; rewrite (IH Hc); lia.
Qed.

(** Removing a recipient from a set lowers the demand for its article by
    one and no other demand. *)
Lemma demand_remove df u c a0 a :
  NoDup u -> c ∈ u -> Reference.assigned_item df c = Some a0 ->
  Reference.demand df (filter (fun y => y ≠ c) u) a
  = Reference.demand df u a - (if decide (a = a0) then 1 else 0).
Proof.
  intros Hnd Hc Hai. unfold Reference.demand.
  rewrite (length_filter_remove _ u c Hnd Hc).
  destruct (decide (Reference.assigned_item df c = Some a)) as [Heq|Hne].
  - rewrite decide_True by congruence. lia.
  - rewrite decide_False by congruence. lia.
Qed.

(** Of every article on board there are at most as many units as unvisited
    recipients that need it. *)
Lemma cargo_demanded_in_loop st :
  in_loop calculate_distance set_order self st ->
  forall a n, current_cargo st !! a = Some n ->
    0 < n <= Reference.demand (assign_gifts self) (unvisited st) a.
Proof.
  induction 1 as [|st st' Hin IH Hne Hbody]; intros a n Ha.
  - simpl in Ha. by rewrite lookup_empty in Ha.
  - pose proof (enumerated_in_loop st Hin) as [Hnd _].
    apply loop_body_Continue in Hbody
      as [(c & row & cargo' & leg & _ & Hrow & Hc & Hun & ->)
         |(_ & _ & leg & m & Hm & ->)]; simpl in *.
    + assert (Reference.assigned_item (assign_gifts self) c
              = Some (assigned_article row)) as Hai.
      { unfold Reference.assigned_item. by rewrite Hrow. }
      rewrite (demand_remove _ _ c (assigned_article row) a Hnd Hc Hai).
      apply unload_Ok in Hun as (k & Hk & ->). pose proof (IH _ _ Hk) as Hkb.
      case_decide.
      * apply lookup_delete_Some in Ha as [Hneq Ha].
        rewrite decide_False by done. specialize (IH _ _ Ha). lia.
      * destruct (decide (assigned_article row = a)) as [<-|Hneq].
        -- rewrite lookup_insert_eq in Ha. injection Ha as <-.
           rewrite decide_True by done. lia.
        -- rewrite lookup_insert_ne in Ha by done.
           rewrite decide_False by done. specialize (IH _ _ Ha). lia.
    + by eapply calculate_loading_bounded.
Qed.

(** When nothing on board is deliverable, nothing is on board. *)
Lemma nothing_deliverable_nothing_on_board st :
  in_loop calculate_distance set_order self st ->
  (forall c, c ∈ unvisited st -> ~ deliverable (assign_gifts self) st c) ->
  current_cargo st = ∅.
Proof.
  intros Hin Hnone. apply map_empty. intros a.
  destruct (current_cargo st !! a) as [n|] eqn:Ha; [exfalso|done].
  pose proof (cargo_demanded_in_loop st Hin a n Ha) as Hn.
  assert (0 < Reference.demand (assign_gifts self) (unvisited st) a) as Hd by lia.
  apply demand_pos in Hd as (c & Hc & Hai).
  unfold Reference.assigned_item in Hai.
  destruct (first_row (assign_gifts self) c) as [row|] eqn:Hrow; [|done].
  injection Hai as <-. apply (Hnone c Hc). exists row. split; [done|].
  apply can_deliver_lookup. exists n. split; [done | lia].
Qed.

Lemma replay_snoc df route stop :
  replay df (route ++ [stop])
  = replay df route ≫= fun on_board => replay_stop df on_board stop.
Proof. unfold replay. by rewrite foldl_app. Qed.

Lemma replay_in_loop st :
  in_loop calculate_distance set_order self st ->
  replay (assign_gifts self) (route st) = Some (current_cargo st).
Proof.
  induction 1 as [|st st' Hin IH Hne Hbody]; [done|].
  pose proof (nothing_deliverable_nothing_on_board st Hin) as Hempty.
  apply loop_body_Continue in Hbody
    as [(c & row & cargo' & leg & _ & Hrow & _ & Hun & ->)
       |(Hnone & _ & leg & m & _ & ->)]; simpl;
    rewrite replay_snoc, IH; simpl.
  - by rewrite Hrow; simpl; rewrite Hun.
  - by rewrite decide_True by (by apply Hempty).
Qed.

Lemma cargo_empty_at_exit st :
  loop_exit calculate_distance set_order self st ->
  current_cargo st = ∅ /\
  replay (assign_gifts self) (route st) = Some ∅.
Proof.
  intros [st0 Hin Hu|st0 st' Hin Hne Hbody].
  - assert (current_cargo st0 = ∅) as Hc.
    { apply nothing_deliverable_nothing_on_board; [done|].
      rewrite Hu. intros c Hc. by apply not_elem_of_nil in Hc. }
    split; [done|]. rewrite <- Hc. by apply replay_in_loop.
  - apply loop_body_Break in Hbody as (Hnone & _ & ->). simpl.
    assert (current_cargo st0 = ∅) as Hc
      by (by apply nothing_deliverable_nothing_on_board).
    split; [done|]. rewrite <- Hc. by apply replay_in_loop.
Qed.

(** An iteration keeps a state with an empty reload on its route as it is:
    the unvisited set is not empty, nothing is on board and the loader loads
    nothing for that set. *)
Lemma empty_reload_stuck st :
  in_loop calculate_distance set_order self st ->
  Refuel ∅ ∈ route st ->
  unvisited st <> [] /\ current_cargo st = ∅ /\
  kept self (assign_gifts self) (unvisited st) = unvisited st /\
  calculate_loading self (assign_gifts self) (unvisited st) = Ok ∅.
Proof.
  assert (forall u, kept self (assign_gifts self) (kept self (assign_gifts self) u)
                    = kept self (assign_gifts self) u) as Hidem.
  { intros u. unfold kept. rewrite list_filter_filter.
    apply list_filter_iff. tauto. }
  induction 1 as [|st st' Hin IH Hne Hbody]; intros Hroute.
  - by apply not_elem_of_nil in Hroute.
  - apply loop_body_Continue in Hbody
      as [(c & row & cargo' & leg & _ & _ & _ & Hun & ->)
         |(_ & Hkept & leg & m & Hm & ->)]; simpl in *.
    + apply elem_of_app in Hroute as [Hroute|[=]%list_elem_of_singleton].
      destruct (IH Hroute) as (_ & Hcargo & _).
      apply unload_Ok in Hun as (n & Hn & _).
      by rewrite Hcargo, lookup_empty in Hn.
    + apply elem_of_app in Hroute as [Hroute|[= <-]%list_elem_of_singleton].
      * destruct (IH Hroute) as (_ & _ & Hk & Hload).
        rewrite Hk in Hm |- *. assert (m = ∅) as -> by congruence. done.
      * rewrite Hidem. done.
Qed.

Lemma no_empty_reload_at_exit st :
  loop_exit calculate_distance set_order self st -> Refuel ∅ ∉ route st.
Proof.
  intros [st0 Hin Hu|st0 st' Hin Hne Hbody] Hroute.
  - by destruct (empty_reload_stuck st0 Hin Hroute) as [? _].
  - apply loop_body_Break in Hbody as (_ & Hkept & ->). simpl in Hroute.
    destruct (empty_reload_stuck st0 Hin Hroute) as (? & _ & Hk & _). congruence.
Qed.

End OnBoard.

Lemma replay_app df l1 l2 :
  replay df (l1 ++ l2)
  = foldl (fun cargo stop => cargo ≫= fun on_board => replay_stop df on_board stop)
      (replay df l1) l2.
Proof. unfold replay. by rewrite foldl_app. Qed.

Lemma replay_None df l :
  foldl (fun cargo stop => cargo ≫= fun on_board => replay_stop df on_board stop)
    None l = None.
Proof. induction l as [|e l IH]; [done|]. simpl. exact IH. Qed.

(** In a route that can be carried out and leaves nothing on board, a reload
    that is not empty is followed by a delivery. *)
Lemma replay_reload_followed df r i m :
  replay df r = Some ∅ -> r !! i = Some (Refuel m) -> m <> ∅ ->
  exists c, r !! S i = Some (Delivery c).
Proof.
  intros Hreplay Hi Hm.
  rewrite <- (take_drop_middle r i (Refuel m) Hi) in Hreplay.
  rewrite cons_middle, app_assoc, replay_app, replay_snoc in Hreplay.
  destruct (replay df (take i r)) as [cargo|]; [|by rewrite replay_None in Hreplay].
  simpl in Hreplay. case_decide; [|by rewrite replay_None in Hreplay].
  destruct (drop (S i) r) as [|e rest] eqn:Hdrop.
  { simpl in Hreplay. congruence. }
  assert (r !! S i = Some e) as He.
  { rewrite <- (Nat.add_0_r (S i)), <- lookup_drop, Hdrop. done. }
  destruct e as [c|m']; [by exists c|].
  simpl in Hreplay. rewrite decide_False in Hreplay by done.
  by rewrite replay_None in Hreplay.
Qed.

(** In a list of stops in which a delivery follows every reload there are at
    most as many reloads as deliveries. *)
Lemma reloads_at_most_deliveries (r : list event) :
  (forall i m, r !! i = Some (Refuel m) -> exists c, r !! S i = Some (Delivery c)) ->
  (length (filter (fun s => is_delivery s = false) r)
   <= length (filter (fun s => is_delivery s = true) r))%nat.
Proof.
  remember (length r) as k eqn:Hk. revert r Hk.
  induction k as [k IH] using lt_wf_ind. intros r -> Hnext.
  destruct r as [|[c|m] r]; [done| |].
  - rewrite !filter_cons. simpl.
    assert (length (filter (fun s => is_delivery s = false) r)
            <= length (filter (fun s => is_delivery s = true) r))%nat; [|lia].
    apply (IH (length r)); [simpl; lia | done |].
    intros i m Hi. apply (Hnext (S i) m Hi).
  - destruct (Hnext 0%nat m eq_refl) as [c Hc]. destruct r as [|e r]; [done|].
    injection Hc as ->.
    rewrite !filter_cons. simpl.
    assert (length (filter (fun s => is_delivery s = false) r)
            <= length (filter (fun s => is_delivery s = true) r))%nat; [|lia].
    apply (IH (length r)); [simpl; lia | done |].
    intros i m' Hi. apply (Hnext (S (S i)) m' Hi).
Qed.

(** X6.  An iteration that appends a delivery does so for an unvisited
    recipient of whose article at least one unit is on board; it removes the
    recipient from the unvisited set and takes exactly one unit of that
    article off the cargo, dropping the entry when it was the last unit. *)
Theorem delivery_takes_one_unit calculate_distance self df st st' c :
  loop_body calculate_distance self df st = Ok (Continue st') ->
  route st' = route st ++ [Delivery c] ->
  exists row n,
    first_row df c = Some row /\ c ∈ unvisited st /\ (c ∉ unvisited st') /\
    current_cargo st !! assigned_article row = Some n /\ 0 < n /\
    current_cargo st'
    = if decide (n = 1) then delete (assigned_article row) (current_cargo st)
      else <[assigned_article row := n - 1]> (current_cargo st).
Proof.
  intros Hbody Hroute.
  apply loop_body_Continue in Hbody
    as [(c' & row & cargo' & leg & Hnear & Hrow & Hc & Hun & ->)
       |(_ & _ & leg & m & _ & ->)]; simpl in Hroute.
  - apply app_inj_tail in Hroute as [_ [= ->]].
    destruct Hnear as (_ & _ & (row' & Hrow' & Hcan) & _).
    assert (row' = row) as -> by congruence.
    apply can_deliver_lookup in Hcan as (n & Hn & Hpos).
    apply unload_Ok in Hun as (n' & Hn' & ->).
    assert (n' = n) as -> by congruence.
    exists row, n. simpl. split_and!; [done | done | | done | done |].
    + by intros [? _]%list_elem_of_filter.
    + destruct (decide (n - 1 = 0)), (decide (n = 1)); (done || lia).
  - by apply app_inj_tail in Hroute as [_ [=]].
Qed.

Lemma delivery_takes_one_unit_witness :
  exists st',
    loop_body Sample.taxicab Sample.twins (assign_gifts Sample.twins)
      Sample.twins_loaded = Ok (Continue st') /\
    current_cargo st' = <[1 := 1]> {[ 1 := 2 ]}.
Proof.
  destruct (loop_body Sample.taxicab Sample.twins (assign_gifts Sample.twins)
              Sample.twins_loaded) as [[st'|st']|e] eqn:E;
    [|vm_compute in E; discriminate E..].
  exists st'. split; [reflexivity|].
  destruct (delivery_takes_one_unit _ _ _ _ _ 2 E) as (row & n & Hrow & _ & _ & Hn & _ & ->).
  - vm_compute in E. injection E as <-. reflexivity.
  - vm_compute in Hrow. injection Hrow as <-.
    vm_compute in Hn. injection Hn as <-. reflexivity.
Defined.

(** X7.  When the set of recipient ids is enumerated without repetition and
    holds only ids of the table, of every article on board there are at any
    moment of the loop at most as many units as unvisited recipients that
    need it; the route built so far can be carried out from the depot with an
    empty sleigh (every reload finds the sleigh empty, every delivery finds a
    unit of its article on board) and leaves the current cargo on board; the
    route returned leaves nothing on board. *)
Theorem route_can_be_carried_out calculate_distance set_order self :
  let ids := map (fun r => child (row_child r)) (assign_gifts self) in
  NoDup (set_order ids) ->
  (forall c, c ∈ set_order ids -> c ∈ ids) ->
  (forall st,
     in_loop calculate_distance set_order self st ->
     replay (assign_gifts self) (route st) = Some (current_cargo st) /\
     forall a n, current_cargo st !! a = Some n ->
       0 < n <= Reference.demand (assign_gifts self) (unvisited st) a) /\
  (forall fuel final,
     optimize_route calculate_distance set_order self fuel = Some (Ok final) ->
     current_cargo final = ∅ /\
     replay (assign_gifts self) (route final) = Some ∅).
Proof.
  intros ids Hnd Hsub. split.
  - intros st Hin. split.
    + by apply (replay_in_loop calculate_distance set_order self Hnd Hsub).
    + by apply (cargo_demanded_in_loop calculate_distance set_order self Hnd Hsub).
  - intros fuel final (st & _ & Hexit & Hfin)%optimize_route_Ok.
    destruct (cargo_empty_at_exit _ _ _ Hnd Hsub st Hexit) as [Hc Hr].
    apply finish_Ok in Hfin as (leg & _ & -> & _ & -> & _).
    split; [done|]. rewrite replay_snoc, Hr. done.
Qed.

Lemma route_can_be_carried_out_witness :
  match Sample.run Sample.three_children with
  | Some (Ok final) =>
      replay (assign_gifts Sample.three_children) (route final) = Some ∅
  | _ => False
  end.
Proof.
  destruct (Sample.run Sample.three_children) as [[final|e]|] eqn:E;
    [|vm_compute in E; discriminate E..].
  refine (proj2 (proj2 (route_can_be_carried_out Sample.taxicab remove_dups
                          Sample.three_children _ _) 40%nat final E)).
  - apply NoDup_remove_dups.
  - intros c. apply elem_of_remove_dups.
Defined.

(** X8.  Whatever the footprints in the catalogue, the route a run returns
    has one reload event with an empty manifest, its last event: a reload
    that loads nothing in the loop keeps the loop from ending. *)
Theorem one_empty_reload calculate_distance set_order self fuel final :
  optimize_route calculate_distance set_order self fuel = Some (Ok final) ->
  exists r, route final = r ++ [Refuel ∅] /\ (Refuel ∅ ∉ r) /\
    forall m, Refuel m ∈ r -> exists a n, m !! a = Some n /\ 0 < n.
Proof.
  intros (st & _ & Hexit & Hfin)%optimize_route_Ok.
  apply finish_Ok in Hfin as (leg & _ & -> & _).
  exists (route st). split; [done|].
  pose proof (no_empty_reload_at_exit _ _ _ st Hexit) as Hnone.
  split; [done|]. intros m Hm.
  destruct (map_choose_or_empty m) as [(a & n & Han)| ->]; [|done].
  exists a, n. split; [done|].
  assert (forall st0, in_loop calculate_distance set_order self st0 ->
            forall m0, Refuel m0 ∈ route st0 ->
              forall a0 n0, m0 !! a0 = Some n0 -> 0 < n0) as Hpos.
  { induction 1 as [|st0 st1 Hin IH Hne Hbody]; intros m0 Hm0 a0 n0 Ha0.
    - by apply not_elem_of_nil in Hm0.
    - apply loop_body_Continue in Hbody
        as [(c & row & cargo' & leg' & _ & _ & _ & _ & ->)
           |(_ & _ & leg' & m1 & Hm1 & ->)]; simpl in Hm0.
      + apply elem_of_app in Hm0 as [Hm0|[=]%list_elem_of_singleton]. by eapply IH.
      + apply elem_of_app in Hm0 as [Hm0|[= ->]%list_elem_of_singleton];
          [by eapply IH|].
        apply calculate_loading_Ok in Hm1 as (needed & h & _ & Hload & ->).
        eapply load_items_positive; [|exact Hload|exact Ha0].
        intros b k Hb. simpl in Hb. by rewrite lookup_empty in Hb. }
  destruct Hexit as [st0 Hin _|st0 st' Hin _ Hbody].
  - by eapply Hpos.
  - apply loop_body_Break in Hbody as (_ & _ & ->). simpl in Hm. by eapply Hpos.
Qed.

Lemma one_empty_reload_witness :
  match Sample.run Sample.three_children with
  | Some (Ok final) => exists r, route final = r ++ [Refuel ∅] /\ (Refuel ∅ ∉ r)
  | _ => False
  end.
Proof.
  destruct (Sample.run Sample.three_children) as [[final|e]|] eqn:E;
    [|vm_compute in E; discriminate E..].
  destruct (one_empty_reload _ _ _ _ _ E) as (r & Hr & Hnone & _).
  exists r. split; [exact Hr | exact Hnone].
Defined.

(** X9.  When the set of recipient ids is enumerated without repetition and
    holds only ids of the table, every reload event of the returned route
    but the last is followed by a delivery, whatever the footprints in the
    catalogue; so the route has at most one reload per delivery besides the
    closing one. *)
Theorem reload_then_delivery calculate_distance set_order self fuel final :
  let ids := map (fun r => child (row_child r)) (assign_gifts self) in
  NoDup (set_order ids) ->
  (forall c, c ∈ set_order ids -> c ∈ ids) ->
  optimize_route calculate_distance set_order self fuel = Some (Ok final) ->
  exists r, route final = r ++ [Refuel ∅] /\
    (forall i m, r !! i = Some (Refuel m) ->
       exists c, r !! S i = Some (Delivery c)) /\
    (length (filter (fun s => is_delivery s = false) r)
     <= length (filter (fun s => is_delivery s = true) r))%nat.
Proof.
  intros ids Hnd Hsub (st & _ & Hexit & Hfin)%optimize_route_Ok.
  apply finish_Ok in Hfin as (leg & _ & -> & _).
  exists (route st). split; [done|].
  destruct (cargo_empty_at_exit _ _ _ Hnd Hsub st Hexit) as [_ Hreplay].
  pose proof (no_empty_reload_at_exit _ _ _ st Hexit) as Hnone.
  assert (forall i m, route st !! i = Some (Refuel m) ->
            exists c, route st !! S i = Some (Delivery c)) as Hnext.
  { intros i m Hi. eapply replay_reload_followed; [done..|].
    intros ->. apply Hnone. by eapply list_elem_of_lookup_2. }
  split; [done|]. by apply reloads_at_most_deliveries.
Qed.

Lemma reload_then_delivery_witness :
  match Sample.run Sample.three_children with
  | Some (Ok final) =>
      exists r, route final = r ++ [Refuel ∅] /\
        forall i m, r !! i = Some (Refuel m) ->
          exists c, r !! S i = Some (Delivery c)
  | _ => False
  end.
Proof.
  destruct (Sample.run Sample.three_children) as [[final|e]|] eqn:E;
    [|vm_compute in E; discriminate E..].
  destruct (reload_then_delivery Sample.taxicab remove_dups Sample.three_children
              40%nat final) as (r & Hr & Hnext & _).
  - apply NoDup_remove_dups.
  - intros c. apply elem_of_remove_dups.
  - exact E.
  - exists r. split; [exact Hr | exact Hnext].
Defined.

(** ** Who is delivered to and who is warned about *)

Section Outcome.

Variable calculate_distance : coords -> coords -> Q.
Variable set_order : list Z -> list Z.
Variable self : optimizer.

Lemma elem_of_warned out c : c ∈ warned out <-> Undeliverable c ∈ out.
Proof.
  unfold warned. rewrite list_elem_of_omap. split.
  - intros (msg & Hmsg & Hc). by destruct msg; simplify_eq.
  - intros H. by exists (Undeliverable c).
Qed.

Lemma filter_too_big_kept u :
  filter (fun c => is_too_big self (assign_gifts self) c = true)
    (kept self (assign_gifts self) u) = [].
Proof.
  unfold kept. rewrite list_filter_filter.
  induction u as [|c u IH]; [done|].
  rewrite filter_cons_False by tauto. done.
Qed.

Lemma filter_too_big_sub u u0 :
  (forall c, c ∈ u -> c ∈ kept self (assign_gifts self) u0) ->
  filter (fun c => is_too_big self (assign_gifts self) c = true) u = [].
Proof.
  intros Hsub. induction u as [|c u IH]; [done|].
  rewrite filter_cons_False.
  - apply IH. intros x Hx. apply Hsub. by right.
  - assert (c ∈ kept self (assign_gifts self) u0) as Hc by (apply Hsub; by left).
    by apply list_elem_of_filter in Hc as [? _].
Qed.

(** Before the first classification nothing has happened; from then on the
    warnings printed are those for the recipients of the initial set that
    are too big, in enumeration order, and only recipients that are not too
    big are unvisited or delivered to. *)
Lemma outcome_in_loop st :
  let df := assign_gifts self in
  let u0 := unvisited (initial_state set_order df) in
  in_loop calculate_distance set_order self st ->
  (route st = [] /\ current_cargo st = ∅ /\ stdout st = [] /\ unvisited st = u0) \/
  (warned (stdout st) = filter (fun c => is_too_big self df c = true) u0 /\
   (forall c, c ∈ unvisited st -> c ∈ kept self df u0) /\
   (forall c, c ∈ deliveries (route st) -> c ∈ kept self df u0)).
Proof.
  intros df u0. induction 1 as [|st st' Hin IH Hne Hbody]; [by left|].
  right.
  apply loop_body_Continue in Hbody
    as [(c & row & cargo' & leg & _ & _ & Hc & Hun & ->)
       |(_ & _ & leg & m & _ & ->)]; simpl.
  - destruct IH as [(_ & Hcargo & _)|(Hw & Hu & Hd)].
    { apply unload_Ok in Hun as (n & Hn & _).
      by rewrite Hcargo, lookup_empty in Hn. }
    split; [done|]. split.
    + intros x [_ Hx]%list_elem_of_filter. by apply Hu.
    + intros x. rewrite deliveries_app. simpl.
      intros [Hx| ->%list_elem_of_singleton]%elem_of_app; [by apply Hd | by apply Hu].
  - rewrite warned_app, warned_Undeliverable, deliveries_app. simpl.
    rewrite app_nil_r.
    destruct IH as [(Hr & _ & Hout & Hu)|(Hw & Hu & Hd)].
    + rewrite Hout, Hu, Hr. simpl. split; [done|]. split; [done|].
      intros c Hc. by apply not_elem_of_nil in Hc.
    + rewrite (filter_too_big_sub _ u0 Hu), app_nil_r. split; [done|].
      split; [|done]. intros c [_ Hc]%list_elem_of_filter. by apply Hu.
Qed.

Lemma outcome_at_exit st :
  let df := assign_gifts self in
  let u0 := unvisited (initial_state set_order df) in
  loop_exit calculate_distance set_order self st ->
  warned (stdout st) = filter (fun c => is_too_big self df c = true) u0 /\
  forall c, c ∈ deliveries (route st) <-> c ∈ kept self df u0.
Proof.
  intros df u0 Hexit. subst df u0.
  assert (warned (stdout st)
          = filter (fun c => is_too_big self (assign_gifts self) c = true)
              (unvisited (initial_state set_order (assign_gifts self))) /\
          forall c, c ∈ deliveries (route st) ->
            c ∈ kept self (assign_gifts self)
                  (unvisited (initial_state set_order (assign_gifts self))))
    as [Hw Hd].
  { destruct Hexit as [st0 Hin Hu|st0 st' Hin Hne Hbody].
    - destruct (outcome_in_loop st0 Hin) as [(Hr & _ & Hout & Hu0)|(Hw & _ & Hd)].
      + rewrite Hr, Hout, <- Hu0, Hu. split; [done|].
        intros c Hc. by apply not_elem_of_nil in Hc.
      + done.
    - apply loop_body_Break in Hbody as (_ & _ & ->). simpl.
      rewrite warned_app, warned_Undeliverable.
      destruct (outcome_in_loop st0 Hin) as [(Hr & _ & Hout & Hu0)|(Hw & Hu & Hd)].
      + rewrite Hr, Hout, Hu0. split; [done|].
        intros c Hc. by apply not_elem_of_nil in Hc.
      + rewrite (filter_too_big_sub _ _ Hu), app_nil_r. done. }
  split; [done|]. intros c. split; [apply Hd|].
  intros Hc. pose proof Hc as [Hsmall Hc0]%list_elem_of_filter.
  destruct (accounted_at_exit _ _ _ st Hexit c Hc0) as [Hdel|Hwarn].
  - unfold deliveries. apply list_elem_of_omap. by exists (Delivery c).
  - apply elem_of_warned in Hwarn. rewrite Hw in Hwarn.
    by apply list_elem_of_filter in Hwarn as [? _].
Qed.

End Outcome.

(** X10.  In a run that returns, the warnings printed are those for the
    recipients of the initial set whose gift is too big, in the enumeration
    order of the set and once each, and the recipients delivered to are all
    the others: with an enumeration without repetition the delivered ids are
    a permutation of the ids that are not too big. *)
Theorem delivered_and_warned calculate_distance set_order self fuel final :
  let df := assign_gifts self in
  let u0 := set_order (map (fun r => child (row_child r)) df) in
  optimize_route calculate_distance set_order self fuel = Some (Ok final) ->
  warned (stdout final) = filter (fun c => is_too_big self df c = true) u0 /\
  (forall c, c ∈ deliveries (route final) <-> c ∈ kept self df u0) /\
  (NoDup u0 -> deliveries (route final) ≡ₚ kept self df u0).
Proof.
  intros df u0 (st & _ & Hexit & Hfin)%optimize_route_Ok.
  destruct (outcome_at_exit _ _ _ st Hexit) as [Hw Hd].
  pose proof (deliveries_once_at_exit _ _ _ st Hexit) as Hnd.
  apply finish_Ok in Hfin as (leg & _ & -> & _ & _ & _ & ->).
  rewrite deliveries_app, warned_app.
  destruct (float_gt (Fin (total_time final)) (max_time_hours self)); simpl;
    rewrite !app_nil_r; (split; [done|]; split; [done|]);
    intros Hu0; (apply NoDup_Permutation; [done | by apply NoDup_filter | done]).
Qed.

Lemma delivered_and_warned_witness :
  match Sample.run Sample.heavy_gift with
  | Some (Ok final) =>
      warned (stdout final) = [1] /\ deliveries (route final) = []
  | _ => False
  end.
Proof.
  destruct (Sample.run Sample.heavy_gift) as [[final|e]|] eqn:E;
    [|vm_compute in E; discriminate E..].
  destruct (delivered_and_warned _ _ _ _ _ E) as (Hw & _ & Hp).
  split; [exact Hw|].
  apply Permutation_nil_r. apply (Hp (NoDup_remove_dups _)).
Defined.

(** ** The exceptions a run can raise *)

Lemma for_each_Raise {A St} (body : St -> A -> result St) l : forall s e,
  for_each body s l = Raise e -> exists x s0, x ∈ l /\ body s0 x = Raise e.
Proof.
  induction l as [|y l IH]; intros s e H; [done|]. simpl in H.
  destruct (body s y) as [s1|e1] eqn:E; simpl in H.
  - destruct (IH s1 e H) as (x & s0 & Hx & Hraise). exists x, s0. split; [by right|done].
  - injection H as <-. exists y, s. split; [left | done].
Qed.

Lemma py_truediv_Raise x y e :
  py_truediv x y = Raise e -> e = ZeroDivisionError /\ (y == 0)%Q.
Proof.
  unfold py_truediv. destruct (Qeq_bool y 0) eqn:E; [|done].
  intros [= <-]. split; [done|]. by apply Qeq_bool_iff.
Qed.

Lemma py_int_np_truediv_Raise x y e :
  py_int (np_truediv x y) = Raise e ->
  (e = OverflowError \/ e = ValueError) /\ (y == 0)%Q.
Proof.
  unfold np_truediv. destruct (Qeq_bool y 0) eqn:E; [|done].
  apply Qeq_bool_iff in E. intros H. split; [|done].
  destruct (Qeq_bool x 0); [|destruct (Qle_bool 0 x)]; simpl in H;
    injection H as <-; auto.
Qed.

Section Raises.

Variable calculate_distance : coords -> coords -> Q.
Variable set_order : list Z -> list Z.
Variable self : optimizer.

Lemma load_item_Raise h a n e :
  load_item self h (a, n) = Raise e ->
  (e = IndexError /\ gifts_with (gifts_df self) a = []) \/
  ((e = OverflowError \/ e = ValueError) /\
   exists g, head (gifts_with (gifts_df self) a) = Some g /\
     ((weight g == 0)%Q \/ (volume g == 0)%Q)).
Proof.
  unfold load_item.
  destruct (gifts_with (gifts_df self) a) as [|g gs] eqn:Hg; simpl.
  { intros [= <-]. by left. }
  intros H. right.
  destruct (py_int (np_truediv (max_weight self - current_weight h) (weight g)))
    as [tw|e1] eqn:Ew; simpl in H.
  2:{ injection H as <-. apply py_int_np_truediv_Raise in Ew as [He Hz].
      split; [done|]. exists g. split; [done | by left]. }
  destruct (py_int (np_truediv (max_volume self - current_volume h) (volume g)))
    as [tv|e1] eqn:Ev; simpl in H.
  2:{ injection H as <-. apply py_int_np_truediv_Raise in Ev as [He Hz].
      split; [done|]. exists g. split; [done | by right]. }
  by case_decide.
Qed.

Lemma calculate_loading_Raise u e :
  (forall c, c ∈ u -> is_Some (first_row (assign_gifts self) c)) ->
  calculate_loading self (assign_gifts self) u = Raise e ->
  e <> ZeroDivisionError /\ raise_cause self e.
Proof.
  intros Hrows H. unfold calculate_loading in H.
  destruct (tally_returns _ u Hrows) as [needed Hneeded].
  rewrite Hneeded in H. cbn [mbind result_bind] in H.
  pose proof (tally_Ok _ _ _ Hneeded) as [_ Hspec].
  destruct (for_each (load_item self) _ _) as [h|e1] eqn:Hload; [done|].
  injection H as ->.
  apply for_each_Raise in Hload as ([a n] & h0 & Han & Hraise).
  rewrite merge_sort_Permutation in Han. apply elem_of_map_to_list in Han.
  rewrite Hspec in Han. case_decide as Hd; [|done]. clear Han.
  apply demand_pos in Hd as (c & Hc & Hai). unfold Reference.assigned_item in Hai.
  destruct (first_row (assign_gifts self) c) as [row|] eqn:Hrow; [|done].
  injection Hai as <-.
  apply first_row_assign_gifts in Hrow as (Hchild & Hassign & _).
  rewrite Hassign in Hraise.
  apply load_item_Raise in Hraise as [[-> Hnone]|[He (g & Hg & Hz)]].
  - split; [done|]. by exists (row_child row).
  - split; [by destruct He as [-> | ->]|].
    destruct He as [-> | ->]; by exists (row_child row), g.
Qed.

Lemma deliver_Raise st c e :
  c ∈ unvisited st -> deliverable (assign_gifts self) st c ->
  deliver calculate_distance self (assign_gifts self) st c = Raise e ->
  raise_cause self e.
Proof.
  intros Hc Hdeliv H. destruct (Qeq_dec (speed_kmh self) 0) as [Hz|Hnz].
  - destruct Hdeliv as (row & Hrow & (n & Hn & _)%can_deliver_lookup).
    unfold deliver in H. unfold first_row in Hrow. apply iloc0_Ok in Hrow.
    rewrite Hrow in H. cbn [mbind result_bind] in H.
    unfold set_remove in H. rewrite decide_True in H by done.
    cbn [mbind result_bind] in H.
    assert (exists cargo', unload (current_cargo st) (assigned_article row) = Ok cargo')
      as [cargo' Hun] by (eexists; apply unload_Ok; by exists n).
    rewrite Hun in H. cbn [mbind result_bind] in H.
    destruct (py_truediv _ _) as [leg|e1] eqn:Hleg; [done|].
    injection H as <-. by apply py_truediv_Raise in Hleg as [-> ?].
  - destruct (deliver_returns calculate_distance self _ st c Hc Hdeliv Hnz)
      as (st' & Hst' & _). congruence.
Qed.

Lemma depot_return_Raise st e :
  enumerated self st ->
  depot_return calculate_distance self (assign_gifts self) st = Raise e ->
  raise_cause self e.
Proof.
  intros [Hnd Hrows] H. unfold depot_return in H.
  destruct (classify_returns self (assign_gifts self) (unvisited st) (stdout st) Hrows)
    as [[und out] Hclass].
  rewrite Hclass in H. cbn [mbind result_bind] in H.
  apply classify_Ok in Hclass as (-> & -> & _).
  destruct (remove_all_returns
              (filter (fun c => is_too_big self (assign_gifts self) c = true) (unvisited st))
              (unvisited st)) as [u' Hu'].
  { by apply NoDup_filter. }
  { intros c [_ ?]%list_elem_of_filter. done. }
  rewrite Hu' in H. cbn [mbind result_bind] in H.
  apply remove_all_Ok in Hu'. rewrite kept_alt in Hu'. subst u'.
  destruct (kept self (assign_gifts self) (unvisited st)) as [|c0 u'] eqn:Hkept; [done|].
  destruct (py_truediv _ _) as [leg|e1] eqn:Hleg; cbn [mbind result_bind] in H.
  2:{ injection H as <-. by apply py_truediv_Raise in Hleg as [-> ?]. }
  destruct (calculate_loading self (assign_gifts self) (c0 :: u')) as [m|e1] eqn:Hm;
    cbn [mbind result_bind] in H; [done|].
  injection H as <-. eapply calculate_loading_Raise; [|exact Hm].
  intros c Hc. apply Hrows. rewrite <- Hkept in Hc.
  by apply list_elem_of_filter in Hc as [_ ?].
Qed.

Lemma loop_body_Raise st e :
  enumerated self st ->
  loop_body calculate_distance self (assign_gifts self) st = Raise e ->
  raise_cause self e.
Proof.
  intros Hen H. unfold loop_body in H.
  destruct (nearest_returns calculate_distance (assign_gifts self) st (proj2 Hen))
    as [best Hbest].
  rewrite Hbest in H. cbn [mbind result_bind] in H.
  apply nearest_Ok in Hbest as [_ Hspec]. destruct best as [c|].
  - destruct Hspec as (i & Hi & Hdeliv & _).
    eapply deliver_Raise; [by eapply list_elem_of_lookup_2 | done | done].
  - by eapply depot_return_Raise.
Qed.

Lemma while_unvisited_Raise fuel : forall st e,
  in_loop calculate_distance set_order self st ->
  while_unvisited calculate_distance self (assign_gifts self) fuel st
    = Some (Raise e) ->
  exists st', in_loop calculate_distance set_order self st' /\
    loop_body calculate_distance self (assign_gifts self) st' = Raise e.
Proof.
  induction fuel as [|fuel IH]; intros st e Hin H.
  - simpl in H. by destruct (unvisited st).
  - destruct (decide (unvisited st = [])) as [Hu|Hu].
    { simpl in H. by rewrite Hu in H. }
    rewrite while_unvisited_step in H by done.
    destruct (loop_body _ _ _ st) as [[st1|st1]|e1] eqn:Hbody.
    + eapply IH; [|exact H]. by eapply loop_continue.
    + done.
    + injection H as <-. by exists st.
Qed.

End Raises.

(** X11.  When the set of recipient ids is enumerated without repetition
    and holds only ids of the table, a run never raises [KeyError]: the
    cargo entry a delivery decrements or deletes and the members removed
    from the unvisited set are always there.  And it raises
    [ZeroDivisionError] only when the speed is zero. *)
Theorem run_never_raises_KeyError calculate_distance set_order self fuel e :
  let ids := map (fun r => child (row_child r)) (assign_gifts self) in
  NoDup (set_order ids) ->
  (forall c, c ∈ set_order ids -> c ∈ ids) ->
  optimize_route calculate_distance set_order self fuel = Some (Raise e) ->
  e <> KeyError /\ (e = ZeroDivisionError -> (speed_kmh self == 0)%Q).
Proof.
  intros ids Hnd Hsub H.
  assert (raise_cause self e) as Hcause.
  { unfold optimize_route in H.
    destruct (while_unvisited _ _ _ _ _) as [[st|e1]|] eqn:Hloop; [| |done].
    - unfold finish in H.
      destruct (py_truediv _ _) as [leg|e1] eqn:Hleg; [done|].
      injection H as <-. by apply py_truediv_Raise in Hleg as [-> ?].
    - injection H as <-.
      apply (while_unvisited_Raise _ set_order) in Hloop as (st' & Hin & Hbody);
        [|apply loop_start].
      eapply loop_body_Raise; [|exact Hbody].
      by apply (enumerated_in_loop calculate_distance set_order). }
  split.
  - intros ->. exact Hcause.
  - intros ->. exact Hcause.
Qed.

Lemma run_never_raises_KeyError_witness :
  (speed_kmh stalled_sleigh == 0)%Q.
Proof.
  refine (proj2 (run_never_raises_KeyError Sample.taxicab remove_dups
                   stalled_sleigh 40%nat ZeroDivisionError _ _ _) eq_refl).
  - apply NoDup_remove_dups.
  - intros c. apply elem_of_remove_dups.
  - vm_compute. reflexivity.
Defined.

(** ** print_statistics and export_route *)

Lemma for_each_snoc {A St} (body : St -> A -> result St) s l x :
  for_each body s (l ++ [x]) = (s' ← for_each body s l; body s' x).
Proof.
  revert s; induction l as [|y l IH]; intros s; simpl.
  - by destruct (body s x).
  - destruct (body s y) as [s'|e]; simpl; [apply IH | done].
Qed.

Lemma py_truediv_Ok x y q :
  py_truediv x y = Ok q -> q = (x / y)%Q /\ ~ (y == 0)%Q.
Proof.
  unfold py_truediv. destruct (Qeq_bool y 0) eqn:E; [discriminate|].
  intros [= <-]. split; [done|]. intros H. apply Qeq_bool_iff in H. congruence.
Qed.

Lemma length_filter_snoc {A} (P : A -> Prop) `{!forall x, Decision (P x)} l x :
  length (filter P (l ++ [x]))
  = (length (filter P l) + (if decide (P x) then 1 else 0))%nat.
Proof.
  rewrite filter_app, length_app, filter_cons, filter_nil.
  by destruct (decide (P x)).
Qed.

(** The rows the merge gives a child: at least one, all of that child. *)
Lemma merge_left_rows gifts c :
  exists r l, merge_left gifts c = r :: l /\
    Forall (fun r => row_child r = c) (r :: l).
Proof.
  unfold merge_left. destruct (gifts_with gifts (assign_article c)) as [|g gs].
  - eexists _, []. split; [done|]. by repeat constructor.
  - simpl. eexists _, _. split; [done|]. constructor; [done|].
    apply Forall_forall. intros r Hr.
    apply list_elem_of_In, in_map_iff in Hr as (g' & <- & _). done.
Qed.

Section Statistics.

Variable calculate_distance : coords -> coords -> Q.

(** The counters of the loop of [print_statistics] over any route. *)
Lemma survey_counts df route t :
  for_each (survey calculate_distance df) tour_start route = Ok t ->
  stop_count t = Z.of_nat (length (filter (fun s => is_delivery s = true) route)) /\
  refuel_count t
    = Z.of_nat (length (filter (fun s => is_loaded_refuel s = true) route)) /\
  nice_count t + naughty_count t = stop_count t /\
  0 <= nice_count t /\ 0 <= naughty_count t.
Proof.
  revert t. induction route as [|stop route IH] using rev_ind; intros t H.
  - injection H as <-. simpl. lia.
  - rewrite for_each_snoc in H. inv_bind H. rename x into t0.
    destruct (IH t0 Hx) as (Hs & Hr & Hn & Hnice & Hnaughty).
    rewrite !length_filter_snoc.
    destruct stop as [c|m]; simpl in H.
    + inv_bind H. injection H as <-. simpl.
      destruct (decide (naughty (row_child x) = 0)); lia.
    + injection H as <-. simpl.
      destruct (decide (m = ∅)) as [->|Hm].
      * rewrite decide_False; [lia|]. rewrite bool_decide_eq_true. tauto.
      * rewrite decide_True; [lia|]. by rewrite bool_decide_eq_true.
Qed.

Variable set_order : list Z -> list Z.
Variable self : optimizer.

(** What an iteration that continues does to the route and the position. *)
Lemma loop_body_Continue_leg st st' :
  loop_body calculate_distance self (assign_gifts self) st = Ok (Continue st') ->
  (exists c row,
     first_row (assign_gifts self) c = Some row /\
     route st' = route st ++ [Delivery c] /\
     current_position st' = row_coords row) \/
  (exists m,
     route st' = route st ++ [Refuel m] /\
     current_position st' = NORTH_POLE).
Proof.
  unfold loop_body. intros H. inv_bind H. destruct x as [c|].
  - apply deliver_Ok in H as (row & cargo' & leg & Hrow & _ & _ & _ & [= ->]).
    left. by exists c, row.
  - apply depot_return_Ok in H as [_ [[_ [=]]|(_ & leg & m & _ & _ & [= ->])]].
    right. by exists m.
Qed.

(** The loop of [print_statistics] gets through the route built so far and
    ends at the current position. *)
Lemma survey_in_loop st :
  in_loop calculate_distance set_order self st ->
  exists t,
    for_each (survey calculate_distance (assign_gifts self)) tour_start (route st) = Ok t /\
    current_pos t = current_position st.
Proof.
  induction 1 as [|st st' Hin (t & Ht & Hpos) Hne Hbody].
  - by exists tour_start.
  - apply loop_body_Continue_leg in Hbody
      as [(c & row & Hrow & -> & ->)|(m & -> & ->)];
      rewrite for_each_snoc, Ht; simpl.
    + unfold first_row in Hrow. apply iloc0_Ok in Hrow. rewrite Hrow. simpl.
      by eexists.
    + by eexists.
Qed.

Lemma survey_at_exit st :
  loop_exit calculate_distance set_order self st ->
  exists t,
    for_each (survey calculate_distance (assign_gifts self)) tour_start (route st) = Ok t /\
    current_pos t = current_position st.
Proof.
  intros [st0 Hin _|st0 st' Hin _ Hbody].
  - by apply survey_in_loop.
  - apply loop_body_Break in Hbody as (_ & _ & ->). simpl.
    by apply survey_in_loop.
Qed.

End Statistics.

Lemma length_deliveries (r : list event) :
  length (deliveries r) = length (filter (fun s => is_delivery s = true) r).
Proof.
  induction r as [|[c|m] r IH]; [done|..]; rewrite filter_cons; simpl.
  - unfold deliveries in *. simpl. by rewrite IH.
  - exact IH.
Qed.

(** In a list of stops without an empty reload, the reloads with a manifest
    are all the reloads. *)
Lemma length_loaded_refuels (r : list event) :
  Refuel ∅ ∉ r ->
  length (filter (fun s => is_loaded_refuel s = true) r)
  = length (filter (fun s => is_delivery s = false) r).
Proof.
  induction r as [|[c|m] r IH]; intros Hnone; [done|..]; rewrite !filter_cons; simpl.
  - apply IH. intros Hin. apply Hnone. by right.
  - rewrite decide_True.
    + simpl. f_equal. apply IH. intros Hin. apply Hnone. by right.
    + apply bool_decide_eq_true. intros ->. apply Hnone. left.
Qed.

(** X12.  On the route a run returns, and with the merged table the run has
    left in [self.children_df], [print_statistics] raises nothing: every
    child delivered to is in the table and the speed is not zero.  The
    stops it prints are the deliveries of the route, and the reload stops
    it prints are all the reload events but the closing one. *)
Theorem statistics_of_returned_route calculate_distance set_order self fuel final :
  optimize_route calculate_distance set_order self fuel = Some (Ok final) ->
  exists s,
    print_statistics calculate_distance self (assign_gifts self) (route final) = Ok s /\
    stops_printed s = Z.of_nat (length (deliveries (route final))) /\
    reloads_printed s
    = Z.of_nat (length (filter (fun s => is_delivery s = false) (route final))) - 1.
Proof.
  intros (st & _ & Hexit & Hfin)%optimize_route_Ok.
  destruct (survey_at_exit _ _ _ st Hexit) as (t & Ht & _).
  pose proof (no_empty_reload_at_exit _ _ _ st Hexit) as Hnone.
  apply finish_Ok in Hfin as (leg & Hleg & Hroute & _).
  apply py_truediv_Ok in Hleg as [_ Hnz].
  destruct (print_statistics calculate_distance self (assign_gifts self) (route final))
    as [s|e] eqn:Hs.
  2:{ unfold print_statistics in Hs. rewrite Hroute, for_each_snoc, Ht in Hs.
      simpl in Hs. rewrite py_truediv_returns in Hs by done. discriminate Hs. }
  exists s. split; [done|].
  unfold print_statistics in Hs. inv_bind Hs. rename x into t'.
  apply survey_counts in Hx as (Hstops & Hreloads & _).
  inv_bind Hs. injection Hs as <-. simpl.
  rewrite Hstops, Hreloads, length_deliveries. split; [done|].
  rewrite Hroute, !length_filter_snoc.
  rewrite (decide_False (P := is_loaded_refuel (Refuel ∅) = true)).
  2:{ simpl. rewrite bool_decide_eq_true. tauto. }
  rewrite (decide_True (P := is_delivery (Refuel ∅) = false)) by done.
  rewrite length_loaded_refuels by done. lia.
Qed.

Lemma statistics_of_returned_route_witness :
  match Sample.run Sample.three_children with
  | Some (Ok final) =>
      exists s,
        print_statistics Sample.taxicab Sample.three_children
          (assign_gifts Sample.three_children) (route final) = Ok s /\
        stops_printed s = 3 /\ reloads_printed s = 2
  | _ => False
  end.
Proof.
  destruct (Sample.run Sample.three_children) as [[final|e]|] eqn:E;
    [|vm_compute in E; discriminate E..].
  destruct (statistics_of_returned_route _ _ _ _ _ E) as (s & Hs & Hstops & Hreloads).
  exists s. split; [exact Hs|].
  rewrite Hstops, Hreloads. vm_compute in E. injection E as <-.
  split; reflexivity.
Defined.

(** X13.  Whatever the route, the numbers [print_statistics] prints agree
    with those [export_route] prints: the stops are the delivery events, the
    reload stops are the reload events with a manifest that is not empty,
    and the nice and the naughty children together are the stops. *)
Theorem statistics_agree_with_export calculate_distance self df route s :
  print_statistics calculate_distance self df route = Ok s ->
  stops_printed s = Z.of_nat (deliveries_printed (export_route route)) /\
  reloads_printed s = Z.of_nat (refuels_printed (export_route route)) /\
  nice_printed s + naughty_printed s = stops_printed s /\
  0 <= nice_printed s /\ 0 <= naughty_printed s.
Proof.
  unfold print_statistics. intros H. inv_bind H. rename x into t.
  inv_bind H. injection H as <-. simpl.
  by apply (survey_counts calculate_distance df).
Qed.

Lemma statistics_agree_with_export_witness :
  exists s,
    print_statistics Sample.taxicab Sample.three_children
      (assign_gifts Sample.three_children)
      [Refuel {[ 0 := 1; 1 := 1 ]}; Delivery 1; Delivery 3; Refuel ∅] = Ok s /\
    stops_printed s = 2 /\ reloads_printed s = 1.
Proof.
  destruct (print_statistics Sample.taxicab Sample.three_children
              (assign_gifts Sample.three_children)
              [Refuel {[ 0 := 1; 1 := 1 ]}; Delivery 1; Delivery 3; Refuel ∅])
    as [s|e] eqn:E; [|vm_compute in E; discriminate E].
  exists s. split; [reflexivity|].
  destruct (statistics_agree_with_export _ _ _ _ _ E) as (Hs & Hr & _).
  split; [exact Hs|exact Hr].
Defined.

Lemma export_rows_cons stop route :
  export_rows (stop :: route) = stop_rows stop ++ export_rows route.
Proof.
  unfold export_rows. simpl. generalize (stop_rows stop). clear stop.
  induction route as [|s route IH] using rev_ind; intros rows.
  - simpl. by rewrite app_nil_r.
  - by rewrite !foldl_snoc, IH, app_assoc.
Qed.

Lemma export_rows_app r1 r2 :
  export_rows (r1 ++ r2) = export_rows r1 ++ export_rows r2.
Proof.
  induction r1 as [|s r1 IH]; [done|]. simpl.
  by rewrite !export_rows_cons, IH, app_assoc.
Qed.

(** The rows of a reload with a manifest: at least one, each with an
    article. *)
Lemma loaded_refuel_rows m :
  m <> ∅ ->
  exists items,
    stop_rows (Refuel m)
    = (fun item : Z * Z =>
         {| csv_stop := 0; csv_article := Some item.1; csv_pieces := Some item.2 |})
      <$> items /\
    items <> [] /\ items ≡ₚ map_to_list m.
Proof.
  intros Hm. exists (merge_sort item_le (map_to_list m)).
  simpl. rewrite decide_False by done. split; [done|].
  split; [|apply merge_sort_Permutation].
  intros Hnil. apply Hm, map_to_list_empty_iff, Permutation_nil_r.
  by rewrite <- Hnil, merge_sort_Permutation.
Qed.

(** After a stop that is not a reload with a manifest, the next row, if
    any, has no article. *)
Lemma no_loaded_refuel_next_rows route :
  no_loaded_refuel_next route = true ->
  match export_rows route with
  | row :: _ => csv_article row = None
  | [] => True
  end.
Proof.
  destruct route as [|[c|m] route]; [done|..]; simpl; rewrite export_rows_cons.
  - done.
  - rewrite negb_true_iff, bool_decide_eq_false. intros Hm.
    simpl. destruct (decide (m = ∅)); [done|]. tauto.
Qed.

(** A list splits in one way into a run of elements with a property and a
    rest that does not start with such an element. *)
Lemma split_run {A} (P : A -> Prop) (l1 l2 t1 t2 : list A) :
  Forall P l1 -> Forall P l2 ->
  match t1 with x :: _ => ~ P x | [] => True end ->
  match t2 with x :: _ => ~ P x | [] => True end ->
  l1 ++ t1 = l2 ++ t2 -> l1 = l2 /\ t1 = t2.
Proof.
  intros H1; revert l2. induction H1 as [|x l1 Hx _ IH]; intros l2 H2 Ht1 Ht2 Heq.
  - destruct H2 as [|y l2 Hy _]; [done|]. simpl in Heq. subst t1. tauto.
  - destruct H2 as [|y l2 Hy H2]; simpl in Heq.
    + subst t2. tauto.
    + injection Heq as -> Heq. destruct (IH l2 H2 Ht1 Ht2 Heq) as [-> ->]. done.
Qed.

Lemma item_rows_inj (items1 items2 : list (Z * Z)) :
  (fun item : Z * Z =>
     {| csv_stop := 0; csv_article := Some item.1; csv_pieces := Some item.2 |})
  <$> items1
  = (fun item : Z * Z =>
       {| csv_stop := 0; csv_article := Some item.1; csv_pieces := Some item.2 |})
    <$> items2 ->
  items1 = items2.
Proof.
  revert items2. induction items1 as [|[a1 n1] items1 IH];
    intros [|[a2 n2] items2]; simpl; intros [=]; [done|].
  subst. f_equal. by apply IH.
Qed.

Lemma empty_refuel_rows :
  stop_rows (Refuel ∅)
  = [ {| csv_stop := 0; csv_article := None; csv_pieces := None |} ].
Proof. simpl. by rewrite decide_True. Qed.

(** The first row of a stop tells what the stop is. *)
Lemma stop_rows_head stop :
  exists row rest, stop_rows stop = row :: rest /\
    match stop with
    | Delivery c => row = {| csv_stop := c; csv_article := None; csv_pieces := None |}
    | Refuel m =>
        csv_stop row = 0 /\ (m = ∅ <-> csv_article row = None)
    end.
Proof.
  destruct stop as [c|m].
  - by eexists _, _.
  - destruct (decide (m = ∅)) as [->|Hm].
    + rewrite empty_refuel_rows. by eexists _, _.
    + destruct (loaded_refuel_rows m Hm) as (items & -> & Hne & _).
      destruct items as [|item items]; [done|].
      eexists _, _. split; [done|]. simpl. split; [done|]. by split.
Qed.

(** X14.  The exported rows determine the route, as long as no child has
    the id 0 and no reload with a manifest directly follows another one: two
    such routes with the same rows are the same route. *)
Theorem export_rows_determine_route r1 r2 :
  readable r1 = true -> readable r2 = true ->
  rows_written (export_route r1) = rows_written (export_route r2) ->
  r1 = r2.
Proof.
  simpl. revert r2. induction r1 as [|s1 r1 IH]; intros r2 Hr1 Hr2 Heq.
  - destruct r2 as [|s2 r2]; [done|]. rewrite export_rows_cons in Heq.
    destruct (stop_rows_head s2) as (row & rest & Hrows & _).
    rewrite Hrows in Heq. discriminate Heq.
  - destruct r2 as [|s2 r2].
    { rewrite export_rows_cons in Heq.
      destruct (stop_rows_head s1) as (row & rest & Hrows & _).
      rewrite Hrows in Heq. discriminate Heq. }
    rewrite !export_rows_cons in Heq.
    destruct (stop_rows_head s1) as (row1 & rest1 & Hrows1 & Hrow1).
    destruct (stop_rows_head s2) as (row2 & rest2 & Hrows2 & Hrow2).
    destruct s1 as [c1|m1], s2 as [c2|m2];
      cbn [readable] in Hr1, Hr2;
      apply andb_true_iff in Hr1 as [Hs1 Hr1];
      apply andb_true_iff in Hr2 as [Hs2 Hr2].
    + rewrite Hrows1, Hrows2 in Heq. subst row1 row2.
      cbn [stop_rows] in Hrows1, Hrows2.
      injection Hrows1 as <-. injection Hrows2 as <-.
      injection Heq as Hc Heq. subst c2. f_equal. by apply IH.
    + exfalso. apply bool_decide_eq_true in Hs1.
      rewrite Hrows1, Hrows2 in Heq. injection Heq as Hrow _.
      destruct Hrow2 as [Hzero _]. subst row1 row2. simpl in Hzero. done.
    + exfalso. apply bool_decide_eq_true in Hs2.
      rewrite Hrows1, Hrows2 in Heq. injection Heq as Hrow _.
      destruct Hrow1 as [Hzero _]. subst row1 row2. simpl in Hzero. done.
    + destruct Hrow1 as [_ Hart1], Hrow2 as [_ Hart2].
      assert (m1 = ∅ <-> m2 = ∅) as Hboth.
      { rewrite Hart1, Hart2. rewrite Hrows1, Hrows2 in Heq.
        injection Heq as -> _. done. }
      destruct (decide (m1 = ∅)) as [->|Hm1].
      * rewrite (proj1 Hboth eq_refl) in *.
        rewrite empty_refuel_rows in Heq. injection Heq as Heq.
        f_equal. by apply IH.
      * assert (m2 <> ∅) as Hm2 by tauto.
        apply orb_true_iff in Hs1 as [Hs1|Hs1];
          [by apply bool_decide_eq_true in Hs1|].
        apply orb_true_iff in Hs2 as [Hs2|Hs2];
          [by apply bool_decide_eq_true in Hs2|].
        apply no_loaded_refuel_next_rows in Hs1, Hs2.
        destruct (loaded_refuel_rows m1 Hm1) as (items1 & Hitems1 & _ & Hp1).
        destruct (loaded_refuel_rows m2 Hm2) as (items2 & Hitems2 & _ & Hp2).
        rewrite Hitems1, Hitems2 in Heq.
        apply (split_run (fun row => is_Some (csv_article row))) in Heq
          as [Hitems Hrest].
        -- f_equal; [|by apply IH]. f_equal.
           apply map_to_list_inj. rewrite <- Hp1, <- Hp2.
           by rewrite (item_rows_inj _ _ Hitems).
        -- apply Forall_fmap, Forall_forall. by eexists.
        -- apply Forall_fmap, Forall_forall. by eexists.
        -- destruct (export_rows r1) as [|row ?]; [done|].
           rewrite Hs1. by intros [? [=]].
        -- destruct (export_rows r2) as [|row ?]; [done|].
           rewrite Hs2. by intros [? [=]].
Qed.

Lemma export_rows_determine_route_witness :
  [Refuel (<[ 2 := 1 ]> {[ 1 := 2 ]}); Delivery 1; Delivery 2; Refuel ∅]
  = [Refuel (<[ 1 := 2 ]> {[ 2 := 1 ]}); Delivery 1; Delivery 2; Refuel ∅].
Proof.
  apply export_rows_determine_route; vm_compute; reflexivity.
Defined.

(** X15.  Without those conditions the rows do not determine the route: a
    delivery to a child with id 0 is exported as the same row as a reload
    with an empty manifest. *)
Theorem export_rows_child_zero r1 r2 :
  rows_written (export_route (r1 ++ Delivery 0 :: r2))
  = rows_written (export_route (r1 ++ Refuel ∅ :: r2)).
Proof.
  simpl. by rewrite !export_rows_app, !export_rows_cons.
Qed.

(** A route is readable when its deliveries are to ids other than 0 and a
    delivery follows every reload with a manifest. *)
Lemma readable_intro r :
  (forall c, Delivery c ∈ r -> c <> 0) ->
  (forall i m, r !! i = Some (Refuel m) -> m <> ∅ ->
     r !! S i = None \/ exists c, r !! S i = Some (Delivery c)) ->
  readable r = true.
Proof.
  induction r as [|[c|m] r IH]; intros Hids Hnext; [done|..]; cbn [readable];
    apply andb_true_iff; split.
  - apply bool_decide_eq_true, Hids. left.
  - apply IH.
    + intros c' Hc'. apply Hids. by right.
    + intros i m Hi. apply (Hnext (S i) m Hi).
  - apply orb_true_iff. destruct (decide (m = ∅)) as [->|Hm].
    + left. by apply bool_decide_eq_true.
    + right. destruct (Hnext 0%nat m eq_refl Hm) as [Hnone|[c Hc]];
        destruct r as [|e r]; try done.
      by injection Hc as ->.
  - apply IH.
    + intros c' Hc'. apply Hids. by right.
    + intros i m' Hi. apply (Hnext (S i) m' Hi).
Qed.

Lemma assign_gifts_children self row :
  row ∈ assign_gifts self -> row_child row ∈ children_df self.
Proof.
  unfold assign_gifts. intros (c & Hc & Hrow)%list_elem_of_In%in_flat_map.
  apply list_elem_of_In in Hc, Hrow.
  destruct (merge_left_rows (gifts_df self) c) as (r & rs & Heq & Hall).
  rewrite Heq in Hrow. rewrite Forall_forall in Hall.
  by rewrite (Hall row Hrow).
Qed.

(** The deliveries of the route built so far are to children of the table. *)
Lemma deliveries_to_children calculate_distance set_order self st :
  in_loop calculate_distance set_order self st ->
  forall c, Delivery c ∈ route st -> c ∈ child <$> children_df self.
Proof.
  induction 1 as [|st st' Hin IH Hne Hbody]; intros c Hc.
  - by apply not_elem_of_nil in Hc.
  - apply loop_body_Continue in Hbody
      as [(c' & row & cargo' & leg & _ & Hrow & _ & _ & ->)
         |(_ & _ & leg & m & _ & ->)]; simpl in Hc;
      apply elem_of_app in Hc as [Hc|Hc%list_elem_of_singleton]; try by apply IH.
    injection Hc as ->. unfold first_row, rows_with in Hrow.
    apply head_Some_elem_of, list_elem_of_filter in Hrow as [<- Hrow].
    apply list_elem_of_fmap. exists (row_child row). split; [done|].
    by apply assign_gifts_children.
Qed.

(** X16.  When the set of recipient ids is enumerated without repetition,
    holds only ids of the table, and no child has the id 0, the route a run
    returns is one of those its exported rows determine. *)
Theorem returned_route_readable calculate_distance set_order self fuel final :
  let ids := map (fun r => child (row_child r)) (assign_gifts self) in
  NoDup (set_order ids) ->
  (forall c, c ∈ set_order ids -> c ∈ ids) ->
  0 ∉ child <$> children_df self ->
  optimize_route calculate_distance set_order self fuel = Some (Ok final) ->
  readable (route final) = true.
Proof.
  intros ids Hnd Hsub Hzero (st & _ & Hexit & Hfin)%optimize_route_Ok.
  apply finish_Ok in Hfin as (leg & _ & -> & _).
  destruct (cargo_empty_at_exit _ _ _ Hnd Hsub st Hexit) as [_ Hreplay].
  pose proof (no_empty_reload_at_exit _ _ _ st Hexit) as Hnone.
  assert (forall c, Delivery c ∈ route st -> c ∈ child <$> children_df self) as Hids.
  { destruct Hexit as [st0 Hin _|st0 st' Hin _ Hbody].
    - by eapply deliveries_to_children.
    - apply loop_body_Break in Hbody as (_ & _ & ->). simpl.
      by eapply deliveries_to_children. }
  apply readable_intro.
  - intros c [Hc|[=]%list_elem_of_singleton]%elem_of_app.
    intros ->. by apply Hzero, Hids.
  - intros i m Hi Hm.
    destruct (decide (i < length (route st))%nat) as [Hlt|Hge].
    + rewrite lookup_app_l in Hi by done.
      destruct (replay_reload_followed _ _ _ _ Hreplay Hi Hm) as [c Hc].
      right. exists c. by apply lookup_app_l_Some.
    + left. apply lookup_ge_None. rewrite length_app. simpl. lia.
Qed.

Lemma returned_route_readable_witness :
  match Sample.run Sample.three_children with
  | Some (Ok final) => readable (route final) = true
  | _ => False
  end.
Proof.
  destruct (Sample.run Sample.three_children) as [[final|e]|] eqn:E;
    [|vm_compute in E; discriminate E..].
  apply (returned_route_readable Sample.taxicab remove_dups Sample.three_children
           40%nat final).
  - apply NoDup_remove_dups.
  - intros c. apply elem_of_remove_dups.
  - apply (bool_decide_unpack _). vm_compute. exact I.
  - exact E.
Defined.
